(** * Agent Vista: address parsing, document text extraction and route planning

    A shallow embedding of the three core components of the repository:

    - [AddressParser]      (src/src/addressParser.js)
    - [DocumentProcessor]  (src/src/documentProcessor.js)
    - [RouteOptimizer]     (src/unnamed/part_001)

    and of the code around them: the slug extraction of [RealtorScraper]
    (src/src/scraper.js), the token and address handling of
    [DDFApiService] (src/src/ddfApiService.js) and the route endpoint of
    the server (src/src/addressParser.js, from line 259 on).

    JavaScript strings are modelled by [string], sequences of code units
    below 256; the case conversions, the white-space class and the
    regular-expression classes are those of ECMAScript on these code units
    (three code units have no upper case among them, see [toUpperChar]).
    A JavaScript exception is an
    explicit [Throw] result.  Everything the code obtains from its host
    (the wall clock, [Math.random], [localeCompare], [toLocaleTimeString],
    the HTTP client, the process environment) is a parameter. *)

From Stdlib Require Import String Ascii List ZArith Lia Bool Arith Permutation Sorted.
From Stdlib Require Import QArith Qround.
From Stdlib Require DecimalString.
Import ListNotations.

Local Open Scope string_scope.
Local Open Scope list_scope.
Local Open Scope nat_scope.

(* ================================================================== *)
(** ** JavaScript values and primitives *)
(* ================================================================== *)

Module Js.

(** Errors a function of the program can raise. *)
Inductive error : Type :=
| TypeError (what : string)
| ReferenceError (identifier : string)
| Error (message : string).

(** Outcome of evaluating a block that may raise. *)
Inductive result (A : Type) : Type :=
| Ok (a : A)
| Throw (e : error).
Arguments Ok {A} a.
Arguments Throw {A} e.

Definition bind {A B} (m : result A) (f : A -> result B) : result B :=
  match m with
  | Ok a => f a
  | Throw e => Throw e
  end.

Definition isOk {A} (m : result A) : bool :=
  match m with Ok _ => true | Throw _ => false end.

(** The own property names of [Object.prototype]: a property read
    [obj[key]] on an object literal finds a (truthy, non-string) value under
    each of them even when [obj] has no such own property. *)
Definition objectPrototypeKeys : list string :=
  [ "constructor"; "__defineGetter__"; "__defineSetter__"; "hasOwnProperty";
    "__lookupGetter__"; "__lookupSetter__"; "isPrototypeOf";
    "propertyIsEnumerable"; "toString"; "valueOf"; "__proto__";
    "toLocaleString" ].

Definition mem (s : string) (l : list string) : bool :=
  existsb (String.eqb s) l.

(** Result of the property read [obj[key]] on an object literal whose own
    properties are the association list [own]. *)
Inductive slot (A : Type) : Type :=
| Own (a : A)
| Inherited (key : string)
| Undefined.
Arguments Own {A} a.
Arguments Inherited {A} key.
Arguments Undefined {A}.

Fixpoint assoc {A} (own : list (string * A)) (key : string) : option A :=
  match own with
  | [] => None
  | (k, v) :: rest => if String.eqb k key then Some v else assoc rest key
  end.

Definition get {A} (own : list (string * A)) (key : string) : slot A :=
  match assoc own key with
  | Some v => Own v
  | None => if mem key objectPrototypeKeys then Inherited key else Undefined
  end.

(** *** Characters *)

Definition code (c : ascii) : nat := nat_of_ascii c.

Definition between (lo hi : nat) (c : ascii) : bool :=
  (lo <=? code c) && (code c <=? hi).

Definition isDigit : ascii -> bool := between 48 57.
Definition isUpper : ascii -> bool := between 65 90.
Definition isLower : ascii -> bool := between 97 122.
Definition isLetter (c : ascii) : bool := isUpper c || isLower c.

(** [\w]: letters, digits and underscore. *)
Definition isWord (c : ascii) : bool :=
  isLetter c || isDigit c || (code c =? 95).

(** [\s] and the characters removed by [trim], among the code units below
    256: TAB, LF, VT, FF, CR, SPACE and NO-BREAK SPACE (160). *)
Definition isSpace (c : ascii) : bool :=
  between 9 13 c || (code c =? 32) || (code c =? 160).

(** The letters of Latin-1 outside ASCII: 192-222 but for the
    multiplication sign (215), and 224-254 but for the division sign (247). *)
Definition isLatinUpper (c : ascii) : bool := between 192 214 c || between 216 222 c.
Definition isLatinLower (c : ascii) : bool := between 224 246 c || between 248 254 c.

(** [toLowerCase] on one code unit. *)
Definition toLowerChar (c : ascii) : ascii :=
  if isUpper c || isLatinUpper c then ascii_of_nat (code c + 32) else c.

(** [toUpperCase] on one code unit.  Three code units have an upper case
    that is no single code unit below 256: the micro sign (181), the sharp
    s (223) and the y with diaeresis (255); they are left as they are, and
    what is stated of upper-cased text is stated of text without them. *)
Definition toUpperChar (c : ascii) : ascii :=
  if isLower c || isLatinLower c then ascii_of_nat (code c - 32) else c.

(** *** Strings *)

Fixpoint mapString (f : ascii -> ascii) (s : string) : string :=
  match s with
  | EmptyString => EmptyString
  | String c s' => String (f c) (mapString f s')
  end.

Definition toLowerCase : string -> string := mapString toLowerChar.
Definition toUpperCase : string -> string := mapString toUpperChar.

Fixpoint allChars (p : ascii -> bool) (s : string) : bool :=
  match s with
  | EmptyString => true
  | String c s' => p c && allChars p s'
  end.

Definition nonEmpty (s : string) : bool :=
  match s with EmptyString => false | String _ _ => true end.

Fixpoint trimStart (s : string) : string :=
  match s with
  | EmptyString => EmptyString
  | String c s' => if isSpace c then trimStart s' else s
  end.

Fixpoint trimEnd (s : string) : string :=
  match s with
  | EmptyString => EmptyString
  | String c s' =>
      match trimEnd s' with
      | EmptyString => if isSpace c then EmptyString else String c EmptyString
      | t => String c t
      end
  end.

Definition trim (s : string) : string := trimEnd (trimStart s).

(** [s.split(sep)] for a one-character separator: never the empty list. *)
Fixpoint split (sep : ascii) (s : string) : list string :=
  match s with
  | EmptyString => [EmptyString]
  | String c s' =>
      if Ascii.eqb c sep then EmptyString :: split sep s'
      else match split sep s' with
           | [] => [String c EmptyString]
           | h :: t => String c h :: t
           end
  end.

(** [parts.join(sep)]. *)
Fixpoint join (sep : string) (parts : list string) : string :=
  match parts with
  | [] => EmptyString
  | [p] => p
  | p :: rest => (p ++ sep ++ join sep rest)%string
  end.

Fixpoint startsWith (s pre : string) {struct pre} : bool :=
  match pre with
  | EmptyString => true
  | String p pre' =>
      match s with
      | String c s' => Ascii.eqb p c && startsWith s' pre'
      | EmptyString => false
      end
  end.

(** [s.includes(needle)]. *)
Fixpoint includes (s needle : string) : bool :=
  startsWith s needle ||
  match s with
  | EmptyString => false
  | String _ s' => includes s' needle
  end.

(** [s.replace(/c/g, '')] for a single character [c]. *)
Fixpoint removeChar (c : ascii) (s : string) : string :=
  match s with
  | EmptyString => EmptyString
  | String a s' => if Ascii.eqb a c then removeChar c s' else String a (removeChar c s')
  end.

(** [arr.indexOf(x)] on an array of strings ([None] stands for -1). *)
Fixpoint indexOf (l : list string) (x : string) : option nat :=
  match l with
  | [] => None
  | y :: l' => if String.eqb y x then Some 0 else option_map S (indexOf l' x)
  end.

(** Decimal rendering of a number inside a template literal. *)
Definition natToString (n : nat) : string :=
  DecimalString.NilZero.string_of_uint (Nat.to_uint n).

Definition intToString (z : Z) : string :=
  DecimalString.NilZero.string_of_int (Z.to_int z).

End Js.

Import Js.

Notation "x <- m ;; k" := (Js.bind m (fun x => k))
  (at level 61, m at next level, right associativity).

(** String concatenation, written apart from list concatenation. *)
Infix "+++" := String.append (right associativity, at level 60).

(* ================================================================== *)
(** ** AddressParser (src/src/addressParser.js) *)
(* ================================================================== *)

Module AddressParser.

(** [this.streetSuffixes], own properties in source order. *)
Definition streetSuffixes : list (string * string) :=
  [ ("avenue", "Ave"); ("ave", "Ave");
    ("street", "St"); ("st", "St");
    ("road", "Rd"); ("rd", "Rd");
    ("drive", "Dr"); ("dr", "Dr");
    ("boulevard", "Blvd"); ("blvd", "Blvd");
    ("lane", "Ln"); ("ln", "Ln");
    ("court", "Ct"); ("ct", "Ct");
    ("circle", "Cir"); ("cir", "Cir");
    ("crescent", "Cres"); ("cres", "Cres");
    ("place", "Pl"); ("pl", "Pl");
    ("way", "Way");
    ("terrace", "Terr"); ("terr", "Terr") ].

(** The value held by the variable [streetType]: a string (initially the
    empty one), or the non-string value inherited from [Object.prototype]
    that [this.streetSuffixes[part]] yields for a key such as
    [constructor]. *)
Inductive streetTypeValue : Type :=
| TypeString (s : string)
| TypeInherited (key : string).

Record components : Type := mkComponents {
  unitNumber : string;
  streetNumber : string;
  streetName : string;
  streetType : streetTypeValue;
  city : string;
  neighborhood : string
}.

(** [isNumeric]: [/^\d+$/.test(str)]. *)
Definition isNumeric (str : string) : bool :=
  nonEmpty str && allChars isDigit str.

(** [capitalizeWord]. *)
Definition capitalizeWord (word : string) : string :=
  match word with
  | EmptyString => EmptyString
  | String c rest => String (toUpperChar c) (toLowerCase rest)
  end.

Definition majorCities : list string :=
  [ "toronto"; "montreal"; "vancouver"; "calgary"; "edmonton"; "ottawa"; "winnipeg";
    "quebec"; "hamilton"; "kitchener"; "london"; "victoria"; "halifax"; "oshawa";
    "windsor"; "saskatoon"; "regina"; "sherbrooke"; "barrie"; "kelowna"; "abbotsford";
    "kingston"; "sudbury"; "saguenay"; "trois-rivieres"; "guelph"; "cambridge";
    "whitby"; "ajax"; "langley"; "saanich"; "terrebonne"; "milton"; "st-catharines";
    "new-westminster"; "coquitlam"; "richmond"; "burlington"; "burnaby"; "laval";
    "longueuil"; "mississauga"; "brampton"; "markham"; "vaughan"; "richmond-hill" ].

(** [remainingParts.length > 0 && remainingParts[0].toLowerCase() === word]. *)
Definition headIs (remainingParts : list string) (word : string) : bool :=
  match remainingParts with
  | [] => false
  | h :: _ => String.eqb (toLowerCase h) word
  end.

(** [isLikelyCity(part, remainingParts)]. *)
Definition isLikelyCity (part : string) (remainingParts : list string) : bool :=
  let lowerPart := toLowerCase part in
  if String.eqb lowerPart "richmond" && headIs remainingParts "hill" then true
  else if String.eqb lowerPart "north" && headIs remainingParts "york" then true
  else mem lowerPart majorCities || (length remainingParts <=? 3).

(** The [while] loop of [intelligentAddressParsing] (lines 85-100).
    [rest] is [parts.slice(i)]; the result is the final [i], [streetName]
    and [streetType]. *)
Fixpoint scanStreet (rest : list string) (i : nat) (streetName : list string)
    (streetType : streetTypeValue) : nat * list string * streetTypeValue :=
  match rest with
  | [] => (i, streetName, streetType)
  | part :: rest' =>
      match Js.get streetSuffixes part with
      | Own abbrev => (i + 1, streetName, TypeString abbrev)
      | Inherited key => (i + 1, streetName, TypeInherited key)
      | Undefined =>
          if isLikelyCity part rest then (i, streetName, streetType)
          else scanStreet rest' (i + 1) (streetName ++ [capitalizeWord part]) streetType
      end
  end.

(** City extraction (lines 103-142): the final [city], [i] and
    [streetName]. *)
Definition extractCityPart (parts : list string) (i : nat) (streetName : list string)
    : string * nat * list string :=
  match nth_error parts i with
  | None => ("", i, streetName)
  | Some part =>
      let currentPart := toLowerCase part in
      let remainingParts := skipn (i + 1) parts in
      if String.eqb currentPart "richmond" && headIs remainingParts "hill" then
        ("Richmond Hill", i + 2, streetName)
      else if String.eqb currentPart "north" && headIs remainingParts "york" then
        ("North York", i + 2, streetName)
      else if String.eqb currentPart "east" && headIs remainingParts "york" then
        ("East York", i + 2, streetName)
      else if String.eqb currentPart "oshawa" then
        ("Oshawa", i + 1, streetName)
      else if String.eqb currentPart "e" && mem "oshawa" parts then
        match indexOf parts "oshawa" with
        | Some oshawaIndex => ("Oshawa", oshawaIndex + 1, streetName ++ ["E"])
        | None => ("Oshawa", 0, streetName ++ ["E"])
        end
      else if String.eqb currentPart "vaughan" then
        ("Vaughan", i + 1, streetName)
      else if String.eqb currentPart "n" && mem "vaughan" parts then
        match indexOf parts "vaughan" with
        | Some vaughanIndex => ("Vaughan", vaughanIndex + 1, streetName ++ ["N"])
        | None => ("Vaughan", 0, streetName ++ ["N"])
        end
      else (capitalizeWord part, i + 1, streetName)
  end.

(** [formatAddress]; [toUpperCase] is not a function on an inherited value. *)
Definition formatAddress (c : components) : result string :=
  let address := "" in
  let address :=
    if nonEmpty (unitNumber c) then address +++ unitNumber c +++ " - " else address in
  let address :=
    if nonEmpty (streetNumber c) then address +++ streetNumber c +++ " " else address in
  let address :=
    if nonEmpty (streetName c) then address +++ toUpperCase (streetName c) +++ " "
    else address in
  address <-
    match streetType c with
    | TypeString s => Ok (if nonEmpty s then address +++ toUpperCase s else address)
    | TypeInherited _ =>
        Throw (TypeError "components.streetType.toUpperCase is not a function")
    end ;;
  let address :=
    if nonEmpty (city c) then address +++ ", " +++ city c +++ ", Ontario" else address in
  Ok (trim address).

(** Body of the [try] block of [intelligentAddressParsing]. *)
Definition parseComponents (parts : list string) : components :=
  let '(unitNumber, streetNumber, i) :=
    match parts with
    | p0 :: p1 :: _ =>
        if nonEmpty p0 && isNumeric p0 && nonEmpty p1 && isNumeric p1 then (p0, p1, 2)
        else if nonEmpty p0 && isNumeric p0 then ("", p0, 1)
        else ("", "", 0)
    | [p0] => if nonEmpty p0 && isNumeric p0 then ("", p0, 1) else ("", "", 0)
    | [] => ("", "", 0)
    end in
  let '(i, streetName, streetType) :=
    scanStreet (skipn i parts) i [] (TypeString "") in
  let '(city, i, streetName) := extractCityPart parts i streetName in
  let neighborhood :=
    if i <? length parts then join " " (map capitalizeWord (skipn i parts)) else "" in
  mkComponents unitNumber streetNumber (join " " streetName) streetType city neighborhood.

(** What [intelligentAddressParsing] returns: [Some (address, components)]
    for [{ success: true, ... }], [None] for the [{ success: false }] of its
    [catch] block. *)
Definition intelligentAddressParsing (parts : list string) : option (string * components) :=
  let addressComponents := parseComponents parts in
  match formatAddress addressComponents with
  | Ok formattedAddress => Some (formattedAddress, addressComponents)
  | Throw _ => None
  end.

Inductive parseResult : Type :=
| Success (address : string) (c : components)
| Failure (message : string).

(** The tokens [parseAddressFromUrl] derives from the slug (lines 30-34):
    lower-cased, leading and trailing slashes removed, split at [-], empty
    parts dropped. *)
Fixpoint dropSlashes (s : string) : string :=
  match s with
  | String "/" s' => dropSlashes s'
  | _ => s
  end.

Fixpoint dropTrailingSlashes (s : string) : string :=
  match s with
  | EmptyString => EmptyString
  | String c s' =>
      match dropTrailingSlashes s' with
      | EmptyString => if Ascii.eqb c "/" then EmptyString else String c EmptyString
      | t => String c t
      end
  end.

Definition slugParts (urlSlug : string) : list string :=
  filter nonEmpty
    (split "-" (dropTrailingSlashes (dropSlashes (toLowerCase urlSlug)))).

(** [parseAddressFromUrl] from the length check on (lines 38-53): the
    operation the design calls [normalize]. *)
Definition normalize (parts : list string) : parseResult :=
  if length parts <? 3 then Failure "URL slug too short to parse address"
  else match intelligentAddressParsing parts with
       | Some (address, c) => Success address c
       | None => Failure "Could not parse address from URL"
       end.

Definition parseAddressFromUrl (urlSlug : string) : parseResult :=
  normalize (slugParts urlSlug).

End AddressParser.

(* ================================================================== *)
(** ** Regular expressions *)
(* ================================================================== *)

(** The fragment of ECMAScript regular expressions the program uses, with
    the backtracking semantics of the language: alternatives are tried in
    order, quantifiers are greedy and give characters back one at a time. *)
Module Regex.

Inductive regex : Type :=
| Chr (c : ascii)                                  (* a literal character *)
| Cls (p : ascii -> bool)                          (* a character class *)
| Seq (r1 r2 : regex)                              (* r1 r2 *)
| Alt (r1 r2 : regex)                              (* r1|r2 *)
| Opt (r : regex)                                  (* (?:r)? *)
| Rep (p : ascii -> bool) (lo : nat) (hi : option nat)  (* [p]{lo,hi} *)
| Grp (n : nat) (r : regex)                        (* capture group n *)
| WordB                                            (* \b *)
| Eps.

(** Matcher state: the character before the cursor, the input from the
    cursor on, and the captures made so far. *)
Record state : Type := mkState {
  prev : option ascii;
  rest : string;
  caps : list (nat * string)
}.

Fixpoint take (n : nat) (s : string) : string :=
  match n, s with
  | S n', String c s' => String c (take n' s')
  | _, _ => EmptyString
  end.

(** The text consumed between two cursors. *)
Definition consumed (from to : string) : string :=
  take (String.length from - String.length to) from.

(** Canonicalisation under the [i] flag. *)
Definition chrMatch (ci : bool) (c a : ascii) : bool :=
  if ci then Ascii.eqb (toUpperChar c) (toUpperChar a) else Ascii.eqb c a.

Definition clsMatch (ci : bool) (p : ascii -> bool) (a : ascii) : bool :=
  p a || (ci && (p (toUpperChar a) || p (toLowerChar a))).

Definition wordBefore (st : state) : bool :=
  match prev st with Some c => isWord c | None => false end.

Definition wordAfter (st : state) : bool :=
  match rest st with String c _ => isWord c | EmptyString => false end.

Definition decr (hi : option nat) : option nat := option_map pred hi.

Definition exhausted (hi : option nat) : bool :=
  match hi with Some 0 => true | _ => false end.

(** Greedy repetition of a class, continuing with [k]. *)
Fixpoint repeat (ci : bool) (p : ascii -> bool) (k : state -> option state)
    (caps : list (nat * string)) (lo : nat) (hi : option nat)
    (prev : option ascii) (s : string) : option state :=
  let stop := if lo =? 0 then k (mkState prev s caps) else None in
  match s with
  | EmptyString => stop
  | String a s' =>
      if negb (exhausted hi) && clsMatch ci p a then
        match repeat ci p k caps (pred lo) (decr hi) (Some a) s' with
        | Some st => Some st
        | None => stop
        end
      else stop
  end.

(** [run ci r k st]: match [r] at the cursor of [st], then continue with
    [k]; [None] when every alternative fails. *)
Fixpoint run (ci : bool) (r : regex) (k : state -> option state) (st : state)
    : option state :=
  match r with
  | Eps => k st
  | Chr c =>
      match rest st with
      | String a s' =>
          if chrMatch ci c a then k (mkState (Some a) s' (caps st)) else None
      | EmptyString => None
      end
  | Cls p =>
      match rest st with
      | String a s' =>
          if clsMatch ci p a then k (mkState (Some a) s' (caps st)) else None
      | EmptyString => None
      end
  | Seq r1 r2 => run ci r1 (run ci r2 k) st
  | Alt r1 r2 =>
      match run ci r1 k st with
      | Some st' => Some st'
      | None => run ci r2 k st
      end
  | Opt r1 =>
      match run ci r1 k st with
      | Some st' => Some st'
      | None => k st
      end
  | Rep p lo hi => repeat ci p k (caps st) lo hi (prev st) (rest st)
  | Grp n r1 =>
      run ci r1
        (fun st' => k (mkState (prev st') (rest st')
                         ((n, consumed (rest st) (rest st')) :: caps st')))
        st
  | WordB => if xorb (wordBefore st) (wordAfter st) then k st else None
  end.

(** A successful match: [whole] is [match[0]], [groups] the captures. *)
Record matched : Type := mkMatched {
  whole : string;
  groups : list (nat * string)
}.

(** [match[n]]; [None] is [undefined]. *)
Fixpoint group (n : nat) (g : list (nat * string)) : option string :=
  match g with
  | [] => None
  | (m, s) :: g' => if m =? n then Some s else group n g'
  end.

(** One match attempt at the cursor. *)
Definition matchAt (ci : bool) (r : regex) (prev : option ascii) (s : string)
    : option matched :=
  match run ci r Some (mkState prev s []) with
  | Some st => Some (mkMatched (consumed s (rest st)) (caps st))
  | None => None
  end.

(** All matches of a [g]-flagged expression, left to right: after a match
    the scan resumes at its end (one character further after an empty
    match).  [skip] characters are passed over before the next attempt. *)
Fixpoint scan (ci : bool) (r : regex) (skip : nat) (prev : option ascii) (s : string)
    : list matched :=
  match skip with
  | S n =>
      match s with
      | EmptyString => []
      | String a s' => scan ci r n (Some a) s'
      end
  | O =>
      match matchAt ci r prev s with
      | Some m =>
          m :: match s with
               | EmptyString => []
               | String a s' => scan ci r (pred (String.length (whole m))) (Some a) s'
               end
      | None =>
          match s with
          | EmptyString => []
          | String a s' => scan ci r 0 (Some a) s'
          end
      end
  end.

(** [[...text.matchAll(r)]]. *)
Definition matchAll (ci : bool) (r : regex) (text : string) : list matched :=
  scan ci r 0 None text.

(** [text.match(r)] for a [g]-flagged [r]: the matched substrings, or
    [None] for [null]. *)
Definition matchGlobal (ci : bool) (r : regex) (text : string) : option (list string) :=
  match matchAll ci r text with
  | [] => None
  | ms => Some (map whole ms)
  end.

(** [text.match(r)] without the [g] flag: the leftmost match. *)
Fixpoint search (ci : bool) (r : regex) (prev : option ascii) (s : string)
    : option matched :=
  match matchAt ci r prev s with
  | Some m => Some m
  | None =>
      match s with
      | EmptyString => None
      | String a s' => search ci r (Some a) s'
      end
  end.

Definition matchFirst (ci : bool) (r : regex) (text : string) : option matched :=
  search ci r None text.

(** The number of capture groups: [match.length] is one more. *)
Fixpoint groupCount (r : regex) : nat :=
  match r with
  | Seq r1 r2 | Alt r1 r2 => groupCount r1 + groupCount r2
  | Opt r1 => groupCount r1
  | Grp _ r1 => S (groupCount r1)
  | _ => 0
  end.

(** *** Building blocks *)

Fixpoint lit (s : string) : regex :=
  match s with
  | EmptyString => Eps
  | String c EmptyString => Chr c
  | String c s' => Seq (Chr c) (lit s')
  end.

Fixpoint seq (rs : list regex) : regex :=
  match rs with
  | [] => Eps
  | [r] => r
  | r :: rs' => Seq r (seq rs')
  end.

Fixpoint alt (rs : list regex) : regex :=
  match rs with
  | [] => Eps
  | [r] => r
  | r :: rs' => Alt r (alt rs')
  end.

Definition star (p : ascii -> bool) : regex := Rep p 0 None.
Definition plus (p : ascii -> bool) : regex := Rep p 1 None.
Definition maybe (p : ascii -> bool) : regex := Rep p 0 (Some 1).
Definition only (c : ascii) : ascii -> bool := Ascii.eqb c.

(** [/^r$/.test(s)]: without the [m] flag the expression has to match the
    whole of [s], from its first character to its end. *)
Definition atEnd (st : state) : option state :=
  match rest st with
  | EmptyString => Some st
  | String _ _ => None
  end.

Definition testWhole (ci : bool) (r : regex) (s : string) : bool :=
  match run ci r atEnd (mkState None s []) with
  | Some _ => true
  | None => false
  end.

End Regex.

(* ================================================================== *)
(** ** DocumentProcessor (src/src/documentProcessor.js) *)
(* ================================================================== *)

Module DocumentProcessor.
Import Regex.

(** A loop whose body may raise: the state reached, and the error that
    stopped the loop if one did.  The state a body has built before it
    raises is kept, as for the mutated [results] object. *)
Definition completion (S : Type) : Type := (S * option error)%type.

Fixpoint forEach {S X : Type} (body : S -> X -> completion S) (xs : list X) (s : S)
    : completion S :=
  match xs with
  | [] => (s, None)
  | x :: xs' =>
      match body s x with
      | (s', None) => forEach body xs' s'
      | (s', Some e) => (s', Some e)
      end
  end.

(** A pattern with its [i] flag. *)
Record regExp : Type := mkPattern { ignoreCase : bool; expr : regex }.

(** [[#\s:]]. *)
Definition labelSep (c : ascii) : bool :=
  Ascii.eqb c "#" || isSpace c || Ascii.eqb c ":".

(** [([A-Z]\d{7,8})]. *)
Definition mlsId : regex := Grp 1 (Seq (Cls isUpper) (Rep isDigit 7 (Some 8))).

(** [this.mlsPatterns] (lines 12-19). *)
Definition mlsPatterns : list regExp :=
  [ mkPattern true (seq [lit "MLS"; star labelSep; mlsId]);
    mkPattern true
      (seq [lit "MLS"; star labelSep;
            Grp 1 (seq [Cls isUpper; Rep isDigit 6 (Some 7); Chr "-"; maybe isUpper])]);
    mkPattern false (seq [WordB; mlsId; WordB]);
    mkPattern true (seq [lit "Listing"; star labelSep; mlsId]);
    mkPattern true (seq [lit "Property"; star labelSep; mlsId]);
    mkPattern true (seq [lit "Reference"; star labelSep; mlsId]) ].

(** [[A-Za-z\s]] and [[-\s]]. *)
Definition letterOrSpace (c : ascii) : bool := isLetter c || isSpace c.
Definition dashOrSpace (c : ascii) : bool := Ascii.eqb c "-" || isSpace c.

(** Group 1 of the address patterns: [\d+[-\s]?\d*]. *)
Definition unitPart : regex :=
  Grp 1 (seq [plus isDigit; maybe dashOrSpace; star isDigit]).

Definition streetSuffix : regex :=
  alt (map lit
    [ "St"; "Street"; "Ave"; "Avenue"; "Rd"; "Road"; "Dr"; "Drive"; "Blvd";
      "Boulevard"; "Ln"; "Lane"; "Ct"; "Court"; "Cir"; "Circle"; "Cres";
      "Crescent"; "Pl"; "Place"; "Way"; "Terr"; "Terrace" ]).

(** [([A-Za-z\s]+(?:St|Street|...)\.?)]. *)
Definition streetPart : regex :=
  Grp 2 (seq [plus letterOrSpace; streetSuffix; maybe (only ".")]).

Definition province : regex :=
  alt (map lit
    [ "ON"; "Ontario"; "BC"; "British Columbia"; "AB"; "Alberta"; "QC"; "Quebec";
      "MB"; "Manitoba"; "SK"; "Saskatchewan"; "NS"; "Nova Scotia"; "NB";
      "New Brunswick"; "NL"; "Newfoundland"; "PE"; "Prince Edward Island" ]).

(** [this.addressPatterns] (lines 22-31). *)
Definition addressPatterns : list regExp :=
  [ mkPattern true
      (seq [unitPart; plus isSpace; streetPart; star isSpace; maybe (only ",");
            star isSpace; Grp 3 (plus letterOrSpace); maybe (only ","); star isSpace;
            Grp 4 province]);
    mkPattern true
      (seq [unitPart; plus isSpace; streetPart; star isSpace; Chr ","; star isSpace;
            Grp 3 (plus letterOrSpace)]);
    mkPattern true (seq [unitPart; plus isSpace; streetPart]) ].

Record propertyDetails : Type := mkDetails {
  prices : option (list string);
  bedrooms : option string;
  bathrooms : option string;
  squareFootage : option string;
  propertyType : option string
}.

Definition noDetails : propertyDetails := mkDetails None None None None None.

Record results : Type := mkResults {
  mlsNumbers : list string;
  addresses : list string;
  details : propertyDetails
}.

(** A captured group inside a template literal, and as the receiver of a
    method call. *)
Definition interpolate (g : option string) : string :=
  match g with Some s => s | None => "undefined" end.

Definition receiver (g : option string) (method : string) : result string :=
  match g with
  | Some s => Ok s
  | None => Throw (TypeError ("Cannot read properties of undefined (reading '" +++ method +++ "')"))
  end.

(** The callback of the MLS loop (lines 205-211). *)
Definition addMls (numbers : list string) (m : matched) : completion (list string) :=
  match receiver (group 1 (groups m)) "toUpperCase" with
  | Throw e => (numbers, Some e)
  | Ok captured =>
      let mlsNumber := trim (toUpperCase captured) in
      if nonEmpty mlsNumber && negb (mem mlsNumber numbers)
      then (numbers ++ [mlsNumber], None)
      else (numbers, None)
  end.

Definition scanMls (text : string) : completion (list string) :=
  forEach
    (fun numbers p => forEach addMls (matchAll (ignoreCase p) (expr p) text) numbers)
    mlsPatterns [].

(** The display string built from a match (lines 219-239); [len] is
    [match.length]. *)
Definition buildAddress (len : nat) (m : matched) : result string :=
  let g n := group n (groups m) in
  if 4 <=? len then
    let unit := interpolate (g 1) in
    street <- receiver (g 2) "trim" ;;
    city <- receiver (g 3) "trim" ;;
    let province := interpolate (g 4) in
    Ok (unit +++ " " +++ trim street +++ ", " +++ trim city +++ ", " +++ province)
  else if 3 <=? len then
    let unit := interpolate (g 1) in
    street <- receiver (g 2) "trim" ;;
    city <- receiver (g 3) "trim" ;;
    Ok (unit +++ " " +++ trim street +++ ", " +++ trim city)
  else if 2 <=? len then
    let unit := interpolate (g 1) in
    street <- receiver (g 2) "trim" ;;
    Ok (unit +++ " " +++ trim street)
  else Ok "".

(** The duplicate test of line 241: one of the two addresses contains the
    other, case ignored. *)
Definition overlaps (addr address : string) : bool :=
  includes (toLowerCase addr) (toLowerCase address) ||
  includes (toLowerCase address) (toLowerCase addr).

(** The duplicate filter (lines 241-247). *)
Definition acceptAddress (addresses : list string) (address : string) : list string :=
  if nonEmpty address && negb (existsb (fun addr => overlaps addr address) addresses)
  then addresses ++ [address]
  else addresses.

(** The callback of the address loop (lines 218-248). *)
Definition addAddress (len : nat) (addresses : list string) (m : matched)
    : completion (list string) :=
  match buildAddress len m with
  | Throw e => (addresses, Some e)
  | Ok address => (acceptAddress addresses address, None)
  end.

Definition scanAddresses (text : string) : completion (list string) :=
  forEach
    (fun addresses p =>
       forEach (addAddress (S (groupCount (expr p))))
               (matchAll (ignoreCase p) (expr p) text) addresses)
    addressPatterns [].

(** The expressions of [extractPropertyDetails]. *)
Definition digitOrComma (c : ascii) : bool := isDigit c || Ascii.eqb c ",".

(** [/\$[\d,]+/g]. *)
Definition priceRe : regex := Seq (Chr "$") (plus digitOrComma).

(** [/(\d+)\s*bed(?:room)?s?/gi] and [/\d+/]. *)
Definition bedroomRe : regex :=
  seq [Grp 1 (plus isDigit); star isSpace; lit "bed"; Opt (lit "room"); maybe (only "s")].
Definition digitsRe : regex := plus isDigit.

(** [\d+(?:\.\d+)?]. *)
Definition decimalRe : regex :=
  Seq (plus isDigit) (Opt (Seq (Chr ".") (plus isDigit))).

(** [/(\d+(?:\.\d+)?)\s*bath(?:room)?s?/gi]. *)
Definition bathroomRe : regex :=
  seq [Grp 1 decimalRe; star isSpace; lit "bath"; Opt (lit "room"); maybe (only "s")].

(** [\d+,?\d*]. *)
Definition areaRe : regex := seq [plus isDigit; maybe (only ","); star isDigit].

(** [/(area)\s*sq\.?\s*ft\.?/gi], with [area] as above in group 1. *)
Definition sqftRe : regex :=
  seq [Grp 1 areaRe; star isSpace; lit "sq"; maybe (only "."); star isSpace; lit "ft";
       maybe (only ".")].

(** [typePatterns]. *)
Definition typePatterns : list regex :=
  [ seq [WordB;
         Grp 1 (alt (map lit
           [ "detached"; "semi-detached"; "townhouse"; "condo"; "condominium";
             "apartment"; "duplex"; "triplex"; "bungalow"; "ranch"; "colonial" ]));
         WordB] ].

(** [first[0].match(inner)[0]]: the numeric portion of the first match. *)
Definition numericPortion (inner : regex) (found : list string) : result string :=
  match found with
  | [] => Throw (TypeError "Cannot read properties of undefined (reading 'match')")
  | first :: _ =>
      match matchFirst false inner first with
      | Some m => Ok (whole m)
      | None => Throw (TypeError "Cannot read properties of null (reading '0')")
      end
  end.

Definition setField (d : propertyDetails) (r : result propertyDetails)
    : completion propertyDetails :=
  match r with
  | Ok d' => (d', None)
  | Throw e => (d, Some e)
  end.

(** The five blocks of [extractPropertyDetails], in order. *)
Definition detailSteps (text : string)
    : list (propertyDetails -> result propertyDetails) :=
  [ (fun d =>
       match matchGlobal false priceRe text with
       | Some priceMatch =>
           Ok (mkDetails (Some (map (removeChar ",") priceMatch))
                 (bedrooms d) (bathrooms d) (squareFootage d) (propertyType d))
       | None => Ok d
       end);
    (fun d =>
       match matchGlobal true bedroomRe text with
       | Some bedroomMatch =>
           n <- numericPortion digitsRe bedroomMatch ;;
           Ok (mkDetails (prices d) (Some n) (bathrooms d) (squareFootage d)
                 (propertyType d))
       | None => Ok d
       end);
    (fun d =>
       match matchGlobal true bathroomRe text with
       | Some bathroomMatch =>
           n <- numericPortion decimalRe bathroomMatch ;;
           Ok (mkDetails (prices d) (bedrooms d) (Some n) (squareFootage d)
                 (propertyType d))
       | None => Ok d
       end);
    (fun d =>
       match matchGlobal true sqftRe text with
       | Some sqftMatch =>
           n <- numericPortion areaRe sqftMatch ;;
           Ok (mkDetails (prices d) (bedrooms d) (bathrooms d)
                 (Some (removeChar "," n)) (propertyType d))
       | None => Ok d
       end);
    (fun d =>
       let fix firstType (ps : list regex) : option string :=
         match ps with
         | [] => None
         | p :: ps' =>
             match matchGlobal true p text with
             | Some (typeMatch :: _) => Some (toLowerCase typeMatch)
             | _ => firstType ps'
             end
         end in
       match firstType typePatterns with
       | Some t =>
           Ok (mkDetails (prices d) (bedrooms d) (bathrooms d) (squareFootage d) (Some t))
       | None => Ok d
       end) ].

(** [extractPropertyDetails]: an error raised inside the [try] block is
    logged and the details gathered so far are returned. *)
Definition extractPropertyDetails (text : string) : propertyDetails :=
  fst (forEach (fun d step => setField d (step d)) (detailSteps text) noDetails).

(** [parsePropertyInfo], the operation the design calls [extract]: the
    three phases run inside one [try] block, so an error raised by a phase
    skips the later ones and [results] is returned as it then stands. *)
Definition parsePropertyInfo (text : string) : results :=
  match scanMls text with
  | (numbers, Some _) => mkResults numbers [] noDetails
  | (numbers, None) =>
      match scanAddresses text with
      | (found, Some _) => mkResults numbers found noDetails
      | (found, None) => mkResults numbers found (extractPropertyDetails text)
      end
  end.

(** [validPatterns] of [isValidMLS] (lines 326-329); both are anchored at
    the two ends. *)
Definition validPatterns : list regex :=
  [ seq [Cls isUpper; Rep isDigit 7 (Some 8)];
    seq [Cls isUpper; Rep isDigit 6 (Some 7); Chr "-"; maybe isUpper] ].

(** [isValidMLS]. *)
Definition isValidMLS (mlsNumber : string) : bool :=
  existsb (fun r => testWhole false r mlsNumber) validPatterns.

End DocumentProcessor.

(* ================================================================== *)
(** ** RouteOptimizer (src/unnamed/part_001) *)
(* ================================================================== *)

Module RouteOptimizer.

(** *** The host *)

(** One element of [data.routes[0].legs]. *)
Record leg : Type := mkLeg {
  durationText : string;        (* leg.duration.text *)
  durationValue : Z;            (* leg.duration.value, in seconds *)
  distanceText : string;        (* leg.distance.text *)
  startAddress : string;
  endAddress : string
}.

(** [legs] is [None] when the route has no [legs] property. *)
Record route : Type := mkRoute { legs : option (list leg) }.

(** [response.data] of the Directions request. *)
Record directionsData : Type := mkData {
  status : string;
  errorMessage : option string;
  routes : list route
}.

(** What the program takes from its host.  [clock n] is the reading of the
    [n]-th [new Date()] of an invocation, in milliseconds; [random n] the
    [n]-th value of [Math.random()]; [axiosGet url] the outcome of the HTTP
    request, [Throw] when the client raises.  The literal of line 6 is a
    credential: only its first character is written here, the rest is
    [fallbackKeyRest].  [distanceTotal] is the floating-point sum of lines
    328-332 over the distance texts of the legs, as [toFixed(1)] renders
    it. *)
Record host : Type := mkHost {
  localeCompare : string -> string -> Z;
  formatTime : Z -> string;
  clock : nat -> Z;
  random : nat -> Q;
  axiosGet : string -> result directionsData;
  envGoogleMapsApiKey : option string;
  fallbackKeyRest : string;
  distanceTotal : list string -> string
}.

(** Reads made so far of the clock and of the random source. *)
Record world : Type := mkWorld { clockReads : nat; randomDraws : nat }.

Definition start : world := mkWorld 0 0.

(** Computations that read the host and may raise; the reads made before
    an error stay made. *)
Definition M (A : Type) : Type := world -> result A * world.

Definition ret {A} (a : A) : M A := fun w => (Ok a, w).

Definition raise {A} (e : error) : M A := fun w => (Throw e, w).

Definition lift {A} (r : result A) : M A := fun w => (r, w).

Definition mbind {A B} (m : M A) (f : A -> M B) : M B :=
  fun w => match m w with
           | (Ok a, w') => f a w'
           | (Throw e, w') => (Throw e, w')
           end.

Definition tryCatch {A} (m : M A) (handler : error -> M A) : M A :=
  fun w => match m w with
           | (Ok a, w') => (Ok a, w')
           | (Throw e, w') => handler e w'
           end.

Definition newDate (h : host) : M Z :=
  fun w => (Ok (clock h (clockReads w)), mkWorld (S (clockReads w)) (randomDraws w)).

Definition mathRandom (h : host) : M Q :=
  fun w => (Ok (random h (randomDraws w)), mkWorld (clockReads w) (S (randomDraws w))).

Notation "x <~ m ;; k" := (mbind m (fun x => k))
  (at level 61, m at next level, right associativity).

(** *** Data *)

(** An element of [properties]. *)
Record property : Type := mkProperty {
  address : string;
  visitDuration : Z;
  mlsNumber : option string
}.

Record step : Type := mkStep {
  stepType : string;
  stepAddress : string;
  arrivalTime : string;
  duration : string;
  stepVisitDuration : option Z;
  stepMlsNumber : option string;
  distance : option string;
  realTravelTime : bool
}.

(** The [route] object of the returned value [{ success: true, route }]. *)
Record plan : Type := mkPlan {
  totalDuration : string;
  totalDistance : option string;
  startTime : string;
  returnTime : string;
  steps : list step;
  googleMapsUrl : string;
  optimizationNotes : option string
}.

(** The fields the constructor sets. *)
Record instance : Type := mkInstance {
  googleApiKey : string;
  useSimulation : bool;
  directionsApiUrl : string
}.

(** [process.env.GOOGLE_MAPS_API_KEY || '...'] and [!this.googleApiKey]. *)
Definition construct (h : host) : instance :=
  let googleApiKey :=
    match envGoogleMapsApiKey h with
    | Some key => if nonEmpty key then key else String "A" (fallbackKeyRest h)
    | None => String "A" (fallbackKeyRest h)
    end in
  mkInstance googleApiKey (negb (nonEmpty googleApiKey))
    "https://maps.googleapis.com/maps/api/directions/json".

(** *** Sorting *)

(** [Array.prototype.sort] with a comparator: a stable sort.  For a
    consistent comparator, which [localeCompare] is, every stable sort
    returns the same array; it is computed here by insertion from the
    right. *)
Fixpoint insert {A} (compare : A -> A -> Z) (x : A) (l : list A) : list A :=
  match l with
  | [] => [x]
  | y :: l' => if (compare x y <=? 0)%Z then x :: l else y :: insert compare x l'
  end.

Definition sort {A} (compare : A -> A -> Z) (l : list A) : list A :=
  fold_right (insert compare) [] l.

(** *** The visiting order *)

(** [extractCity]. *)
Definition extractCity (address : string) : string :=
  match split "," address with
  | _ :: second :: _ => trim second
  | _ => "Unknown"
  end.

(** [extractStreetName]. *)
Definition extractStreetName (address : string) : string :=
  match split "," address with
  | first :: _ => trim first
  | [] => address
  end.

Definition priorityMap : list (string * Z) :=
  [ ("Richmond Hill", 1); ("Vaughan", 2); ("Markham", 3); ("North York", 4);
    ("Scarborough", 5); ("Toronto", 6); ("Mississauga", 7); ("Brampton", 8);
    ("Oshawa", 9) ]%Z.

(** The comparator of [getCityPriority].  A difference that involves an
    inherited (non-number) value is [NaN], which [sort] reads as 0. *)
Definition compareCities (h : host) (a b : string) : Z :=
  match Js.get priorityMap a, Js.get priorityMap b with
  | Inherited ka, Inherited kb =>
      if String.eqb ka kb then localeCompare h a b else 0%Z
  | Inherited _, _ | _, Inherited _ => 0%Z
  | pa, pb =>
      let priorityA := match pa with Own n => n | _ => 999%Z end in
      let priorityB := match pb with Own n => n | _ => 999%Z end in
      if (priorityA =? priorityB)%Z then localeCompare h a b
      else (priorityA - priorityB)%Z
  end.

(** [getCityPriority]. *)
Definition getCityPriority (h : host) (cities : list string) : list string :=
  sort (compareCities h) cities.

(** [groupedByCity[city].push(property)] on an own property. *)
Fixpoint push (grouped : list (string * list property)) (city : string) (p : property)
    : list (string * list property) :=
  match grouped with
  | [] => []
  | (k, bucket) :: rest =>
      if String.eqb k city then (k, bucket ++ [p]) :: rest
      else (k, bucket) :: push rest city p
  end.

(** The callback of the grouping loop (lines 119-125).  Under an inherited
    name the object holds a truthy value without [push]. *)
Definition group (grouped : list (string * list property)) (p : property)
    : result (list (string * list property)) :=
  let city := extractCity (address p) in
  match Js.get grouped city with
  | Undefined => Ok (grouped ++ [(city, [p])])
  | Own _ => Ok (push grouped city p)
  | Inherited _ => Throw (TypeError "groupedByCity[city].push is not a function")
  end.

Fixpoint groupAll (grouped : list (string * list property)) (properties : list property)
    : result (list (string * list property)) :=
  match properties with
  | [] => Ok grouped
  | p :: rest => grouped' <- group grouped p ;; groupAll grouped' rest
  end.

(** A property name that is an array index: the canonical decimal form of
    an integer below 2^32 - 1. *)
Fixpoint digitsValue (acc : N) (s : string) : N :=
  match s with
  | EmptyString => acc
  | String c s' => digitsValue (acc * 10 + N.of_nat (code c - 48))%N s'
  end.

Definition arrayIndex (key : string) : option N :=
  match key with
  | EmptyString => None
  | String c rest =>
      if allChars isDigit key
         && (negb (Ascii.eqb c "0") || negb (nonEmpty rest))
         && (digitsValue 0 key <? 4294967295)%N
      then Some (digitsValue 0 key) else None
  end.

(** [Object.keys]: array-index names in ascending order, then the other
    names in the order of their creation. *)
Definition objectKeys {A} (own : list (string * A)) : list string :=
  let indexed :=
    flat_map (fun kv => match arrayIndex (fst kv) with
                        | Some n => [(n, fst kv)]
                        | None => []
                        end) own in
  map snd (sort (fun x y => (Z.of_N (fst x) - Z.of_N (fst y))%Z) indexed)
  ++ filter (fun k => match arrayIndex k with Some _ => false | None => true end)
       (map fst own).

(** The comparator of line 140. *)
Definition compareStreets (h : host) (a b : property) : Z :=
  localeCompare h (extractStreetName (address a)) (extractStreetName (address b)).

(** The callback of [cityPriority.forEach] (lines 138-148). *)
Definition addCity (h : host) (grouped : list (string * list property))
    (optimized : list property) (city : string) : result (list property) :=
  match Js.get grouped city with
  | Own bucket => Ok (optimized ++ sort (compareStreets h) bucket)
  | Inherited _ => Throw (TypeError "groupedByCity[city].sort is not a function")
  | Undefined => Throw (TypeError "Cannot read properties of undefined (reading 'sort')")
  end.

Fixpoint addCities (h : host) (grouped : list (string * list property))
    (optimized : list property) (cities : list string) : result (list property) :=
  match cities with
  | [] => Ok optimized
  | city :: rest =>
      optimized' <- addCity h grouped optimized city ;;
      addCities h grouped optimized' rest
  end.

(** [simulateOptimalOrder]. *)
Definition simulateOptimalOrder (h : host) (properties : list property)
    : result (list property) :=
  groupedByCity <- groupAll [] properties ;;
  let cities := objectKeys groupedByCity in
  let cityPriority := getCityPriority h cities in
  addCities h groupedByCity [] cityPriority.

(** *** The map link *)

Definition hexDigit (n : nat) : ascii :=
  match String.get n "0123456789ABCDEF" with Some c => c | None => "0"%char end.

Definition percent (byte : nat) : string :=
  String "%" (String (hexDigit (byte / 16)) (String (hexDigit (byte mod 16)) EmptyString)).

(** The characters [encodeURIComponent] leaves as they are. *)
Definition unreserved (c : ascii) : bool :=
  isLetter c || isDigit c || mem (String c EmptyString) ["-"; "_"; "."; "!"; "~"; "*"; "'"; "("; ")"].

(** [encodeURIComponent]: the UTF-8 bytes of every other character,
    percent-encoded. *)
Fixpoint encodeURIComponent (s : string) : string :=
  match s with
  | EmptyString => EmptyString
  | String c s' =>
      (if unreserved c then String c EmptyString
       else if code c <? 128 then percent (code c)
       else percent (192 + code c / 64) +++ percent (128 + code c mod 64))
      +++ encodeURIComponent s'
  end.

(** [generateGoogleMapsUrl]; nothing in its [try] block raises. *)
Definition generateGoogleMapsUrl (officeAddress : string) (properties : list property)
    : string :=
  let addresses := [officeAddress] ++ map address properties ++ [officeAddress] in
  let encodedAddresses := map encodeURIComponent addresses in
  let baseUrl := "https://www.google.com/maps/dir" in
  baseUrl +++ "/" +++ join "/" encodedAddresses +++ "/".

(** *** Simulation mode *)

(** [Math.floor(Math.random() * 20) + 10].  The product is taken exactly,
    where the code rounds it to the nearest number it can hold: for a draw
    whose product lies within that rounding below a whole number the code
    counts one minute more than this definition.  Both stay within 10 and
    29 for the draws of the language. *)
Definition drivingMinutesOf (r : Q) : Z := (Qfloor (r * 20) + 10)%Z.

(** The variables the loops update. *)
Record progress : Type := mkProgress {
  currentTime : Z;
  stepsSoFar : list step;
  totalDriving : Z;
  totalVisit : Z
}.

(** The loop of lines 57-78, from index [i] on. *)
Fixpoint visitAll (h : host) (i : nat) (optimizedProperties : list property)
    (st : progress) : M progress :=
  match optimizedProperties with
  | [] => ret st
  | property :: rest =>
      r <~ mathRandom h ;;
      let drivingMinutes := drivingMinutesOf r in
      let totalDrivingTime := (totalDriving st + drivingMinutes)%Z in
      let currentTime := (currentTime st + drivingMinutes * 60000)%Z in
      let steps :=
        stepsSoFar st ++
        [ mkStep ("Visit Property " +++ natToString (i + 1))
            (address property)
            (formatTime h currentTime)
            (intToString drivingMinutes +++ " minutes driving")
            (Some (visitDuration property))
            (mlsNumber property)
            None false ] in
      let totalVisitTime := (totalVisit st + visitDuration property)%Z in
      let currentTime := (currentTime + visitDuration property * 60000)%Z in
      visitAll h (i + 1) rest (mkProgress currentTime steps totalDrivingTime totalVisitTime)
  end.

(** The [totalDuration] label. *)
Definition durationLabel (totalMinutes driving visiting : Z) : string :=
  intToString (totalMinutes / 60) +++ "h " +++ intToString (Z.rem totalMinutes 60)
  +++ "m (" +++ intToString driving +++ "m driving + " +++ intToString visiting
  +++ "m visiting)".

Definition simulationNote : string :=
  "Note: This is a simulated route for demo purposes. In production, this would use Google Maps API for real traffic data and optimal routing.".

(** [simulateRouteOptimization]; the two-second delay of line 36 is not
    represented. *)
Definition simulateRouteOptimization (h : host) (officeAddress : string)
    (properties : list property) : M plan :=
  optimizedProperties <~ lift (simulateOptimalOrder h properties) ;;
  currentTime <~ newDate h ;;
  let steps :=
    [ mkStep "Start" officeAddress (formatTime h currentTime) "0 minutes"
        None None None false ] in
  st <~ visitAll h 0 optimizedProperties (mkProgress currentTime steps 0 0) ;;
  r <~ mathRandom h ;;
  let returnDrivingMinutes := drivingMinutesOf r in
  let totalDrivingTime := (totalDriving st + returnDrivingMinutes)%Z in
  let currentTime := (RouteOptimizer.currentTime st + returnDrivingMinutes * 60000)%Z in
  let steps :=
    stepsSoFar st ++
    [ mkStep "Return to Office" officeAddress (formatTime h currentTime)
        (intToString returnDrivingMinutes +++ " minutes driving")
        None None None false ] in
  let totalMinutes := (totalDrivingTime + totalVisit st)%Z in
  let googleMapsUrl := generateGoogleMapsUrl officeAddress optimizedProperties in
  ret (mkPlan
         (durationLabel totalMinutes totalDrivingTime (totalVisit st))
         None
         (match steps with s0 :: _ => arrivalTime s0 | [] => "" end)
         (match rev steps with sn :: _ => arrivalTime sn | [] => "" end)
         steps
         googleMapsUrl
         (if useSimulation (construct h) then Some simulationNote else None)).

(** *** Provider mode *)

(** [Math.ceil(seconds / 60)]. *)
Definition ceilMinutes (seconds : Z) : Z := (- ((- seconds) / 60))%Z.

(** The callback of [legs.forEach] (lines 276-321). *)
Definition addLeg (h : host) (officeAddress : string) (properties : list property)
    (st : progress) (index : nat) (l : leg) : progress :=
  let drivingSeconds := durationValue l in
  let drivingMinutes := ceilMinutes drivingSeconds in
  let totalDrivingSeconds := (totalDriving st + drivingSeconds)%Z in
  let currentTime := (currentTime st + drivingSeconds * 1000)%Z in
  let label :=
    intToString drivingMinutes +++ " minutes driving (" +++ durationText l +++ ")" in
  match nth_error properties index with
  | Some property =>
      mkProgress
        (currentTime + visitDuration property * 60000)%Z
        (stepsSoFar st ++
         [ mkStep ("Visit Property " +++ natToString (index + 1))
             (address property) (formatTime h currentTime) label
             (Some (visitDuration property)) (mlsNumber property)
             (Some (distanceText l)) true ])
        totalDrivingSeconds
        (totalVisit st + visitDuration property)%Z
  | None =>
      mkProgress currentTime
        (stepsSoFar st ++
         [ mkStep "Return to Office" officeAddress (formatTime h currentTime) label
             None None (Some (distanceText l)) true ])
        totalDrivingSeconds
        (totalVisit st)
  end.

Fixpoint addLegs (h : host) (officeAddress : string) (properties : list property)
    (index : nat) (ls : list leg) (st : progress) : progress :=
  match ls with
  | [] => st
  | l :: rest =>
      addLegs h officeAddress properties (index + 1) rest
        (addLeg h officeAddress properties st index l)
  end.

(** The value of an identifier in a scope; reading an undeclared one
    raises. *)
Definition identifier {A} (scope : list (string * A)) (name : string) : result A :=
  match assoc scope name with
  | Some v => Ok v
  | None => Throw (ReferenceError (name +++ " is not defined"))
  end.

(** [parseGoogleDirectionsResponse].  The identifiers bound to an array of
    properties in its scope are its parameter [properties] and nothing
    else: the module binds only [axios] and [RouteOptimizer] besides.
    The [catch] block re-raises. *)
Definition parseGoogleDirectionsResponse (h : host) (data : directionsData)
    (officeAddress : string) (properties : list property) : M plan :=
  let scope := [("properties", properties)] in
  route <~ lift (match routes data with
                 | r :: _ => Ok r
                 | [] => Throw (TypeError "Cannot read properties of undefined (reading 'legs')")
                 end) ;;
  legs <~ lift (match legs route with
                | Some (l :: ls) => Ok (l :: ls)
                | _ => Throw (Error "No route legs found in Google Directions response")
                end) ;;
  currentTime <~ newDate h ;;
  let steps :=
    [ mkStep "Start" officeAddress (formatTime h currentTime) "0 minutes driving"
        None None None true ] in
  let st := addLegs h officeAddress properties 0 legs (mkProgress currentTime steps 0 0) in
  let totalDrivingMinutes := ceilMinutes (totalDriving st) in
  let totalMinutes := (totalDrivingMinutes + totalVisit st)%Z in
  optimizedProperties <~ lift (identifier scope "optimizedProperties") ;;
  let googleMapsUrl := generateGoogleMapsUrl officeAddress optimizedProperties in
  ret (mkPlan
         (durationLabel totalMinutes totalDrivingMinutes (totalVisit st))
         (Some (distanceTotal h (map distanceText legs) +++ " km"))
         (match stepsSoFar st with s0 :: _ => arrivalTime s0 | [] => "" end)
         (match rev (stepsSoFar st) with sn :: _ => arrivalTime sn | [] => "" end)
         (stepsSoFar st)
         googleMapsUrl
         (Some "Real-time travel estimates from Google Maps API with current traffic conditions.")).

(** The request URL of lines 216-227. *)
Definition directionsUrl (h : host) (officeAddress : string)
    (optimizedProperties : list property) : string :=
  let waypoints :=
    join "|" (map (fun p => encodeURIComponent (address p)) optimizedProperties) in
  directionsApiUrl (construct h) +++ "?"
  +++ "origin=" +++ encodeURIComponent officeAddress
  +++ "&destination=" +++ encodeURIComponent officeAddress
  +++ "&waypoints=" +++ waypoints
  +++ "&optimize_waypoints=false"
  +++ "&units=metric"
  +++ "&departure_time=now"
  +++ "&traffic_model=best_guess"
  +++ "&key=" +++ googleApiKey (construct h).

(** [optimizeWithGoogleAPI]; its [catch] block re-raises. *)
Definition optimizeWithGoogleAPI (h : host) (officeAddress : string)
    (properties : list property) : M plan :=
  tryCatch
    (optimizedProperties <~ lift (simulateOptimalOrder h properties) ;;
     let url := directionsUrl h officeAddress optimizedProperties in
     data <~ lift (axiosGet h url) ;;
     if negb (String.eqb (status data) "OK") then
       raise (Error ("Google API error: " +++ status data +++ " - "
                     +++ match errorMessage data with
                         | Some m => if nonEmpty m then m else "Unknown error"
                         | None => "Unknown error"
                         end))
     else parseGoogleDirectionsResponse h data officeAddress optimizedProperties)
    (fun error => raise error).

(** [optimizeRoute], the operation the design calls [planRoute]. *)
Definition optimizeRoute (h : host) (officeAddress : string)
    (properties : list property) : M plan :=
  tryCatch
    (optimizeWithGoogleAPI h officeAddress properties)
    (fun _ => simulateRouteOptimization h officeAddress properties).

(** [validateAddresses], on an array of strings. *)
Definition validateAddresses (addresses : list string) : bool :=
  forallb (fun address => nonEmpty address && (5 <? String.length (trim address)))
          addresses.

End RouteOptimizer.

(* ================================================================== *)
(** ** RealtorScraper (src/src/scraper.js) *)
(* ================================================================== *)

Module Scraper.

(** [extractUrlSlug]; [None] is [null].  Nothing in its [try] block
    raises on a string. *)
Definition extractUrlSlug (url : string) : option string :=
  let urlParts := split "/" url in
  if (5 <=? length urlParts)
     && match nth_error urlParts 3 with
        | Some part => String.eqb part "real-estate"
        | None => false
        end
  then Some (join "/" (skipn 5 urlParts))
  else None.

(** The branch of [checkForListing] that reads the address off the URL of
    the page (lines 260-269): [Some address] when it returns a found
    listing, [None] when it leaves the matter to the checks after it. *)
Definition addressFromUrl (currentUrl : string) : option string :=
  if includes currentUrl "real-estate" then
    match extractUrlSlug currentUrl with
    | Some urlSlug =>
        if nonEmpty urlSlug then
          match AddressParser.parseAddressFromUrl urlSlug with
          | AddressParser.Success address _ => Some address
          | AddressParser.Failure _ => None
          end
        else None
    | None => None
    end
  else None.

End Scraper.

(* ================================================================== *)
(** ** DDFApiService (src/src/ddfApiService.js) *)
(* ================================================================== *)

Module DdfApiService.

(** The fields of a listing that [formatCanadianAddress] reads; [None] is
    a missing or [null] field. *)
Record listing : Type := mkListing {
  unparsedAddress : option string;
  listingCity : option string;
  stateOrProvince : option string
}.

(** Truthiness of an optional string. *)
Definition truthy (v : option string) : bool :=
  match v with
  | Some s => nonEmpty s
  | None => false
  end.

Definition valueOf (v : option string) : string :=
  match v with
  | Some s => s
  | None => EmptyString
  end.

(** [formatCanadianAddress]; nothing in its [try] block raises on string
    fields. *)
Definition formatCanadianAddress (property : listing) : string :=
  let address := EmptyString in
  let address :=
    if truthy (unparsedAddress property) then trim (valueOf (unparsedAddress property))
    else address in
  let address :=
    if truthy (listingCity property) then
      if nonEmpty address then address +++ ", " +++ valueOf (listingCity property)
      else valueOf (listingCity property)
    else address in
  let address :=
    if truthy (stateOrProvince property) then
      if nonEmpty address then address +++ ", " +++ valueOf (stateOrProvince property)
      else valueOf (stateOrProvince property)
    else address in
  if nonEmpty address then address else "Address not available".

(** [s.replace(/\s+/g, '')]. *)
Fixpoint removeSpaces (s : string) : string :=
  match s with
  | EmptyString => EmptyString
  | String c s' => if isSpace c then removeSpaces s' else String c (removeSpaces s')
  end.

(** [cleanMLS] of [searchPropertyByMLS] and [getPropertyDetails]. *)
Definition cleanMLS (mlsNumber : string) : string :=
  toUpperCase (removeSpaces mlsNumber).

(** The [$filter] parameter of [searchPropertyByMLS]. *)
Definition filterOf (mlsNumber : string) : string :=
  "ListingKey eq '" +++ cleanMLS mlsNumber +++ "' or MlsNumber eq '"
  +++ cleanMLS mlsNumber +++ "'".

(** The token fields of the service. *)
Record tokens : Type := mkTokens {
  accessToken : option string;
  tokenExpiry : option Z
}.

(** What the token management takes from its host: the credentials of the
    environment, the outcomes of the token requests in their order ([Ok v]
    with [v] the [access_token] field of the response) and the readings of
    [Date.now()]. *)
Record authHost : Type := mkAuthHost {
  clientId : option string;
  clientSecret : option string;
  post : nat -> result (option string);
  now : nat -> Z
}.

(** Token requests made and clock readings taken so far. *)
Record authWorld : Type := mkAuthWorld { posts : nat; nowReads : nat }.

(** [authenticate]: the fields and the world after it, and [Ok true] or
    the error it re-raises.  The reading of the clock inside the log line
    of line 50 is counted. *)
Definition authenticate (h : authHost) (t : tokens) (w : authWorld)
    : result bool * tokens * authWorld :=
  if negb (truthy (clientId h)) || negb (truthy (clientSecret h)) then
    (Throw (Error "DDF API credentials not configured. Please set DDF_CLIENT_ID and DDF_CLIENT_SECRET environment variables."),
     t, w)
  else
    let response := post h (posts w) in
    let w := mkAuthWorld (S (posts w)) (nowReads w) in
    match response with
    | Throw e => (Throw e, t, w)
    | Ok token =>
        if truthy token then
          (Ok true,
           mkTokens token (Some (now h (nowReads w) + 59 * 60 * 1000)%Z),
           mkAuthWorld (posts w) (S (S (nowReads w))))
        else (Throw (Error "No access token received from DDF API"), t, w)
    end.

(** [ensureValidToken]: the token it returns. *)
Definition ensureValidToken (h : authHost) (t : tokens) (w : authWorld)
    : result (option string) * tokens * authWorld :=
  let missing :=
    negb (truthy (accessToken t))
    || match tokenExpiry t with
       | Some e => (e =? 0)%Z
       | None => true
       end in
  let '(expired, w) :=
    if missing then (true, w)
    else (match tokenExpiry t with
          | Some e => (e <=? now h (nowReads w))%Z
          | None => true
          end,
          mkAuthWorld (posts w) (S (nowReads w))) in
  if expired then
    match authenticate h t w with
    | (Ok _, t', w') => (Ok (accessToken t'), t', w')
    | (Throw e, t', w') => (Throw e, t', w')
    end
  else (Ok (accessToken t), t, w).

End DdfApiService.

(* ================================================================== *)
(** ** The route endpoint (src/src/addressParser.js, lines 378-404) *)
(* ================================================================== *)

Module Server.
Import RouteOptimizer.

(** The body of a request to [/optimize-route], with an office address
    that is a string and properties that are objects of the shape the
    optimizer reads: [None] is a missing field, and for [properties] also
    a value that is not an array. *)
Record body : Type := mkBody {
  officeAddress : option string;
  properties : option (list property)
}.

(** What the handler sends: [{ success: false, message }] or the result of
    the optimizer. *)
Inductive reply : Type :=
| Refused (message : string)
| Route (p : plan).

(** The handler of [/optimize-route]. *)
Definition optimizeRouteHandler (h : host) (b : body) : M reply :=
  match officeAddress b with
  | None => ret (Refused "Office address is required.")
  | Some office =>
      if negb (nonEmpty office) then ret (Refused "Office address is required.")
      else
        match properties b with
        | None => ret (Refused "At least one property is required.")
        | Some [] => ret (Refused "At least one property is required.")
        | Some ps =>
            if 5 <? length ps then ret (Refused "Maximum of 5 properties allowed.")
            else
              tryCatch
                (mbind (optimizeRoute h office ps) (fun p => ret (Route p)))
                (fun _ =>
                   ret (Refused "An error occurred while optimizing the route. Please try again."))
        end
  end.

End Server.

(* ================================================================== *)
(** ** The objects the methods are called on *)
(* ================================================================== *)

(** The instances of [AddressParser] and [DocumentProcessor] live as long
    as the server and are shared by all requests.  Here their fields are
    explicit: every method takes the instance and returns it as the call
    leaves it. *)
Module Instances.
Import Regex.

(** *** The parser *)

(** The fields the constructor of [AddressParser] sets (lines 6-22). *)
Record addressParser : Type := mkAddressParser {
  thisStreetSuffixes : list (string * string);
  thisProvinces : list string
}.

Definition newAddressParser : addressParser :=
  mkAddressParser AddressParser.streetSuffixes
    [ "ontario"; "quebec"; "british columbia"; "alberta"; "manitoba"; "saskatchewan";
      "nova scotia"; "new brunswick"; "newfoundland"; "prince edward island";
      "northwest territories"; "nunavut"; "yukon" ].

(** The [while] loop of [intelligentAddressParsing], reading
    [this.streetSuffixes[part]]. *)
Fixpoint scanStreetOn (this : addressParser) (rest : list string) (i : nat)
    (streetName : list string) (streetType : AddressParser.streetTypeValue)
    : nat * list string * AddressParser.streetTypeValue :=
  match rest with
  | [] => (i, streetName, streetType)
  | part :: rest' =>
      match Js.get (thisStreetSuffixes this) part with
      | Own abbrev => (i + 1, streetName, AddressParser.TypeString abbrev)
      | Inherited key => (i + 1, streetName, AddressParser.TypeInherited key)
      | Undefined =>
          if AddressParser.isLikelyCity part rest then (i, streetName, streetType)
          else scanStreetOn this rest' (i + 1)
                 (streetName ++ [AddressParser.capitalizeWord part]) streetType
      end
  end.

(** [intelligentAddressParsing] on the instance: nothing in it assigns to
    a field of [this], and the arrays and objects it builds are its own. *)
Definition intelligentAddressParsingOn (this : addressParser) (parts : list string)
    : option (string * AddressParser.components) * addressParser :=
  let '(unitNumber, streetNumber, i) :=
    match parts with
    | p0 :: p1 :: _ =>
        if nonEmpty p0 && AddressParser.isNumeric p0
           && nonEmpty p1 && AddressParser.isNumeric p1 then (p0, p1, 2)
        else if nonEmpty p0 && AddressParser.isNumeric p0 then ("", p0, 1)
        else ("", "", 0)
    | [p0] => if nonEmpty p0 && AddressParser.isNumeric p0 then ("", p0, 1) else ("", "", 0)
    | [] => ("", "", 0)
    end in
  let '(i, streetName, streetType) :=
    scanStreetOn this (skipn i parts) i [] (AddressParser.TypeString "") in
  let '(city, i, streetName) := AddressParser.extractCityPart parts i streetName in
  let neighborhood :=
    if i <? length parts
    then join " " (map AddressParser.capitalizeWord (skipn i parts)) else "" in
  let addressComponents :=
    AddressParser.mkComponents unitNumber streetNumber (join " " streetName) streetType
      city neighborhood in
  (match AddressParser.formatAddress addressComponents with
   | Ok formattedAddress => Some (formattedAddress, addressComponents)
   | Throw _ => None
   end, this).

(** [parseAddressFromUrl] on the instance, from the length check on. *)
Definition normalizeOn (this : addressParser) (parts : list string)
    : AddressParser.parseResult * addressParser :=
  if length parts <? 3
  then (AddressParser.Failure "URL slug too short to parse address", this)
  else
    let '(parsed, this) := intelligentAddressParsingOn this parts in
    (match parsed with
     | Some (address, c) => AddressParser.Success address c
     | None => AddressParser.Failure "Could not parse address from URL"
     end, this).

(** *** The processor *)

(** A RegExp object: the expression with its flags, and the [lastIndex]
    property at which a [g]-flagged expression resumes. *)
Record regExpObject : Type := mkRegExpObject {
  compiled : DocumentProcessor.regExp;
  lastIndex : nat
}.

(** A RegExp literal, as evaluated: [lastIndex] is 0. *)
Definition literal (p : DocumentProcessor.regExp) : regExpObject := mkRegExpObject p 0.

(** The fields the constructor of [DocumentProcessor] sets that
    [parsePropertyInfo] reads (lines 12-31). *)
Record documentProcessor : Type := mkDocumentProcessor {
  thisMlsPatterns : list regExpObject;
  thisAddressPatterns : list regExpObject
}.

Definition newDocumentProcessor : documentProcessor :=
  mkDocumentProcessor (map literal DocumentProcessor.mlsPatterns)
    (map literal DocumentProcessor.addressPatterns).

(** [[...text.matchAll(re)]].  [matchAll] iterates over a copy of [re]
    that it starts at [re.lastIndex] and whose own [lastIndex] it
    advances; [re] is read and not written. *)
Definition matchAllOf (re : regExpObject) (text : string)
    : list matched * regExpObject :=
  (scan (DocumentProcessor.ignoreCase (compiled re)) (DocumentProcessor.expr (compiled re))
     (lastIndex re) None text,
   re).

(** A [for ... of] loop over the patterns of a field, with the callback of
    its [forEach]: the state reached and the error that stopped it, and
    the patterns as the loop leaves them. *)
Fixpoint forPatterns {S : Type}
    (body : DocumentProcessor.regExp -> S -> matched -> DocumentProcessor.completion S)
    (text : string) (patterns : list regExpObject) (s : S)
    : DocumentProcessor.completion S * list regExpObject :=
  match patterns with
  | [] => ((s, None), [])
  | re :: rest =>
      let '(matches, re') := matchAllOf re text in
      match DocumentProcessor.forEach (body (compiled re')) matches s with
      | (s', None) =>
          let '(c, rest') := forPatterns body text rest s' in (c, re' :: rest')
      | (s', Some e) => ((s', Some e), re' :: rest)
      end
  end.

(** [parsePropertyInfo] on the instance.  The expressions of
    [extractPropertyDetails] are literals of its own body, evaluated anew
    in every call. *)
Definition parsePropertyInfoOn (this : documentProcessor) (text : string)
    : DocumentProcessor.results * documentProcessor :=
  let '((numbers, raised), mls) :=
    forPatterns (fun _ => DocumentProcessor.addMls) text (thisMlsPatterns this) [] in
  match raised with
  | Some _ =>
      (DocumentProcessor.mkResults numbers [] DocumentProcessor.noDetails,
       mkDocumentProcessor mls (thisAddressPatterns this))
  | None =>
      let '((found, raised), addresses) :=
        forPatterns
          (fun p => DocumentProcessor.addAddress (S (groupCount (DocumentProcessor.expr p))))
          text (thisAddressPatterns this) [] in
      (DocumentProcessor.mkResults numbers found
         match raised with
         | Some _ => DocumentProcessor.noDetails
         | None => DocumentProcessor.extractPropertyDetails text
         end,
       mkDocumentProcessor mls addresses)
  end.

End Instances.

(* ================================================================== *)
(** ** A concrete host *)
(* ================================================================== *)

Module Demo.
Import RouteOptimizer.

(** Comparison by code units. *)
Definition compareCodeUnits (a b : string) : Z :=
  match String.compare a b with
  | Lt => (-1)%Z
  | Eq => 0%Z
  | Gt => 1%Z
  end.

(** A host whose HTTP client always raises, whose clock advances one
    second per reading and whose random source cycles through tenths. *)
Definition offline : host :=
  mkHost compareCodeUnits intToString
    (fun n => (1000 * Z.of_nat n)%Z)
    (fun n => Qmake (Z.of_nat (n mod 10)) 10)
    (fun _ => Throw (Error "Network Error"))
    None ""
    (fun _ => "0.0").

(** The same host with a constant random source. *)
Definition offlineSteady : host :=
  mkHost compareCodeUnits intToString
    (fun n => (1000 * Z.of_nat n)%Z)
    (fun n => Qmake 19 20)
    (fun _ => Throw (Error "Network Error"))
    None ""
    (fun _ => "0.0").

(** A host whose provider answers [OK] with one leg per stop and one back. *)
Definition online (n : nat) : host :=
  mkHost compareCodeUnits intToString
    (fun n => (1000 * Z.of_nat n)%Z)
    (fun n => Qmake (Z.of_nat (n mod 10)) 10)
    (fun _ => Ok (mkData "OK" None
                    [mkRoute (Some (repeat (mkLeg "10 mins" 600 "5.0 km" "a" "b") (S n)))]))
    (Some "key") ""
    (fun _ => "0.0").

Definition office : string := "10 Centre St, Richmond Hill, Ontario".

Definition threeStops : list property :=
  [ mkProperty "1 Yonge St, Toronto, Ontario" 30 (Some "C1234567");
    mkProperty "5 Main St, Richmond Hill, Ontario" 20 None;
    mkProperty "9 Keele St, Vaughan, Ontario" 15 (Some "N7654321") ].

End Demo.

(* ================================================================== *)
(** ** Vocabulary of the statements *)
(* ================================================================== *)

Definition isFailure (r : AddressParser.parseResult) : bool :=
  match r with AddressParser.Failure _ => true | AddressParser.Success _ _ => false end.

(** The street scan formed no street-name token. *)
Definition noStreetNameFormed (parts : list string) : Prop :=
  AddressParser.streetName (AddressParser.parseComponents parts) = "".

(** [needle] occurs in [hay]. *)
Definition within (needle hay : string) : Prop :=
  exists pre post, hay = pre +++ needle +++ post.

(** [a] occurs in [b] when case is ignored. *)
Definition withinIgnoringCase (a b : string) : Prop :=
  within (toLowerCase a) (toLowerCase b).

(** The elements of a list in the order of their first occurrence. *)
Fixpoint firstOccurrences (l : list string) : list string :=
  match l with
  | [] => []
  | x :: l' => x :: filter (fun y => negb (String.eqb y x)) (firstOccurrences l')
  end.

(** Every identifier the MLS patterns capture in a text, upper-cased and
    trimmed: pattern by pattern, occurrence by occurrence. *)
Definition mlsCandidates (text : string) : list string :=
  flat_map
    (fun p =>
       map (fun m => trim (toUpperCase
                            (DocumentProcessor.interpolate
                               (Regex.group 1 (Regex.groups m)))))
           (Regex.matchAll (DocumentProcessor.ignoreCase p) (DocumentProcessor.expr p) text))
    DocumentProcessor.mlsPatterns.

(** The capture groups every match of an expression sets. *)
Fixpoint mandatory (r : Regex.regex) : list nat :=
  match r with
  | Regex.Seq r1 r2 => mandatory r1 ++ mandatory r2
  | Regex.Grp n r1 => n :: mandatory r1
  | _ => []
  end.

(** The city of a stop, and the test that it is a given one. *)
Definition cityOf (p : RouteOptimizer.property) : string :=
  RouteOptimizer.extractCity (RouteOptimizer.address p).

Definition cityIs (c : string) (p : RouteOptimizer.property) : bool :=
  String.eqb (cityOf p) c.

(** The priority of a city: its entry in the table, 999 without one. *)
Definition rank (c : string) : Z :=
  match assoc RouteOptimizer.priorityMap c with
  | Some n => n
  | None => 999%Z
  end.

(** A stop whose city names a property of [Object.prototype]. *)
Definition inheritedCity (p : RouteOptimizer.property) : Prop :=
  In (cityOf p) objectPrototypeKeys.

(** The stops grouped under a city. *)
Definition bucket (grouped : list (string * list RouteOptimizer.property)) (c : string)
    : list RouteOptimizer.property :=
  match assoc grouped c with
  | Some b => b
  | None => []
  end.

(** The grouping object holds, under each city of the stops [done], those
    stops in their order, under distinct names none of which is inherited. *)
Definition grouping (grouped : list (string * list RouteOptimizer.property))
    (done : list RouteOptimizer.property) : Prop :=
  (forall c, assoc grouped c = match filter (cityIs c) done with
                               | [] => None
                               | b => Some b
                               end)
  /\ NoDup (map fst grouped)
  /\ (forall c, In c (map fst grouped) -> mem c objectPrototypeKeys = false).

(** What a step says of the visit, apart from times. *)
Definition skeleton (s : RouteOptimizer.step)
    : string * string * option Z * option string :=
  (RouteOptimizer.stepType s, RouteOptimizer.stepAddress s,
   RouteOptimizer.stepVisitDuration s, RouteOptimizer.stepMlsNumber s).

(** The skeletons of the visits of the stops [ps], numbered from [i + 1]. *)
Fixpoint visitSkeletons (i : nat) (ps : list RouteOptimizer.property)
    : list (string * string * option Z * option string) :=
  match ps with
  | [] => []
  | p :: rest =>
      ("Visit Property " +++ natToString (i + 1), RouteOptimizer.address p,
       Some (RouteOptimizer.visitDuration p), RouteOptimizer.mlsNumber p)
      :: visitSkeletons (i + 1) rest
  end.

(** The skeletons of an itinerary from the office through [ordered] and
    back. *)
Definition itinerary (office : string) (ordered : list RouteOptimizer.property)
    : list (string * string * option Z * option string) :=
  ("Start", office, None, None)
  :: visitSkeletons 0 ordered ++ [("Return to Office", office, None, None)].

(** The [duration] label of a simulated leg of [d] minutes. *)
Definition drivingLabel (d : Z) : string := intToString d +++ " minutes driving".

(** The step [s] is a leg of a whole number of minutes between 10 and 30. *)
Definition simulatedLeg (s : RouteOptimizer.step) : Prop :=
  exists d : Z, (10 <= d <= 30)%Z /\ RouteOptimizer.duration s = drivingLabel d.

(** The world after a failed attempt at provider mode: the clock read at
    most once more, the random source untouched. *)
Definition afterProvider (w w' : RouteOptimizer.world) : Prop :=
  RouteOptimizer.randomDraws w' = RouteOptimizer.randomDraws w
  /\ RouteOptimizer.clockReads w <= RouteOptimizer.clockReads w'
     <= S (RouteOptimizer.clockReads w).

(** The step [s] is the leg of the [k]-th value of the random source. *)
Definition drawn (h : RouteOptimizer.host) (s : RouteOptimizer.step) (k : nat) : Prop :=
  RouteOptimizer.duration s
  = drivingLabel (RouteOptimizer.drivingMinutesOf (RouteOptimizer.random h k)).

(** Two stops in the order of the priorities of their cities. *)
Definition byRank (p q : RouteOptimizer.property) : Prop :=
  (rank (cityOf p) <= rank (cityOf q))%Z.

(** The comparator places [x] and [y] as the relation [R] does. *)
Definition orders {A : Type} (compare : A -> A -> Z) (R : A -> A -> Prop) (x y : A) : Prop :=
  ((compare x y <= 0)%Z -> R x y) /\ ((0 < compare x y)%Z -> R y x).

(** Group [n] took part in a match with captures [caps]. *)
Definition captured (n : nat) (caps : list (nat * string)) : Prop :=
  Regex.group n caps <> None.

(** The state update of the MLS loop on a normalised capture. *)
Definition remember (numbers : list string) (mlsNumber : string) : list string :=
  if nonEmpty mlsNumber && negb (mem mlsNumber numbers)
  then numbers ++ [mlsNumber] else numbers.


Definition sampleDetailsText : string :=
  "... Listed at $450,000 ... 3 bedrooms ... 2.5 bathrooms ... 1,200 sq ft ... detached ...".

(** The strings an expression matches, whatever stands around them. *)
Fixpoint lang (ci : bool) (r : Regex.regex) (w : string) : Prop :=
  match r with
  | Regex.Chr c => exists a, w = String a EmptyString /\ Regex.chrMatch ci c a = true
  | Regex.Cls p => exists a, w = String a EmptyString /\ Regex.clsMatch ci p a = true
  | Regex.Seq r1 r2 => exists w1 w2, w = w1 +++ w2 /\ lang ci r1 w1 /\ lang ci r2 w2
  | Regex.Alt r1 r2 => lang ci r1 w \/ lang ci r2 w
  | Regex.Opt r1 => w = EmptyString \/ lang ci r1 w
  | Regex.Rep p lo hi =>
      allChars (Regex.clsMatch ci p) w = true
      /\ lo <= String.length w
      /\ match hi with Some n => String.length w <= n | None => True end
  | Regex.Grp _ r1 => lang ci r1 w
  | Regex.WordB | Regex.Eps => w = EmptyString
  end.

(** Every group of the expression captures only strings that satisfy [P]. *)
Fixpoint groupsSatisfy (ci : bool) (P : nat -> string -> Prop) (r : Regex.regex) : Prop :=
  match r with
  | Regex.Seq r1 r2 | Regex.Alt r1 r2 => groupsSatisfy ci P r1 /\ groupsSatisfy ci P r2
  | Regex.Opt r1 => groupsSatisfy ci P r1
  | Regex.Grp n r1 => (forall w, lang ci r1 w -> P n w) /\ groupsSatisfy ci P r1
  | _ => True
  end.

(** The captures [caps] satisfy [P]. *)
Definition capturesSatisfy (P : nat -> string -> Prop) (caps : list (nat * string)) : Prop :=
  Forall (fun nc => P (fst nc) (snd nc)) caps.

(** The character before the cursor once [w] has been read. *)
Fixpoint lastChar (pv : option ascii) (w : string) : option ascii :=
  match w with
  | EmptyString => pv
  | String a w' => lastChar (Some a) w'
  end.

(** The two shapes of a valid MLS number. *)
Definition shortForm (s : string) : Prop :=
  exists a ds,
    s = String a ds /\ isUpper a = true /\ allChars isDigit ds = true
    /\ 7 <= String.length ds <= 8.

Definition dashForm (s : string) : Prop :=
  exists a ds tail,
    s = String a (ds +++ "-" +++ tail) /\ isUpper a = true
    /\ allChars isDigit ds = true /\ 6 <= String.length ds <= 7
    /\ (tail = EmptyString \/ exists b, tail = String b EmptyString /\ isUpper b = true).

(** No two of the addresses contain one another, case ignored. *)
Fixpoint apart (addresses : list string) : Prop :=
  match addresses with
  | [] => True
  | a :: rest =>
      Forall (fun b => ~ withinIgnoringCase a b /\ ~ withinIgnoringCase b a) rest
      /\ apart rest
  end.

(** The vocabulary of property types. *)
Definition propertyTypes : list string :=
  [ "detached"; "semi-detached"; "townhouse"; "condo"; "condominium";
    "apartment"; "duplex"; "triplex"; "bungalow"; "ranch"; "colonial" ].

(** A non-empty string of digits, and a decimal number. *)
Definition digits (s : string) : Prop :=
  s <> EmptyString /\ allChars isDigit s = true.

Definition decimal (s : string) : Prop :=
  digits s \/ exists i f, s = i +++ "." +++ f /\ digits i /\ digits f.

(** The shapes of the details [extractPropertyDetails] can return. *)
Definition wellFormedDetails (d : DocumentProcessor.propertyDetails) : Prop :=
  (forall ps, DocumentProcessor.prices d = Some ps ->
              ps <> []
              /\ Forall (fun p => exists ds, p = String "$" ds /\ allChars isDigit ds = true) ps)
  /\ (forall n, DocumentProcessor.bedrooms d = Some n -> digits n)
  /\ (forall n, DocumentProcessor.bathrooms d = Some n -> decimal n)
  /\ (forall n, DocumentProcessor.squareFootage d = Some n -> digits n)
  /\ (forall t, DocumentProcessor.propertyType d = Some t -> In t propertyTypes).

(** A capture is a valid MLS number once upper-cased and trimmed. *)
Definition validCapture (n : nat) (w : string) : Prop :=
  DocumentProcessor.isValidMLS (trim (toUpperCase w)) = true.

(** The continuation [k'] succeeds wherever [k] does. *)
Definition extends (k k' : Regex.state -> option Regex.state) : Prop :=
  forall st x, k st = Some x -> exists y, k' st = Some y.

(** The province names and codes the full address expression knows. *)
Definition provinces : list string :=
  [ "ON"; "Ontario"; "BC"; "British Columbia"; "AB"; "Alberta"; "QC"; "Quebec";
    "MB"; "Manitoba"; "SK"; "Saskatchewan"; "NS"; "Nova Scotia"; "NB";
    "New Brunswick"; "NL"; "Newfoundland"; "PE"; "Prince Edward Island" ].

(** The address ends, after a comma, in a province in some letter case,
    or in the word undefined. *)
Definition endsInProvince (a : string) : Prop :=
  exists pre prov,
    a = pre +++ ", " +++ prov
    /\ (prov = "undefined" \/ In (toLowerCase prov) (map toLowerCase provinces)).

(** A city token outside the special cases of the city extraction. *)
Definition ordinaryCityToken (t : string) : Prop :=
  ~ In (toLowerCase t) ["richmond"; "north"; "east"; "e"; "n"].

(** Text of ASCII characters, as the slug of a URL is. *)
Definition asciiText (s : string) : Prop :=
  allChars (fun c => code c <? 128) s = true.

(** A string without a comma, and a token of ASCII characters without
    comma or white space, as the slug of a URL has them. *)
Definition noComma (s : string) : Prop :=
  allChars (fun c => negb (Ascii.eqb c ",")) s = true.

Definition plainToken (s : string) : Prop :=
  allChars (fun c => (code c <? 128) && negb (isSpace c) && negb (Ascii.eqb c ",")) s
  = true.

(** A string without the character [sep]. *)
Definition without (sep : ascii) (s : string) : Prop :=
  allChars (fun c => negb (Ascii.eqb c sep)) s = true.

(** A token as the slug of a listing has them: not empty, of ASCII
    characters, in lower case, without dash or slash. *)
Definition slugToken (t : string) : Prop :=
  t <> "" /\ asciiText t /\ toLowerCase t = t /\ without "-" t /\ without "/" t.

(** The URL of a listing page. *)
Definition listingUrl (scheme host id slug : string) : string :=
  scheme +++ "//" +++ host +++ "/real-estate/" +++ id +++ "/" +++ slug.

(** The minutes of visits of the stops, and the minutes of driving drawn
    from the [n] values of the random source from the [k]-th on. *)
Definition visitingMinutes (ps : list RouteOptimizer.property) : Z :=
  fold_right (fun p acc => (RouteOptimizer.visitDuration p + acc)%Z) 0%Z ps.

Definition drawnMinutes (h : RouteOptimizer.host) (k n : nat) : Z :=
  fold_right
    (fun j acc => (RouteOptimizer.drivingMinutesOf (RouteOptimizer.random h j) + acc)%Z)
    0%Z (List.seq k n).

(** The [$filter] of a request for the listing [n]. *)
Definition filterFor (n : string) : string :=
  "ListingKey eq '" +++ n +++ "' or MlsNumber eq '" +++ n +++ "'".

(** The life of a token in milliseconds: 59 minutes. *)
Definition tokenLife : Z := 3540000.

(** A token service that answers every request, with a clock that
    advances one second per reading. *)
Definition tokenService : DdfApiService.authHost :=
  DdfApiService.mkAuthHost (Some "id") (Some "secret")
    (fun _ => Ok (Some "token")) (fun n => (1000 * Z.of_nat n)%Z).

(** The messages with which the route endpoint refuses a request. *)
Definition refusals : list string :=
  [ "Office address is required.";
    "At least one property is required.";
    "Maximum of 5 properties allowed.";
    "An error occurred while optimizing the route. Please try again." ].

(** The street of a stop, as the ordering reads it. *)
Definition streetOf (p : RouteOptimizer.property) : string :=
  RouteOptimizer.extractStreetName (RouteOptimizer.address p).

(** Two stops of one city stand in the order of their streets. *)
Definition byStreet (h : RouteOptimizer.host) (p q : RouteOptimizer.property) : Prop :=
  cityOf p = cityOf q ->
  (RouteOptimizer.localeCompare h (streetOf p) (streetOf q) <= 0)%Z.

(** The text before the first comma of a string, and the text after it
    ([None] when the string holds no comma). *)
Fixpoint beforeComma (s : string) : string :=
  match s with
  | EmptyString => EmptyString
  | String c s' => if Ascii.eqb c "," then EmptyString else String c (beforeComma s')
  end.

Fixpoint afterComma (s : string) : option string :=
  match s with
  | EmptyString => None
  | String c s' => if Ascii.eqb c "," then Some s' else afterComma s'
  end.

(** The second comma-delimited segment of an address, without the white
    space around it; [None] for an address without a comma. *)
Definition secondSegment (address : string) : option string :=
  match afterComma address with
  | Some r => Some (trim (beforeComma r))
  | None => None
  end.

(** The stop lies in the city [c]: [c] is the second comma-delimited
    segment of its address. *)
Definition inCity (c : string) (p : RouteOptimizer.property) : Prop :=
  secondSegment (RouteOptimizer.address p) = Some c.

(** The six orders of three stops. *)
Definition ordersOf (stops : list RouteOptimizer.property)
    : list (list RouteOptimizer.property) :=
  match stops with
  | [t; r; v] => [[t; r; v]; [t; v; r]; [r; t; v]; [r; v; t]; [v; t; r]; [v; r; t]]
  | _ => []
  end.


(** The last instant a [Date] holds, in milliseconds; integers up to it
    are numbers of the code without rounding. *)
Definition latestDate : Z := 8640000000000000.

(** The schedule of the stops stays within the integers the code's
    numbers hold exactly: no visit duration is negative, and from the
    clock readings a plan can start at, the latest possible return is an
    instant of [Date]. *)
Definition exactSchedule (h : RouteOptimizer.host) (ps : list RouteOptimizer.property)
    (w : RouteOptimizer.world) : Prop :=
  (forall p, In p ps -> (0 <= RouteOptimizer.visitDuration p)%Z)
  /\ forall n,
       RouteOptimizer.clockReads w <= n <= S (RouteOptimizer.clockReads w) ->
       (0 <= RouteOptimizer.clock h n)%Z
       /\ (RouteOptimizer.clock h n
           + 60000 * (29 * (Z.of_nat (length ps) + 1) + visitingMinutes ps)
           <= latestDate)%Z.

(** The parser and the processor of the server after earlier calls. *)
Definition parserAfter (earlier : list (list string)) : Instances.addressParser :=
  fold_left (fun this parts => snd (Instances.normalizeOn this parts)) earlier
    Instances.newAddressParser.

Definition processorAfter (earlier : list string) : Instances.documentProcessor :=
  fold_left (fun this text => snd (Instances.parsePropertyInfoOn this text)) earlier
    Instances.newDocumentProcessor.

(** A processor whose MLS patterns had been left at [lastIndex] 1. *)
Definition staleProcessor : Instances.documentProcessor :=
  Instances.mkDocumentProcessor
    (map (fun p => Instances.mkRegExpObject p 1) DocumentProcessor.mlsPatterns)
    (map Instances.literal DocumentProcessor.addressPatterns).



(* ================================================================== *)
(** ** Properties of the address parser *)
(* ================================================================== *)

Section JsFacts.

Lemma mem_In (x : string) (l : list string) : mem x l = true <-> In x l.
Proof.
  unfold mem. rewrite existsb_exists. split.
  - intros (y & Hy & E). apply String.eqb_eq in E. now subst.
  - intros H. exists x. split; [assumption|apply String.eqb_refl].
Qed.

End JsFacts.

Section AddressParserFacts.
Import AddressParser.

Lemma get_inherited_key {A} (own : list (string * A)) (key k : string) :
  Js.get own key = Inherited k -> k = key /\ In key objectPrototypeKeys.
Proof.
  unfold Js.get. destruct (assoc own key); [discriminate|].
  destruct (mem key objectPrototypeKeys) eqn:E; [|discriminate].
  intros H; injection H as <-. split; [reflexivity|now apply mem_In].
Qed.

Lemma assoc_In_snd {A} (own : list (string * A)) (key : string) (v : A) :
  assoc own key = Some v -> In v (map snd own).
Proof.
  induction own as [|[k x] l IHl]; [discriminate|].
  simpl. destruct (String.eqb k key).
  - intros H; injection H as ->. now left.
  - intros H. right. now apply IHl.
Qed.

(** The street type the scan leaves is the one it started with, an
    abbreviation of the suffix table, or the inherited value of a token
    that names a property of [Object.prototype]. *)
Lemma scanStreet_streetType (rest : list string) :
  forall i name ty i' name' ty',
    scanStreet rest i name ty = (i', name', ty') ->
    ty' = ty
    \/ (exists abbrev, ty' = TypeString abbrev /\ In abbrev (map snd streetSuffixes))
    \/ (exists key, ty' = TypeInherited key /\ In key rest /\ In key objectPrototypeKeys).
Proof.
  induction rest as [|part rest IH]; intros i name ty i' name' ty' H; simpl in H.
  - injection H as _ _ <-. now left.
  - destruct (Js.get streetSuffixes part) as [abbrev|key|] eqn:G.
    + injection H as _ _ <-. right; left. exists abbrev. split; [reflexivity|].
      unfold Js.get in G. destruct (assoc streetSuffixes part) as [v|] eqn:Ea.
      * injection G as ->. eapply assoc_In_snd; eauto.
      * destruct (mem part objectPrototypeKeys); discriminate.
    + injection H as _ _ <-. right; right. exists key.
      apply get_inherited_key in G as [-> Hin]. repeat split; simpl; auto.
    + destruct (isLikelyCity part (part :: rest)).
      * injection H as _ _ <-. now left.
      * apply IH in H as [H | [H | (key & H1 & H2 & H3)]]; auto.
        right; right. exists key. repeat split; simpl; auto.
  Qed.

Lemma skipn_In {A} (n : nat) (l : list A) (x : A) : In x (skipn n l) -> In x l.
Proof.
  revert l; induction n as [|n IH]; intros [|y l]; simpl; auto.
Qed.

(** The street type of the parsed components is a string unless a token
    of the input names a property of [Object.prototype]. *)
Lemma parseComponents_streetType (parts : list string) :
  (exists s, streetType (parseComponents parts) = TypeString s)
  \/ (exists key, streetType (parseComponents parts) = TypeInherited key
                  /\ In key parts /\ In key objectPrototypeKeys).
Proof.
  unfold parseComponents.
  destruct (match parts with
            | [] => ("", "", 0)
            | [p0] => if nonEmpty p0 && isNumeric p0 then ("", p0, 1) else ("", "", 0)
            | p0 :: p1 :: _ =>
                if nonEmpty p0 && isNumeric p0 && nonEmpty p1 && isNumeric p1
                then (p0, p1, 2)
                else if nonEmpty p0 && isNumeric p0 then ("", p0, 1) else ("", "", 0)
            end) as [[u n] i].
  destruct (scanStreet (skipn i parts) i [] (TypeString "")) as [[i' name'] ty'] eqn:S.
  destruct (extractCityPart parts i' name') as [[c i''] name''].
  simpl.
  apply scanStreet_streetType in S as [-> | [(a & -> & _) | (key & -> & Hin & Hk)]].
  - left; eauto.
  - left; eauto.
  - right. exists key. repeat split; auto. eapply skipn_In; eauto.
Qed.

Lemma formatAddress_ok (c : components) (s : string) :
  streetType c = TypeString s -> exists address, formatAddress c = Ok address.
Proof.
  intros H. unfold formatAddress. rewrite H. simpl. eauto.
Qed.

Lemma formatAddress_throw (c : components) (key : string) :
  streetType c = TypeInherited key -> exists e, formatAddress c = Throw e.
Proof.
  intros H. unfold formatAddress. rewrite H. simpl. eauto.
Qed.

(** C4.  On the tokens 908, 15, bay, street, toronto the parser succeeds,
    but not with the components of the design: the token bay is taken for
    the city because no more than three tokens remain when the street scan
    reaches it, so the street name and the street type stay empty and the
    formatted address is 908 - 15 , Bay, Ontario. *)
Theorem normalize_unit_bay_street :
  isLikelyCity "bay" ["bay"; "street"; "toronto"] = true
  /\ normalize ["908"; "15"; "bay"; "street"; "toronto"]
     = Success "908 - 15 , Bay, Ontario"
         (mkComponents "908" "15" "" (TypeString "") "Bay" "Street Toronto").
Proof. split; vm_compute; reflexivity. Qed.

(** C5, as stated, fails: on the tokens 1, 2, 3 no street name is formed
    and the token stream is exhausted, yet the parser reports success. *)
Lemma normalize_accepts_missing_street_name :
  ~ (isFailure (normalize ["1"; "2"; "3"]) = true
     <-> (length ["1"; "2"; "3"] < 3 \/ noStreetNameFormed ["1"; "2"; "3"])).
Proof.
  intros [_ H].
  assert (F : isFailure (normalize ["1"; "2"; "3"]) = true).
  { apply H. right. vm_compute. reflexivity. }
  vm_compute in F. discriminate.
Qed.

(** The outcome of [normalize], case by case. *)
Lemma normalize_shape (parts : list string) :
  match normalize parts with
  | Success address c =>
      3 <= length parts /\ c = parseComponents parts /\ formatAddress c = Ok address
      /\ exists s, streetType c = TypeString s
  | Failure _ =>
      length parts < 3
      \/ exists key, streetType (parseComponents parts) = TypeInherited key
                     /\ In key parts /\ In key objectPrototypeKeys
  end.
Proof.
  unfold normalize, intelligentAddressParsing.
  destruct (length parts <? 3) eqn:L.
  - left. now apply Nat.ltb_lt.
  - apply Nat.ltb_ge in L.
    destruct (parseComponents_streetType parts) as [(s & Hs) | (key & Hk & Hin & Hp)].
    + destruct (formatAddress_ok _ _ Hs) as (address & E). rewrite E.
      repeat split; eauto.
    + destruct (formatAddress_throw _ _ Hk) as (e & E). rewrite E.
      right. eauto.
Qed.

(** C5, amended.  On tokens none of which names a property inherited
    from [Object.prototype], [normalize] reports a failure exactly when
    fewer than three tokens are supplied; on three tokens or more it
    succeeds with the components parsed and the address formatted from
    them, whether or not a street name was formed. *)
Theorem normalize_failure_exactly (parts : list string) :
  (forall t, In t parts -> ~ In t objectPrototypeKeys) ->
  (isFailure (normalize parts) = true <-> length parts < 3)
  /\ (3 <= length parts ->
      exists address,
        normalize parts = Success address (parseComponents parts)
        /\ formatAddress (parseComponents parts) = Ok address).
Proof.
  intros Plain.
  pose proof (normalize_shape parts) as N.
  destruct (normalize parts) as [address c|message] eqn:E.
  - destruct N as (L & -> & F & _). split.
    + split; [discriminate|lia].
    + intros _. exists address. now split.
  - assert (Short : length parts < 3).
    { destruct N as [L|(key & _ & Hin & Hkey)]; [assumption|].
      exfalso. exact (Plain key Hin Hkey). }
    split; [split; [trivial|reflexivity]|lia].
Qed.

(** The tokens 1, 2, 3: no street name is formed and the parser
    succeeds. *)
Lemma normalize_failure_exactly_witness :
  (isFailure (normalize ["1"; "2"; "3"]) = true <-> length ["1"; "2"; "3"] < 3)
  /\ (3 <= length ["1"; "2"; "3"] ->
      exists address,
        normalize ["1"; "2"; "3"] = Success address (parseComponents ["1"; "2"; "3"])
        /\ formatAddress (parseComponents ["1"; "2"; "3"]) = Ok address).
Proof.
  apply (normalize_failure_exactly ["1"; "2"; "3"]).
  intros t Hin Hkey. simpl in Hin, Hkey.
  repeat match goal with
         | H : _ \/ _ |- _ => destruct H as [H|H]
         end;
    try contradiction; subst; repeat match goal with
         | H : _ \/ _ |- _ => destruct H as [H|H]
         end; try discriminate; try contradiction.
Defined.

End AddressParserFacts.

(* ================================================================== *)
(** ** Properties of the regular-expression matcher *)
(* ================================================================== *)

Section RegexFacts.
Import Regex.

Lemma captured_cons (n m : nat) (s : string) (caps : list (nat * string)) :
  captured n caps -> captured n ((m, s) :: caps).
Proof.
  unfold captured; simpl. destruct (m =? n); auto. discriminate.
Qed.

Lemma captured_here (n : nat) (s : string) (caps : list (nat * string)) :
  captured n ((n, s) :: caps).
Proof.
  unfold captured; simpl. rewrite Nat.eqb_refl. discriminate.
Qed.

(** A successful repetition ends in a call of its continuation, with the
    captures untouched. *)
Lemma repeat_continues (ci : bool) (p : ascii -> bool) (k : state -> option state)
    (cs : list (nat * string)) (s : string) :
  forall lo hi pv st',
    repeat ci p k cs lo hi pv s = Some st' ->
    exists st1, k st1 = Some st' /\ caps st1 = cs.
Proof.
  induction s as [|a s IH]; intros lo hi pv st' H; simpl in H.
  - destruct (lo =? 0); [|discriminate]. eexists; split; [exact H|reflexivity].
  - assert (Stop : (if lo =? 0 then k (mkState pv (String a s) cs) else None) = Some st' ->
                   exists st1, k st1 = Some st' /\ caps st1 = cs).
    { destruct (lo =? 0); [|discriminate]. intros E.
      eexists; split; [exact E|reflexivity]. }
    destruct (negb (exhausted hi) && clsMatch ci p a); [|now apply Stop].
    destruct (repeat ci p k cs (pred lo) (decr hi) (Some a) s) as [st|] eqn:E.
    + injection H as <-. eapply IH; eauto.
    + now apply Stop.
Qed.

(** A successful run ends in a call of its continuation on a state that
    keeps the captures made before and holds those of every mandatory
    group of the expression. *)
Lemma run_continues (ci : bool) (r : regex) :
  forall k st st',
    run ci r k st = Some st' ->
    exists st1, k st1 = Some st'
                /\ (forall n, captured n (caps st) -> captured n (caps st1))
                /\ (forall n, In n (mandatory r) -> captured n (caps st1)).
Proof.
  induction r as [c|p|r1 IH1 r2 IH2|r1 IH1 r2 IH2|r1 IH1|p lo hi|n r1 IH1| |];
    intros k st st' H; simpl in H.
  - destruct (rest st) as [|a s']; [discriminate|].
    destruct (chrMatch ci c a); [|discriminate].
    eexists; split; [exact H|]. simpl. split; [auto|intros ? []].
  - destruct (rest st) as [|a s']; [discriminate|].
    destruct (clsMatch ci p a); [|discriminate].
    eexists; split; [exact H|]. simpl. split; [auto|intros ? []].
  - apply IH1 in H as (st1 & H1 & K1 & M1).
    apply IH2 in H1 as (st2 & H2 & K2 & M2).
    exists st2. split; [exact H2|]. split; [auto|].
    intros n Hn. simpl in Hn. apply in_app_or in Hn as [Hn|Hn]; auto.
  - destruct (run ci r1 k st) as [x|] eqn:E.
    + injection H as <-. apply IH1 in E as (st1 & H1 & K1 & _).
      exists st1. split; [exact H1|]. split; [auto|intros ? []].
    + apply IH2 in H as (st1 & H1 & K1 & _).
      exists st1. split; [exact H1|]. split; [auto|intros ? []].
  - destruct (run ci r1 k st) as [x|] eqn:E.
    + injection H as <-. apply IH1 in E as (st1 & H1 & K1 & _).
      exists st1. split; [exact H1|]. split; [auto|intros ? []].
    + exists st. split; [exact H|]. split; [auto|intros ? []].
  - apply repeat_continues in H as (st1 & H1 & C1).
    exists st1. split; [exact H1|]. rewrite C1. split; [auto|intros ? []].
  - apply IH1 in H as (st1 & H1 & K1 & M1).
    eexists; split; [exact H1|]. simpl. split.
    + intros m Hm. apply captured_cons. auto.
    + intros m [<-|Hm]; [apply captured_here|apply captured_cons; auto].
  - destruct (xorb (wordBefore st) (wordAfter st)); [|discriminate].
    exists st. split; [exact H|]. split; [auto|intros ? []].
  - exists st. split; [exact H|]. split; [auto|intros ? []].
Qed.

Lemma matchAt_mandatory (ci : bool) (r : regex) (pv : option ascii) (s : string)
    (m : matched) (n : nat) :
  matchAt ci r pv s = Some m -> In n (mandatory r) -> captured n (groups m).
Proof.
  unfold matchAt. intros H Hn.
  destruct (run ci r Some (mkState pv s [])) as [st|] eqn:E; [|discriminate].
  injection H as <-. simpl.
  apply run_continues in E as (st1 & H1 & _ & M). injection H1 as ->. auto.
Qed.

(** Every match a scan reports holds the mandatory groups. *)
Lemma scan_mandatory (ci : bool) (r : regex) (n : nat) (s : string) :
  In n (mandatory r) ->
  forall skip pv, Forall (fun m => captured n (groups m)) (scan ci r skip pv s).
Proof.
  intros Hn. induction s as [|a s IH]; intros skip pv; simpl.
  - destruct skip; [|constructor].
    destruct (matchAt ci r pv "") eqn:E; constructor; [|constructor].
    eapply matchAt_mandatory; eauto.
  - destruct skip; [|apply IH].
    destruct (matchAt ci r pv (String a s)) eqn:E; [|apply IH].
    constructor; [eapply matchAt_mandatory; eauto|apply IH].
Qed.

End RegexFacts.

(* ================================================================== *)
(** ** Properties of the document processor *)
(* ================================================================== *)

Section DocumentProcessorFacts.
Import Regex DocumentProcessor.

(** *** Membership and first occurrences *)

Lemma mem_app (x : string) (l1 l2 : list string) :
  mem x (l1 ++ l2) = mem x l1 || mem x l2.
Proof. unfold mem. apply existsb_app. Qed.

Lemma filter_filter_comm {A} (f g : A -> bool) (l : list A) :
  filter f (filter g l) = filter g (filter f l).
Proof.
  induction l as [|x l IH]; simpl; [reflexivity|].
  destruct (f x) eqn:F, (g x) eqn:G; simpl; rewrite ?F, ?G, IH; reflexivity.
Qed.

Lemma filter_differs_absorbed (f : string -> bool) (y : string) (l : list string) :
  f y = false ->
  filter f (filter (fun z => negb (String.eqb z y)) l) = filter f l.
Proof.
  intros Fy. induction l as [|x l IH]; simpl; [reflexivity|].
  destruct (String.eqb x y) eqn:E; simpl.
  - apply String.eqb_eq in E. subst x. now rewrite Fy.
  - now rewrite IH.
Qed.

Lemma firstOccurrences_filter (f : string -> bool) (l : list string) :
  firstOccurrences (filter f l) = filter f (firstOccurrences l).
Proof.
  induction l as [|y l IH]; simpl; [reflexivity|].
  destruct (f y) eqn:F; simpl.
  - now rewrite IH, filter_filter_comm.
  - now rewrite IH, filter_differs_absorbed.
Qed.

Lemma firstOccurrences_In (x : string) (l : list string) :
  In x (firstOccurrences l) <-> In x l.
Proof.
  induction l as [|y l IH]; simpl; [tauto|].
  rewrite filter_In, IH, negb_true_iff, String.eqb_neq.
  destruct (string_dec y x); intuition congruence.
Qed.


(** *** The MLS scan *)

Lemma filter_unseen_snoc (numbers : list string) (x : string) (l : list string) :
  filter (fun y => negb (mem y (numbers ++ [x]))) l
  = filter (fun y => negb (String.eqb y x)) (filter (fun y => negb (mem y numbers)) l).
Proof.
  induction l as [|y l IH]; simpl; [reflexivity|].
  rewrite mem_app. simpl. rewrite orb_false_r.
  destruct (mem y numbers); simpl; [apply IH|].
  destruct (String.eqb y x); simpl; [apply IH|now rewrite IH].
Qed.

Lemma remember_all (l : list string) :
  forall numbers,
    fold_left remember l numbers
    = numbers ++ firstOccurrences
                   (filter (fun x => negb (mem x numbers)) (filter nonEmpty l)).
Proof.
  induction l as [|x l IH]; intros numbers; simpl.
  - now rewrite app_nil_r.
  - unfold remember at 2. destruct (nonEmpty x) eqn:N; simpl.
    + destruct (mem x numbers) eqn:M; simpl.
      * apply IH.
      * rewrite IH, <- app_assoc. simpl. do 2 f_equal.
        now rewrite filter_unseen_snoc, firstOccurrences_filter.
    + apply IH.
Qed.

(** On matches that hold group 1 the MLS loop does not raise and is the
    fold of [remember] over the normalised captures. *)
Lemma forEach_addMls (ms : list matched) :
  Forall (fun m => captured 1 (groups m)) ms ->
  forall numbers,
    forEach addMls ms numbers
    = (fold_left remember
         (map (fun m => trim (toUpperCase (interpolate (group 1 (groups m))))) ms)
         numbers, None).
Proof.
  induction 1 as [|m ms Hm _ IH]; intros numbers; simpl; [reflexivity|].
  unfold captured in Hm.
  assert (E : addMls numbers m
              = (remember numbers (trim (toUpperCase (interpolate (group 1 (groups m))))),
                 None)).
  { unfold addMls, remember.
    destruct (group 1 (groups m)) as [c|]; [|congruence]. simpl.
    now destruct (nonEmpty (trim (toUpperCase c)) && negb (mem (trim (toUpperCase c)) numbers)). }
  rewrite E. apply IH.
Qed.

Lemma mlsPatterns_mandatory :
  Forall (fun p => In 1 (mandatory (expr p))) mlsPatterns.
Proof. repeat constructor; vm_compute; tauto. Qed.

Lemma scanMls_patterns (text : string) (ps : list regExp) :
  Forall (fun p => In 1 (mandatory (expr p))) ps ->
  forall numbers,
    forEach (fun numbers p =>
               forEach addMls (matchAll (ignoreCase p) (expr p) text) numbers)
            ps numbers
    = (fold_left remember
         (flat_map
            (fun p =>
               map (fun m => trim (toUpperCase (interpolate (group 1 (groups m)))))
                   (matchAll (ignoreCase p) (expr p) text)) ps)
         numbers, None).
Proof.
  induction 1 as [|p ps Hp _ IH]; intros numbers; simpl; [reflexivity|].
  rewrite forEach_addMls by (apply scan_mandatory; assumption).
  now rewrite IH, fold_left_app.
Qed.

(** The MLS scan never raises. *)
Lemma scanMls_total (text : string) :
  scanMls text = (firstOccurrences (filter nonEmpty (mlsCandidates text)), None).
Proof.
  unfold scanMls. rewrite (scanMls_patterns text _ mlsPatterns_mandatory).
  rewrite remember_all. simpl. f_equal. f_equal.
  unfold mlsCandidates.
  induction (filter nonEmpty _) as [|y l IHl]; simpl; [reflexivity|]. now rewrite IHl.
Qed.

Lemma parsePropertyInfo_mlsNumbers (text : string) :
  mlsNumbers (parsePropertyInfo text)
  = firstOccurrences (filter nonEmpty (mlsCandidates text)).
Proof.
  unfold parsePropertyInfo. rewrite scanMls_total.
  destruct (scanAddresses text) as [found [e|]]; reflexivity.
Qed.

(** C7.  On the text of the design [extract] returns no details at all.
    The street-only address pattern matches 3 bedr inside 3 bedrooms; that
    match has two groups, so its length is 3 and the loop takes the branch
    for addresses with a city, where [match[3].trim()] raises on the
    absent third group.  The error is caught by [parsePropertyInfo], which
    returns before the details are extracted.  (The detail extraction
    alone would give the four details of the claim and the price with its
    currency sign.) *)
Theorem extract_of_sample_returns_no_details :
  map whole (matchAll true (seq [unitPart; plus isSpace; streetPart]) sampleDetailsText)
  = ["3 bedr"]
  /\ scanAddresses sampleDetailsText
     = ([], Some (TypeError "Cannot read properties of undefined (reading 'trim')"))
  /\ parsePropertyInfo sampleDetailsText = mkResults [] [] noDetails
  /\ extractPropertyDetails sampleDetailsText
     = mkDetails (Some ["$450000"]) (Some "3") (Some "2.5") (Some "1200") (Some "detached").
Proof. repeat split; vm_compute; reflexivity. Qed.

(** *** The duplicate filter *)

Lemma startsWith_prefix (pre s : string) :
  startsWith s pre = true <-> exists post, s = pre +++ post.
Proof.
  revert s. induction pre as [|p pre IH]; intros s; simpl.
  - split; [intros _; now exists s|reflexivity].
  - destruct s as [|c s].
    + split; [discriminate|intros (post & H); discriminate].
    + rewrite andb_true_iff, IH. split.
      * intros [E (post & ->)]. apply Ascii.eqb_eq in E. subst. now exists post.
      * intros (post & H). injection H as -> ->. split; [apply Ascii.eqb_refl|now exists post].
Qed.

(** [includes] decides [within]. *)
Lemma includes_within (s needle : string) :
  includes s needle = true <-> within needle s.
Proof.
  unfold within. induction s as [|c s IH].
  - simpl. rewrite orb_false_r, startsWith_prefix. split.
    + intros (post & ->). now exists "", post.
    + intros (pre & post & H). destruct pre; [|discriminate]. now exists post.
  - cbn [includes]. rewrite orb_true_iff, startsWith_prefix, IH. split.
    + intros [(post & ->) | (pre & post & ->)].
      * now exists "", post.
      * now exists (String c pre), post.
    + intros (pre & post & H). destruct pre as [|c' pre].
      * left. now exists post.
      * right. injection H as -> ->. now exists pre, post.
Qed.

Lemma overlaps_spec (addr address : string) :
  overlaps addr address = true
  <-> withinIgnoringCase address addr \/ withinIgnoringCase addr address.
Proof.
  unfold overlaps, withinIgnoringCase.
  now rewrite orb_true_iff, !includes_within.
Qed.

Lemma append_nonEmpty (a b c : string) : a +++ " " +++ b <> "".
Proof. destruct a; discriminate. Qed.

(** An address the scan builds is never the empty string. *)
Lemma buildAddress_nonEmpty (len : nat) (m : matched) (address : string) :
  2 <= len -> buildAddress len m = Ok address -> address <> "".
Proof.
  intros L. unfold buildAddress.
  destruct (4 <=? len); [|destruct (3 <=? len);
    [|destruct (2 <=? len) eqn:E; [|apply Nat.leb_gt in E; lia]]];
    repeat match goal with
           | |- context [receiver ?g ?n] => destruct (receiver g n); simpl; [|discriminate]
           end;
    intros H; injection H as <-; apply (append_nonEmpty _ _ "").
Qed.

(** C8, as stated, fails: the two addresses of the design do not collapse,
    in either order, since neither contains the other. *)
Lemma main_street_pair_is_kept :
  fold_left acceptAddress
    ["123 Main St, Toronto"; "123 Main Street, Toronto, Ontario"] []
  <> ["123 Main St, Toronto"]
  /\ length (fold_left acceptAddress
               ["123 Main St, Toronto"; "123 Main Street, Toronto, Ontario"] []) = 2
  /\ length (fold_left acceptAddress
               ["123 Main Street, Toronto, Ontario"; "123 Main St, Toronto"] []) = 2.
Proof.
  split; [vm_compute; discriminate|].
  split; vm_compute; reflexivity.
Qed.

(** C8, amended.  A non-empty candidate (every address the scan builds is
    non-empty) is discarded exactly when an accepted address contains it or
    is contained in it, case ignored; otherwise it is appended.  Under this
    rule the pair 123 Main St, Toronto and 123 Main Street, Toronto,
    Ontario is kept as two entries, while 123 Main St after 123 Main St,
    Toronto is discarded. *)
Theorem acceptAddress_discards_exactly :
  (forall addresses address,
      address <> "" ->
      (acceptAddress addresses address = addresses
       <-> exists addr, In addr addresses
                        /\ (withinIgnoringCase address addr
                            \/ withinIgnoringCase addr address))
      /\ (acceptAddress addresses address = addresses
          \/ acceptAddress addresses address = addresses ++ [address]))
  /\ (forall len m address, 2 <= len -> buildAddress len m = Ok address -> address <> "")
  /\ fold_left acceptAddress
       ["123 Main St, Toronto"; "123 Main Street, Toronto, Ontario"] []
     = ["123 Main St, Toronto"; "123 Main Street, Toronto, Ontario"]
  /\ fold_left acceptAddress ["123 Main St, Toronto"; "123 Main St"] []
     = ["123 Main St, Toronto"].
Proof.
  split; [|split; [exact buildAddress_nonEmpty|split; vm_compute; reflexivity]].
  intros addresses address Hne. unfold acceptAddress.
  assert (N : nonEmpty address = true) by (destruct address; [congruence|reflexivity]).
  rewrite N. simpl.
  destruct (existsb (fun addr => overlaps addr address) addresses) eqn:E; simpl.
  - split; [|now left]. split; [intros _|reflexivity].
    apply existsb_exists in E as (addr & Hin & Ho).
    exists addr. split; [assumption|]. now apply overlaps_spec.
  - split; [|now right]. split.
    + intros H. apply (f_equal (@length string)) in H.
      rewrite length_app in H. simpl in H. lia.
    + intros (addr & Hin & Ho). apply overlaps_spec in Ho.
      assert (T : existsb (fun addr => overlaps addr address) addresses = true)
        by (apply existsb_exists; eauto).
      congruence.
Qed.

(** A witness of the previous statement: the candidate 123 Main St after
    the accepted 123 Main St, Toronto. *)
Lemma acceptAddress_discards_exactly_witness :
  acceptAddress ["123 Main St, Toronto"] "123 Main St" = ["123 Main St, Toronto"]
  <-> exists addr, In addr ["123 Main St, Toronto"]
                   /\ (withinIgnoringCase "123 Main St" addr
                       \/ withinIgnoringCase addr "123 Main St").
Proof.
  apply (proj1 acceptAddress_discards_exactly ["123 Main St, Toronto"] "123 Main St").
  discriminate.
Defined.

End DocumentProcessorFacts.

(* ================================================================== *)
(** ** Properties of the route optimizer *)
(* ================================================================== *)

Section SortingFacts.
Import RouteOptimizer.
Context {A : Type} (compare : A -> A -> Z).

Lemma insert_Permutation (x : A) (l : list A) :
  Permutation (insert compare x l) (x :: l).
Proof.
  induction l as [|y l IH]; simpl; [reflexivity|].
  destruct (compare x y <=? 0)%Z; [reflexivity|].
  rewrite IH. apply perm_swap.
Qed.

Lemma sort_Permutation (l : list A) : Permutation (sort compare l) l.
Proof.
  induction l as [|x l IH]; simpl; [reflexivity|].
  rewrite insert_Permutation. now constructor.
Qed.

Lemma sort_In (x : A) (l : list A) : In x (sort compare l) <-> In x l.
Proof.
  split; apply Permutation_in; [|symmetry]; apply sort_Permutation.
Qed.

Lemma insert_sorted (R : A -> A -> Prop) (x : A) (l : list A) :
  (forall a b c, R a b -> R b c -> R a c) ->
  StronglySorted R l ->
  (forall y, In y l -> orders compare R x y) ->
  StronglySorted R (insert compare x l).
Proof.
  intros T S. induction S as [|y l S IH F]; intros O; simpl.
  - repeat constructor.
  - destruct (compare x y <=? 0)%Z eqn:E.
    + apply Z.leb_le in E. constructor; [now constructor|].
      assert (Rxy : R x y) by (apply (O y); [now left|assumption]).
      constructor; [assumption|].
      rewrite Forall_forall in *. eauto.
    + apply Z.leb_gt in E. constructor.
      * apply IH. intros z Hz. apply O. now right.
      * rewrite Forall_forall in *. intros z Hz.
        apply (Permutation_in _ (insert_Permutation x l)) in Hz.
        destruct Hz as [<-|Hz]; [|auto].
        apply (O y); [now left|assumption].
Qed.

(** Sorting with a comparator that agrees with a transitive relation on
    the elements of the list leaves them sorted by that relation. *)
Lemma sort_sorted (R : A -> A -> Prop) (l : list A) :
  (forall a b c, R a b -> R b c -> R a c) ->
  (forall x y, In x l -> In y l -> orders compare R x y) ->
  StronglySorted R (sort compare l).
Proof.
  intros T. induction l as [|x l IH]; intros O; simpl.
  - constructor.
  - apply insert_sorted; [assumption| |].
    + apply IH. intros a b Ha Hb. apply O; now right.
    + intros y Hy. apply (proj1 (sort_In y l)) in Hy. apply O; [now left|now right].
Qed.

End SortingFacts.

Section GroupingFacts.
Import RouteOptimizer.

Lemma assoc_None {B} (own : list (string * B)) (key : string) :
  assoc own key = None <-> ~ In key (map fst own).
Proof.
  induction own as [|[k v] own IH]; simpl; [tauto|].
  destruct (String.eqb k key) eqn:E.
  - apply String.eqb_eq in E. split; [discriminate|]. intros H. exfalso. apply H. now left.
  - apply String.eqb_neq in E. rewrite IH. tauto.
Qed.

Lemma assoc_snoc {B} (own : list (string * B)) (k : string) (v : B) (key : string) :
  assoc (own ++ [(k, v)]) key
  = match assoc own key with
    | Some x => Some x
    | None => if String.eqb k key then Some v else None
    end.
Proof.
  induction own as [|[k' v'] own IH]; simpl; [reflexivity|].
  destruct (String.eqb k' key); [reflexivity|apply IH].
Qed.

Lemma assoc_push (grouped : list (string * list property)) (c : string) (p : property)
    (b : list property) (key : string) :
  assoc grouped c = Some b ->
  assoc (push grouped c p) key
  = if String.eqb c key then Some (b ++ [p]) else assoc grouped key.
Proof.
  induction grouped as [|[k v] grouped IH]; simpl; [discriminate|].
  destruct (String.eqb k c) eqn:E.
  - apply String.eqb_eq in E. subst k. intros H; injection H as ->. simpl.
    destruct (String.eqb c key); reflexivity.
  - intros H. simpl. destruct (String.eqb k key) eqn:K.
    + apply String.eqb_eq in K. subst k. now rewrite (String.eqb_sym c key), E.
    + now apply IH.
Qed.

Lemma push_keys (grouped : list (string * list property)) (c : string) (p : property) :
  map fst (push grouped c p) = map fst grouped.
Proof.
  induction grouped as [|[k v] grouped IH]; simpl; [reflexivity|].
  destruct (String.eqb k c); simpl; now rewrite ?IH.
Qed.

Lemma filter_snoc {B} (f : B -> bool) (l : list B) (x : B) :
  filter f (l ++ [x]) = filter f l ++ (if f x then [x] else []).
Proof. rewrite filter_app. reflexivity. Qed.

(** One round of the grouping loop keeps the invariant, and raises only on
    a stop whose city is an inherited name. *)
Lemma group_step (grouped : list (string * list property)) (done : list property)
    (p : property) :
  grouping grouped done ->
  match group grouped p with
  | Ok grouped' => grouping grouped' (done ++ [p])
  | Throw _ => inheritedCity p
  end.
Proof.
  intros (B & N & I). unfold group, Js.get. fold (cityOf p).
  destruct (assoc grouped (cityOf p)) as [b|] eqn:E.
  - (* the city has a bucket *)
    split; [|split].
    + intros c. rewrite (assoc_push _ _ _ _ _ E), filter_snoc.
      unfold cityIs at 2. destruct (String.eqb (cityOf p) c) eqn:C.
      * apply String.eqb_eq in C. subst c. rewrite B in E.
        destruct (filter (cityIs (cityOf p)) done); [discriminate|].
        injection E as <-. reflexivity.
      * now rewrite B, app_nil_r.
    + now rewrite push_keys.
    + now rewrite push_keys.
  - destruct (mem (cityOf p) objectPrototypeKeys) eqn:M.
    + now apply mem_In.
    + (* a new city *)
      split; [|split].
      * intros c. rewrite assoc_snoc, filter_snoc, B.
        unfold cityIs at 3. destruct (String.eqb (cityOf p) c) eqn:C.
        -- apply String.eqb_eq in C. subst c. rewrite B in E.
           destruct (filter (cityIs (cityOf p)) done); [reflexivity|discriminate].
        -- rewrite app_nil_r. now destruct (filter (cityIs c) done).
      * rewrite map_app. simpl. apply NoDup_app_remove_l with (l := []).
        simpl. apply Permutation_NoDup with (l := cityOf p :: map fst grouped).
        -- apply Permutation_cons_append.
        -- constructor; [now apply assoc_None|assumption].
      * intros c. rewrite map_app, in_app_iff.
        intros [H|[<-|[]]]; auto.
Qed.

Lemma groupAll_grouping (properties : list property) :
  forall grouped done,
    grouping grouped done ->
    match groupAll grouped properties with
    | Ok grouped' => grouping grouped' (done ++ properties)
    | Throw _ => exists p, In p properties /\ inheritedCity p
    end.
Proof.
  induction properties as [|p rest IH]; intros grouped done G; simpl.
  - now rewrite app_nil_r.
  - pose proof (group_step grouped done p G) as S.
    destruct (group grouped p) as [grouped'|e]; simpl.
    + specialize (IH grouped' (done ++ [p]) S).
      rewrite <- app_assoc in IH. simpl in IH.
      destruct (groupAll grouped' rest); [assumption|].
      destruct IH as (q & Hq & Iq). exists q. split; [now right|assumption].
    + exists p. split; [now left|assumption].
Qed.

Lemma grouping_start : grouping [] [].
Proof. split; [reflexivity|split; [constructor|intros ? []]]. Qed.

Lemma grouping_bucket grouped done c :
  grouping grouped done -> bucket grouped c = filter (cityIs c) done.
Proof.
  intros (B & _). unfold bucket. rewrite B. now destruct (filter (cityIs c) done).
Qed.

Lemma grouping_covers grouped done p :
  grouping grouped done -> In p done -> In (cityOf p) (map fst grouped).
Proof.
  intros (B & _) Hp.
  destruct (in_dec string_dec (cityOf p) (map fst grouped)) as [H|H]; [assumption|].
  apply assoc_None in H. rewrite B in H.
  assert (F : In p (filter (cityIs (cityOf p)) done)).
  { apply filter_In. split; [assumption|apply String.eqb_refl]. }
  destruct (filter (cityIs (cityOf p)) done); [destruct F|discriminate].
Qed.

End GroupingFacts.

Section OrderFacts.
Import RouteOptimizer.
Variable h : host.

Lemma filter_complement_Permutation {B} (f g : B -> bool) (l : list B) :
  (forall x, g x = negb (f x)) ->
  Permutation (filter f l ++ filter g l) l.
Proof.
  intros C. induction l as [|x l IH]; simpl; [reflexivity|].
  rewrite C. destruct (f x); simpl.
  - now constructor.
  - rewrite <- Permutation_middle. now constructor.
Qed.

(** [Object.keys] lists every own name once. *)
Lemma objectKeys_Permutation {B} (own : list (string * B)) :
  Permutation (objectKeys own) (map fst own).
Proof.
  unfold objectKeys.
  set (isIndex := fun k : string =>
                    match arrayIndex k with Some _ => true | None => false end).
  assert (E : Permutation
                (map snd (sort (fun x y : N * string => (Z.of_N (fst x) - Z.of_N (fst y))%Z)
                   (flat_map (fun kv : string * B =>
                                match arrayIndex (fst kv) with
                                | Some n => [(n, fst kv)]
                                | None => []
                                end) own)))
                (filter isIndex (map fst own))).
  { rewrite sort_Permutation.
    induction own as [|[k v] own IH]; simpl; [reflexivity|].
    unfold isIndex at 1. destruct (arrayIndex k); simpl; [now constructor|assumption]. }
  rewrite E. apply filter_complement_Permutation.
  intros k. unfold isIndex. now destruct (arrayIndex k).
Qed.

(** On names that are not inherited the comparator of the cities follows
    their priorities. *)
Lemma compareCities_rank (a b : string) :
  mem a objectPrototypeKeys = false ->
  mem b objectPrototypeKeys = false ->
  orders (compareCities h) (fun x y => (rank x <= rank y)%Z) a b.
Proof.
  intros Ma Mb. unfold orders, compareCities, Js.get, rank. rewrite Ma, Mb.
  destruct (assoc priorityMap a) as [x|], (assoc priorityMap b) as [y|];
    match goal with
    | |- context [(?u =? ?v)%Z] => destruct (Z.eqb_spec u v)
    end; lia.
Qed.

(** With every name present in the object the loop over the sorted cities
    appends their sorted buckets. *)
Lemma addCities_buckets (grouped : list (string * list property)) (cities : list string) :
  (forall c, In c cities -> In c (map fst grouped)) ->
  forall optimized,
    addCities h grouped optimized cities
    = Ok (optimized
          ++ flat_map (fun c => sort (compareStreets h) (bucket grouped c)) cities).
Proof.
  induction cities as [|c cities IH]; intros K optimized; simpl.
  - now rewrite app_nil_r.
  - unfold addCity, Js.get, bucket at 1.
    destruct (assoc grouped c) as [b|] eqn:E.
    + simpl. rewrite IH by (intros; apply K; now right). now rewrite app_assoc.
    + apply assoc_None in E. exfalso. apply E, K. now left.
Qed.

Lemma filter_or_Permutation {B} (f g : B -> bool) (l : list B) :
  (forall x, f x = true -> g x = true -> False) ->
  Permutation (filter f l ++ filter g l) (filter (fun x => f x || g x) l).
Proof.
  intros D. induction l as [|x l IH]; simpl; [reflexivity|].
  destruct (f x) eqn:F, (g x) eqn:G; simpl.
  - exfalso. eauto.
  - now constructor.
  - rewrite <- Permutation_middle. now constructor.
  - assumption.
Qed.

Lemma filter_all {B} (f : B -> bool) (l : list B) :
  (forall x, In x l -> f x = true) -> filter f l = l.
Proof.
  induction l as [|x l IH]; intros T; simpl; [reflexivity|].
  rewrite T by now left. f_equal. apply IH. intros; apply T; now right.
Qed.

(** The buckets of distinct cities partition the stops found under them. *)
Lemma buckets_Permutation (properties : list property) (keys : list string) :
  NoDup keys ->
  Permutation (flat_map (fun c => filter (cityIs c) properties) keys)
              (filter (fun p => mem (cityOf p) keys) properties).
Proof.
  induction 1 as [|c keys Hc _ IH]; simpl.
  - induction properties as [|p l IHl]; simpl; [reflexivity|assumption].
  - rewrite IH.
    rewrite (filter_or_Permutation (cityIs c) (fun p => mem (cityOf p) keys)).
    + apply Permutation_refl'. apply filter_ext. intros p. reflexivity.
    + intros p C M. apply String.eqb_eq in C. apply mem_In in M. congruence.
Qed.

Lemma flat_map_Permutation_pointwise {B C} (f g : B -> list C) (l : list B) :
  (forall x, Permutation (f x) (g x)) ->
  Permutation (flat_map f l) (flat_map g l).
Proof.
  intros P. induction l as [|x l IH]; simpl; [reflexivity|].
  now apply Permutation_app.
Qed.

Lemma StronglySorted_app {B} (R : B -> B -> Prop) (l1 l2 : list B) :
  StronglySorted R l1 -> StronglySorted R l2 ->
  (forall x y, In x l1 -> In y l2 -> R x y) ->
  StronglySorted R (l1 ++ l2).
Proof.
  induction 1 as [|x l1 S IH F]; intros S2 X; simpl; [assumption|].
  constructor.
  - apply IH; [assumption|]. intros; apply X; [now right|assumption].
  - apply Forall_app. split; [assumption|].
    apply Forall_forall. intros y Hy. apply X; [now left|assumption].
Qed.

Lemma same_city_sorted (c : string) (l : list property) :
  (forall p, In p l -> cityOf p = c) -> StronglySorted byRank l.
Proof.
  induction l as [|p l IH]; intros C; constructor.
  - apply IH. intros; apply C; now right.
  - apply Forall_forall. intros q Hq. unfold byRank.
    rewrite (C p), (C q); [lia|now right|now left].
Qed.

(** Buckets laid out along cities sorted by priority are sorted by the
    priority of their stops. *)
Lemma buckets_sorted (f : string -> list property) (cities : list string) :
  (forall c p, In p (f c) -> cityOf p = c) ->
  StronglySorted (fun x y => (rank x <= rank y)%Z) cities ->
  StronglySorted byRank (flat_map f cities).
Proof.
  intros C. induction 1 as [|c cities S IH F]; simpl; [constructor|].
  apply StronglySorted_app; [eapply same_city_sorted; eauto|assumption|].
  intros p q Hp Hq. apply in_flat_map in Hq as (c' & Hc' & Hq).
  unfold byRank. rewrite (C _ _ Hp), (C _ _ Hq).
  rewrite Forall_forall in F. auto.
Qed.

(** The visiting order is a rearrangement of the stops, sorted by the
    priority of their cities; the ordering raises only when a stop has an
    inherited name for city. *)
Lemma simulateOptimalOrder_spec (properties : list property) :
  match simulateOptimalOrder h properties with
  | Ok optimized => Permutation optimized properties /\ StronglySorted byRank optimized
  | Throw _ => exists p, In p properties /\ inheritedCity p
  end.
Proof.
  unfold simulateOptimalOrder.
  pose proof (groupAll_grouping properties [] [] grouping_start) as G.
  destruct (groupAll [] properties) as [grouped|e]; simpl in *; [|assumption].
  assert (K : forall c, In c (getCityPriority h (objectKeys grouped))
                        <-> In c (map fst grouped)).
  { intros c. unfold getCityPriority. rewrite sort_In.
    split; apply Permutation_in;
      [|symmetry]; apply objectKeys_Permutation. }
  rewrite addCities_buckets by (intros c; apply K). simpl.
  unfold getCityPriority in *.
  split.
  - rewrite (flat_map_Permutation_pointwise _ (fun c => filter (cityIs c) properties)).
    2:{ intros c. rewrite sort_Permutation.
        now rewrite (grouping_bucket _ _ c G). }
    rewrite (Permutation_flat_map _
               (Permutation_trans (sort_Permutation _ _) (objectKeys_Permutation grouped))).
    rewrite buckets_Permutation by apply G.
    rewrite filter_all; [reflexivity|].
    intros p Hp. apply mem_In. eapply grouping_covers; eauto.
  - apply buckets_sorted.
    + intros c p Hp. apply sort_In in Hp.
      rewrite (grouping_bucket _ _ c G) in Hp.
      apply filter_In in Hp as [_ Hp]. now apply String.eqb_eq in Hp.
    + apply sort_sorted; [intros; lia|].
      intros a b Ha Hb.
      destruct G as (_ & _ & I).
      apply compareCities_rank; apply I.
      * eapply Permutation_in; [apply objectKeys_Permutation|assumption].
      * eapply Permutation_in; [apply objectKeys_Permutation|assumption].
Qed.

End OrderFacts.

Section PlanFacts.
Import RouteOptimizer.
Variable h : host.

(** The key in use is never empty, so the instance never runs in its
    simulation configuration. *)
Lemma construct_useSimulation : useSimulation (construct h) = false.
Proof.
  unfold construct. destruct (envGoogleMapsApiKey h) as [key|]; simpl; [|reflexivity].
  destruct (nonEmpty key) eqn:N; simpl; [now rewrite N|reflexivity].
Qed.

(** The visiting loop never raises; it draws once per stop and appends one
    step per stop. *)
Lemma visitAll_run (ps : list property) :
  forall i st w,
  exists st' added,
    visitAll h i ps st w
    = (Ok st', mkWorld (clockReads w) (randomDraws w + length ps))
    /\ stepsSoFar st' = stepsSoFar st ++ added
    /\ map skeleton added = visitSkeletons i ps
    /\ Forall2 (drawn h) added (seq (randomDraws w) (length ps)).
Proof.
  induction ps as [|p rest IH]; intros i st w; simpl.
  - exists st, []. rewrite Nat.add_0_r, app_nil_r. destruct w.
    repeat split; constructor.
  - unfold mbind, mathRandom at 1.
    match goal with
    | |- context [visitAll h (i + 1) rest ?st1 ?w1] =>
        destruct (IH (i + 1) st1 w1) as (st' & added & E & S & K & D)
    end.
    simpl in *. eexists st', (_ :: added).
    rewrite E, S, <- app_assoc. simpl.
    split; [f_equal; f_equal; lia|].
    split; [reflexivity|]. split; [now rewrite K|].
    constructor; [reflexivity|assumption].
Qed.

Lemma map_skeleton_app (l1 l2 : list step) :
  map skeleton (l1 ++ l2) = map skeleton l1 ++ map skeleton l2.
Proof. apply map_app. Qed.

(** Simulation mode: when the ordering succeeds a plan is returned, with
    the itinerary of the ordered stops, the map link through them, no
    note, and one drawn leg per stop and one for the return. *)
Lemma simulateRouteOptimization_run (officeAddress : string) (properties : list property)
    (w : world) :
  match simulateOptimalOrder h properties with
  | Ok ordered =>
      exists plan,
        simulateRouteOptimization h officeAddress properties w
        = (Ok plan, mkWorld (S (clockReads w)) (randomDraws w + length ordered + 1))
        /\ map skeleton (steps plan) = itinerary officeAddress ordered
        /\ googleMapsUrl plan = generateGoogleMapsUrl officeAddress ordered
        /\ optimizationNotes plan = None
        /\ Forall2 (drawn h) (tl (steps plan)) (seq (randomDraws w) (length ordered + 1))
        /\ length (steps plan) = length ordered + 2
  | Throw e =>
      simulateRouteOptimization h officeAddress properties w = (Throw e, w)
  end.
Proof.
  unfold simulateRouteOptimization.
  pose proof construct_useSimulation as U.
  remember (construct h) as inst eqn:I. clear I.
  destruct (simulateOptimalOrder h properties) as [ordered|e]; [|reflexivity].
  unfold mbind at 1, lift. unfold mbind at 1, newDate.
  unfold mbind at 1.
  match goal with
  | |- context [visitAll h 0 ordered ?st1 ?w1] =>
      destruct (visitAll_run ordered 0 st1 w1) as (st' & added & E & S & K & D)
  end.
  simpl in E, S, D. rewrite E.
  unfold mbind, mathRandom, ret. simpl.
  eexists. split; [f_equal; f_equal; lia|].
  rewrite U, S. simpl.
  split; [|split; [reflexivity|split; [reflexivity|split]]].
  - unfold itinerary. rewrite map_skeleton_app, K. reflexivity.
  - rewrite seq_app. apply Forall2_app; [assumption|].
    constructor; [|constructor].
    unfold drawn, drivingLabel. reflexivity.
  - apply Forall2_length in D. rewrite length_seq in D.
    rewrite length_app, D. simpl. lia.
Qed.

(** Provider mode never yields a plan: [parseGoogleDirectionsResponse]
    raises whatever the response. *)
Lemma parseGoogleDirectionsResponse_raises (data : directionsData)
    (officeAddress : string) (properties : list property) (w : world) :
  exists e w',
    parseGoogleDirectionsResponse h data officeAddress properties w = (Throw e, w')
    /\ afterProvider w w'.
Proof.
  unfold parseGoogleDirectionsResponse, afterProvider, mbind, lift, newDate.
  destruct (routes data) as [|r rs]; [do 2 eexists; split; [reflexivity|simpl; lia]|].
  destruct (legs r) as [[|l ls]|];
    do 2 eexists; (split; [reflexivity|simpl; lia]).
Qed.

Lemma optimizeWithGoogleAPI_raises (officeAddress : string) (properties : list property)
    (w : world) :
  exists e w',
    optimizeWithGoogleAPI h officeAddress properties w = (Throw e, w')
    /\ afterProvider w w'.
Proof.
  unfold optimizeWithGoogleAPI, tryCatch, mbind, lift, raise.
  assert (R : afterProvider w w) by (unfold afterProvider; lia).
  destruct (simulateOptimalOrder h properties) as [ordered|e]; [|eauto].
  destruct (axiosGet h (directionsUrl h officeAddress ordered)) as [data|e]; [|eauto].
  destruct (negb (String.eqb (status data) "OK")); [eauto|].
  destruct (parseGoogleDirectionsResponse_raises data officeAddress ordered w)
    as (e & w' & E & A).
  rewrite E. eauto.
Qed.

(** Every invocation ends in simulation mode. *)
Lemma optimizeRoute_simulates (officeAddress : string) (properties : list property)
    (w : world) :
  exists w',
    optimizeRoute h officeAddress properties w
    = simulateRouteOptimization h officeAddress properties w'
    /\ afterProvider w w'.
Proof.
  unfold optimizeRoute, tryCatch.
  destruct (optimizeWithGoogleAPI_raises officeAddress properties w) as (e & w' & E & A).
  rewrite E. eauto.
Qed.

End PlanFacts.

Section RouteTheorems.
Import RouteOptimizer.

Lemma StronglySorted_nth_error {B} (R : B -> B -> Prop) (l : list B) :
  StronglySorted R l ->
  forall i j x y,
    i < j -> nth_error l i = Some x -> nth_error l j = Some y -> R x y.
Proof.
  induction 1 as [|a l S IH F]; intros i j x y L Hi Hj.
  - destruct i; discriminate.
  - destruct j as [|j]; [lia|]. simpl in Hj. destruct i as [|i]; simpl in Hi.
    + injection Hi as <-. rewrite Forall_forall in F.
      apply F. eapply nth_error_In; eauto.
    + apply (IH i j); [lia|assumption|assumption].
Qed.

(** In a list sorted by priority a stop of a city of lower priority number
    stands before one of a higher. *)
Lemma byRank_before (l : list property) (i j : nat) (p q : property) :
  StronglySorted byRank l ->
  nth_error l i = Some p -> nth_error l j = Some q ->
  (rank (cityOf p) < rank (cityOf q))%Z -> i < j.
Proof.
  intros S Hi Hj L.
  destruct (Nat.lt_trichotomy i j) as [H|[H|H]]; [assumption| |].
  - subst j. rewrite Hi in Hj. injection Hj as <-. lia.
  - pose proof (StronglySorted_nth_error byRank l S j i q p H Hj Hi) as R.
    unfold byRank in R. lia.
Qed.

(** What every invocation of [optimizeRoute] comes to. *)
Lemma optimizeRoute_outcome (h : host) (officeAddress : string)
    (properties : list property) (w : world) :
  match fst (optimizeRoute h officeAddress properties w) with
  | Ok plan =>
      exists ordered k,
        simulateOptimalOrder h properties = Ok ordered
        /\ Permutation ordered properties
        /\ StronglySorted byRank ordered
        /\ map skeleton (steps plan) = itinerary officeAddress ordered
        /\ googleMapsUrl plan = generateGoogleMapsUrl officeAddress ordered
        /\ optimizationNotes plan = None
        /\ Forall2 (drawn h) (tl (steps plan)) (seq k (length ordered + 1))
        /\ length (steps plan) = length properties + 2
  | Throw e =>
      simulateOptimalOrder h properties = Throw e
      /\ exists p, In p properties /\ inheritedCity p
  end.
Proof.
  destruct (optimizeRoute_simulates h officeAddress properties w) as (w' & E & _).
  rewrite E.
  pose proof (simulateRouteOptimization_run h officeAddress properties w') as R.
  pose proof (simulateOptimalOrder_spec h properties) as O.
  destruct (simulateOptimalOrder h properties) as [ordered|e].
  - destruct R as (plan & -> & K & U & N & D & L). simpl.
    destruct O as [P S]. exists ordered, (randomDraws w').
    repeat split; try assumption.
    rewrite L. f_equal. now apply Permutation_length.
  - rewrite R. simpl. split; [reflexivity|assumption].
Qed.

Lemma visitSkeletons_addresses (ps : list property) :
  forall i, map (fun t => snd (fst (fst t))) (visitSkeletons i ps) = map address ps.
Proof.
  induction ps as [|p ps IH]; intros i; simpl; [reflexivity|]. now rewrite IH.
Qed.

Lemma itinerary_shape (officeAddress : string) (ordered : list property)
    (l : list step) :
  map skeleton l = itinerary officeAddress ordered ->
  exists first middle final,
    l = first :: middle ++ [final]
    /\ stepType first = "Start"
    /\ map stepAddress middle = map address ordered
    /\ stepType final = "Return to Office".
Proof.
  unfold itinerary. intros H.
  apply map_eq_cons in H as (first & l' & -> & F & H).
  apply map_eq_app in H as (middle & tail & -> & M & T).
  apply map_eq_cons in T as (final & tail' & -> & T & N).
  apply map_eq_nil in N. subst tail'.
  exists first, middle, final. repeat split.
  - unfold skeleton in F. congruence.
  - rewrite <- visitSkeletons_addresses with (i := 0), <- M, map_map. reflexivity.
  - unfold skeleton in T. congruence.
Qed.

(** The three stops of the example, in each of their six orders, are
    visited Richmond Hill first, Vaughan next, Toronto last. *)
Lemma three_stops_in_any_order :
  Forall
    (fun stops =>
       match simulateOptimalOrder Demo.offline stops with
       | Ok ordered => map cityOf ordered = ["Richmond Hill"; "Vaughan"; "Toronto"]
       | Throw _ => False
       end)
    (match Demo.threeStops with
     | [t; r; v] => [[t; r; v]; [t; v; r]; [r; t; v]; [r; v; t]; [v; t; r]; [v; r; t]]
     | _ => []
     end).
Proof. repeat constructor. Qed.

(** The city the ordering reads off an address is its second
    comma-delimited segment, trimmed, and Unknown without a comma. *)
Lemma split_segments (s : string) :
  split "," s
  = beforeComma s :: match afterComma s with
                     | Some r => split "," r
                     | None => []
                     end.
Proof.
  induction s as [|c s IH]; simpl; [reflexivity|].
  destruct (Ascii.eqb c ","); [reflexivity|].
  rewrite IH. reflexivity.
Qed.

Lemma extractCity_secondSegment (a : string) :
  extractCity a = match secondSegment a with
                  | Some c => c
                  | None => "Unknown"
                  end.
Proof.
  unfold extractCity, secondSegment. rewrite split_segments.
  destruct (afterComma a) as [r|]; [|reflexivity].
  now rewrite split_segments.
Qed.

Lemma inCity_cityOf (c : string) (p : property) : inCity c p -> cityOf p = c.
Proof.
  unfold inCity, cityOf. intros H. now rewrite extractCity_secondSegment, H.
Qed.

Lemma inherited_inCity (p : property) :
  inheritedCity p ->
  exists key, In key objectPrototypeKeys /\ inCity key p.
Proof.
  unfold inheritedCity, inCity, cityOf. rewrite extractCity_secondSegment.
  destruct (secondSegment (address p)) as [c|]; [eauto|].
  simpl. intuition discriminate.
Qed.

(** C1.  A returned plan starts with the step Start, ends with the step
    Return to Office, and visits in between a rearrangement of the stops
    in which every stop whose address has Richmond Hill for second
    comma-delimited segment comes before every stop that has Vaughan
    there, and every such stop before every stop that has Toronto there,
    whatever the order of the input.  A plan is returned unless the second
    segment of a stop's address is a name inherited from
    [Object.prototype].  The three stops of the example, given in any of
    their six orders, are visited at 5 Main St, Richmond Hill, then 9
    Keele St, Vaughan, then 1 Yonge St, Toronto. *)
Theorem planRoute_visits_cities_by_priority :
  (forall (h : host) (officeAddress : string) (properties : list property) (w : world),
      match fst (optimizeRoute h officeAddress properties w) with
      | Ok plan =>
          exists first middle final ordered,
            steps plan = first :: middle ++ [final]
            /\ stepType first = "Start"
            /\ stepType final = "Return to Office"
            /\ map stepAddress middle = map address ordered
            /\ Permutation ordered properties
            /\ (forall i j p q,
                  nth_error ordered i = Some p -> nth_error ordered j = Some q ->
                  (inCity "Richmond Hill" p /\ inCity "Vaughan" q)
                  \/ (inCity "Vaughan" p /\ inCity "Toronto" q)
                  \/ (inCity "Richmond Hill" p /\ inCity "Toronto" q) ->
                  i < j)
      | Throw _ =>
          exists p key, In p properties /\ In key objectPrototypeKeys /\ inCity key p
      end)
  /\ Forall
       (fun stops =>
          match fst (optimizeRoute Demo.offline Demo.office stops start) with
          | Ok plan =>
              map (fun s => (stepType s, stepAddress s)) (steps plan)
              = [ ("Start", "10 Centre St, Richmond Hill, Ontario");
                  ("Visit Property 1", "5 Main St, Richmond Hill, Ontario");
                  ("Visit Property 2", "9 Keele St, Vaughan, Ontario");
                  ("Visit Property 3", "1 Yonge St, Toronto, Ontario");
                  ("Return to Office", "10 Centre St, Richmond Hill, Ontario") ]
          | Throw _ => False
          end)
       (ordersOf Demo.threeStops).
Proof.
  split; [|repeat constructor].
  intros h officeAddress properties w.
  pose proof (optimizeRoute_outcome h officeAddress properties w) as O.
  destruct (fst (optimizeRoute h officeAddress properties w)) as [plan|e].
  - destruct O as (ordered & k & _ & P & S & K & _).
    apply itinerary_shape in K as (first & middle & final & E & F & M & L).
    exists first, middle, final, ordered.
    repeat split; try assumption.
    intros i j p q Hi Hj C. apply (byRank_before ordered i j p q S Hi Hj).
    destruct C as [[Hp Hq]|[[Hp Hq]|[Hp Hq]]];
      apply inCity_cityOf in Hp, Hq; rewrite Hp, Hq; vm_compute; reflexivity.
  - destruct O as (_ & p & Hin & Hp).
    destruct (inherited_inCity p Hp) as (key & Hk & Hc). eauto.
Qed.

(** C2.  Every invocation that returns, among them every one whose
    provider call raises or answers with another status than OK, returns a
    plan of as many steps as there are stops and two more, and that plan
    carries no note: nothing in it tells that its timing is simulated. *)
Theorem planRoute_fallback_has_no_note (h : host) (officeAddress : string)
    (properties : list property) (w : world) :
  match fst (optimizeRoute h officeAddress properties w) with
  | Ok plan =>
      length (steps plan) = length properties + 2
      /\ optimizationNotes plan = None
  | Throw e => simulateOptimalOrder h properties = Throw e
  end
  /\ useSimulation (construct h) = false.
Proof.
  split; [|apply construct_useSimulation].
  pose proof (optimizeRoute_outcome h officeAddress properties w) as O.
  destruct (fst (optimizeRoute h officeAddress properties w)) as [plan|e];
    [|apply O].
  destruct O as (ordered & k & _ & _ & _ & _ & _ & N & _ & L). now split.
Qed.

(** A provider that answers OK with a leg per stop and one back: the attempt
    at provider mode raises all the same, and the plan returned is the
    simulated one. *)
Lemma online_provider_raises :
  fst (optimizeWithGoogleAPI (Demo.online 3) Demo.office Demo.threeStops start)
  = Throw (ReferenceError "optimizedProperties is not defined")
  /\ fst (optimizeRoute (Demo.online 3) Demo.office Demo.threeStops start)
     = fst (simulateRouteOptimization (Demo.online 3) Demo.office Demo.threeStops
              (mkWorld 1 0)).
Proof. split; vm_compute; reflexivity. Qed.


End RouteTheorems.

Section SimulationTheorems.
Import RouteOptimizer.

(** A draw in [0, 1) gives a whole number of minutes from 10 to 29. *)
Lemma drivingMinutesOf_range (r : Q) :
  (0 <= r)%Q -> (r < 1)%Q -> (10 <= drivingMinutesOf r <= 29)%Z.
Proof.
  intros Lo Hi. unfold drivingMinutesOf.
  assert (A : (0 <= Qfloor (r * 20))%Z).
  { change 0%Z with (Qfloor 0). apply Qfloor_resp_le.
    rewrite <- (Qmult_0_l 20). apply Qmult_le_compat_r; [assumption|discriminate]. }
  assert (B : (Qfloor (r * 20) < 20)%Z).
  { rewrite Zlt_Qlt. apply Qle_lt_trans with (y := (r * 20)%Q); [apply Qfloor_le|].
    change (inject_Z 20) with (1 * 20)%Q.
    apply Qmult_lt_compat_r; [reflexivity|assumption]. }
  lia.
Qed.

(** C9.  When every value of the random source lies in [0, 1), each step
    after the first of a returned plan, one per stop and one for the return
    to the office, is a driving leg of a whole number of minutes between 10
    and 30. *)
Theorem simulated_legs_between_10_and_30 (h : host) (officeAddress : string)
    (properties : list property) (w : world) :
  (forall n, (0 <= random h n)%Q /\ (random h n < 1)%Q) ->
  match fst (optimizeRoute h officeAddress properties w) with
  | Ok plan =>
      length (tl (steps plan)) = length properties + 1
      /\ Forall simulatedLeg (tl (steps plan))
  | Throw _ => exists p, In p properties /\ inheritedCity p
  end.
Proof.
  intros U.
  pose proof (optimizeRoute_outcome h officeAddress properties w) as O.
  destruct (fst (optimizeRoute h officeAddress properties w)) as [plan|e];
    [|apply O].
  destruct O as (ordered & k & _ & P & _ & _ & _ & _ & D & L).
  split.
  - destruct (steps plan); simpl in *; lia.
  - clear L. induction D as [|s n l ns Hs _ IH]; constructor; [|assumption].
    exists (drivingMinutesOf (random h n)). split; [|exact Hs].
    destruct (U n) as [Lo Hi].
    pose proof (drivingMinutesOf_range _ Lo Hi). lia.
Qed.

Lemma offline_random_in_unit (n : nat) :
  (0 <= random Demo.offline n)%Q /\ (random Demo.offline n < 1)%Q.
Proof.
  unfold Demo.offline, random, Qle, Qlt, Qnum, Qden.
  pose proof (Nat.mod_upper_bound n 10). lia.
Qed.

(** A witness of the previous statement: three stops on a host without
    provider. *)
Lemma simulated_legs_between_10_and_30_witness :
  match fst (optimizeRoute Demo.offline Demo.office Demo.threeStops start) with
  | Ok plan =>
      length (tl (steps plan)) = length Demo.threeStops + 1
      /\ Forall simulatedLeg (tl (steps plan))
  | Throw _ => exists p, In p Demo.threeStops /\ inheritedCity p
  end.
Proof.
  apply (simulated_legs_between_10_and_30 Demo.offline Demo.office Demo.threeStops start).
  exact offline_random_in_unit.
Defined.

(** *** Dependence on the host *)

Lemma insert_ext {B} (c1 c2 : B -> B -> Z) (x : B) (l : list B) :
  (forall a b, c1 a b = c2 a b) -> insert c1 x l = insert c2 x l.
Proof.
  intros E. induction l as [|y l IH]; simpl; [reflexivity|].
  now rewrite E, IH.
Qed.

Lemma sort_ext {B} (c1 c2 : B -> B -> Z) (l : list B) :
  (forall a b, c1 a b = c2 a b) -> sort c1 l = sort c2 l.
Proof.
  intros E. induction l as [|x l IH]; simpl; [reflexivity|].
  rewrite IH. now apply insert_ext.
Qed.

(** The visiting order takes nothing from the host but [localeCompare]. *)
Lemma simulateOptimalOrder_host (h1 h2 : host) (properties : list property) :
  localeCompare h1 = localeCompare h2 ->
  simulateOptimalOrder h1 properties = simulateOptimalOrder h2 properties.
Proof.
  intros E. unfold simulateOptimalOrder.
  destruct (groupAll [] properties) as [grouped|e]; simpl; [|reflexivity].
  unfold getCityPriority.
  rewrite (sort_ext (compareCities h1) (compareCities h2))
    by (intros a b; unfold compareCities; now rewrite E).
  generalize (@nil property).
  induction (sort (compareCities h2) (objectKeys grouped)) as [|c cs IH];
    intros optimized; simpl; [reflexivity|].
  unfold addCity.
  destruct (Js.get grouped c) as [b| |]; simpl; [|reflexivity|reflexivity].
  rewrite (sort_ext (compareStreets h1) (compareStreets h2))
    by (intros x y; unfold compareStreets; now rewrite E).
  apply IH.
Qed.

(** *** The shared instances *)

Lemma scanStreetOn_new (rest : list string) (i : nat) (streetName : list string)
    (streetType : AddressParser.streetTypeValue) :
  Instances.scanStreetOn Instances.newAddressParser rest i streetName streetType
  = AddressParser.scanStreet rest i streetName streetType.
Proof.
  revert i streetName streetType.
  induction rest as [|part rest IH]; intros i streetName streetType; [reflexivity|].
  cbn [Instances.scanStreetOn AddressParser.scanStreet].
  change (Instances.thisStreetSuffixes Instances.newAddressParser)
    with AddressParser.streetSuffixes.
  destruct (Js.get AddressParser.streetSuffixes part); try reflexivity.
  destruct (AddressParser.isLikelyCity part (part :: rest)); [reflexivity|apply IH].
Qed.

(** A call of [normalize] on the parser as constructed returns what the
    function of the tokens returns, and leaves the parser as it was. *)
Lemma normalizeOn_new (parts : list string) :
  Instances.normalizeOn Instances.newAddressParser parts
  = (AddressParser.normalize parts, Instances.newAddressParser).
Proof.
  unfold Instances.normalizeOn, AddressParser.normalize.
  destruct (length parts <? 3); [reflexivity|].
  unfold Instances.intelligentAddressParsingOn, AddressParser.intelligentAddressParsing,
    AddressParser.parseComponents.
  destruct (match parts with
            | [] => ("", "", 0)
            | [p0] => _
            | p0 :: p1 :: _ => _
            end) as [[unitNumber streetNumber] i].
  rewrite scanStreetOn_new.
  destruct (AddressParser.scanStreet (skipn i parts) i [] (AddressParser.TypeString ""))
    as [[i' streetName] streetType].
  destruct (AddressParser.extractCityPart parts i' streetName) as [[city i''] streetName'].
  destruct (AddressParser.formatAddress _) as [address|e]; reflexivity.
Qed.

Lemma parserAfter_new (earlier : list (list string)) :
  parserAfter earlier = Instances.newAddressParser.
Proof.
  unfold parserAfter. induction earlier as [|parts earlier IH]; [reflexivity|].
  cbn [fold_left]. rewrite normalizeOn_new. exact IH.
Qed.

(** A loop over patterns that stand at [lastIndex] 0 runs the matches of
    each pattern from the start of the text, and leaves the patterns at
    [lastIndex] 0. *)
Lemma forPatterns_literal {S : Type}
    (body : DocumentProcessor.regExp -> S -> Regex.matched -> DocumentProcessor.completion S)
    (text : string) (patterns : list DocumentProcessor.regExp) (s : S) :
  Instances.forPatterns body text (map Instances.literal patterns) s
  = (DocumentProcessor.forEach
       (fun s p =>
          DocumentProcessor.forEach (body p)
            (Regex.matchAll (DocumentProcessor.ignoreCase p) (DocumentProcessor.expr p) text) s)
       patterns s,
     map Instances.literal patterns).
Proof.
  revert s. induction patterns as [|p patterns IH]; intros s; [reflexivity|].
  cbn [map Instances.forPatterns DocumentProcessor.forEach Instances.matchAllOf
       Instances.literal Instances.compiled Instances.lastIndex].
  fold (Instances.literal p).
  change (Regex.scan (DocumentProcessor.ignoreCase p) (DocumentProcessor.expr p) 0 None text)
    with (Regex.matchAll (DocumentProcessor.ignoreCase p) (DocumentProcessor.expr p) text).
  destruct (DocumentProcessor.forEach (body p) _ s) as [s' [e|]]; [reflexivity|].
  rewrite IH. reflexivity.
Qed.

(** A call of [extract] on the processor as constructed returns what the
    function of the text returns, and leaves the processor as it was. *)
Lemma parsePropertyInfoOn_new (text : string) :
  Instances.parsePropertyInfoOn Instances.newDocumentProcessor text
  = (DocumentProcessor.parsePropertyInfo text, Instances.newDocumentProcessor).
Proof.
  unfold Instances.parsePropertyInfoOn, DocumentProcessor.parsePropertyInfo.
  change (Instances.thisMlsPatterns Instances.newDocumentProcessor)
    with (map Instances.literal DocumentProcessor.mlsPatterns).
  change (Instances.thisAddressPatterns Instances.newDocumentProcessor)
    with (map Instances.literal DocumentProcessor.addressPatterns).
  rewrite !forPatterns_literal.
  fold (DocumentProcessor.scanMls text). fold (DocumentProcessor.scanAddresses text).
  destruct (DocumentProcessor.scanMls text) as [numbers [e|]]; [reflexivity|].
  destruct (DocumentProcessor.scanAddresses text) as [found [e|]]; reflexivity.
Qed.

Lemma processorAfter_new (earlier : list string) :
  processorAfter earlier = Instances.newDocumentProcessor.
Proof.
  unfold processorAfter. induction earlier as [|text earlier IH]; [reflexivity|].
  cbn [fold_left]. rewrite parsePropertyInfoOn_new. exact IH.
Qed.

(** C10, as stated, fails for [planRoute]: on the same office and the same
    stops, two hosts that differ in their random source alone return
    different plans. *)
Lemma planRoute_depends_on_random_source :
  fst (optimizeRoute Demo.offline Demo.office Demo.threeStops start)
  <> fst (optimizeRoute Demo.offlineSteady Demo.office Demo.threeStops start).
Proof. vm_compute. discriminate. Qed.

(** C10, amended.  [normalize] and [extract] are methods of objects the
    server shares between requests.  Whatever calls came before, a call
    finds the parser with the suffix table of its constructor and the
    processor with every pattern at [lastIndex] 0, returns what the
    function of its argument returns, and leaves the object as it found
    it; a processor whose MLS patterns stood at another [lastIndex] would
    return something else.  Of a plan, the sequence of steps with their
    types, addresses, visit durations and MLS numbers, the map link and the
    note are determined by the office, the stops and the string comparison
    of the host; the clock, the time format, the provider and the random
    source, on which arrival times, leg durations and the total duration
    depend, have no part in them. *)
Theorem planRoute_itinerary_is_determined (h1 h2 : host) (officeAddress : string)
    (properties : list property) (w1 w2 : world) :
  localeCompare h1 = localeCompare h2 ->
  match fst (optimizeRoute h1 officeAddress properties w1),
        fst (optimizeRoute h2 officeAddress properties w2) with
  | Ok plan1, Ok plan2 =>
      map skeleton (steps plan1) = map skeleton (steps plan2)
      /\ googleMapsUrl plan1 = googleMapsUrl plan2
      /\ optimizationNotes plan1 = optimizationNotes plan2
  | Throw e1, Throw e2 => e1 = e2
  | _, _ => False
  end
  /\ (forall earlier parts,
         parserAfter earlier = Instances.newAddressParser
         /\ Instances.normalizeOn (parserAfter earlier) parts
            = (AddressParser.normalize parts, parserAfter earlier))
  /\ (forall earlier text,
         processorAfter earlier = Instances.newDocumentProcessor
         /\ Forall (fun re => Instances.lastIndex re = 0)
              (Instances.thisMlsPatterns (processorAfter earlier)
               ++ Instances.thisAddressPatterns (processorAfter earlier))
         /\ Instances.parsePropertyInfoOn (processorAfter earlier) text
            = (DocumentProcessor.parsePropertyInfo text, processorAfter earlier))
  /\ DocumentProcessor.mlsNumbers
       (fst (Instances.parsePropertyInfoOn staleProcessor "mls# w12372194")) = []
  /\ DocumentProcessor.mlsNumbers (DocumentProcessor.parsePropertyInfo "mls# w12372194")
     = ["W12372194"].
Proof.
  intros E. split; [|split; [|split; [|split; reflexivity]]].
  - pose proof (optimizeRoute_outcome h1 officeAddress properties w1) as O1.
    pose proof (optimizeRoute_outcome h2 officeAddress properties w2) as O2.
    rewrite (simulateOptimalOrder_host h1 h2 properties E) in O1.
    destruct (fst (optimizeRoute h1 officeAddress properties w1)) as [plan1|e1],
             (fst (optimizeRoute h2 officeAddress properties w2)) as [plan2|e2].
    + destruct O1 as (o1 & k1 & S1 & _ & _ & K1 & U1 & N1 & _).
      destruct O2 as (o2 & k2 & S2 & _ & _ & K2 & U2 & N2 & _).
      assert (o1 = o2) by congruence. subst o2.
      repeat split; congruence.
    + destruct O1 as (o1 & k1 & S1 & _). destruct O2 as (S2 & _). congruence.
    + destruct O2 as (o2 & k2 & S2 & _). destruct O1 as (S1 & _). congruence.
    + destruct O1 as (S1 & _). destruct O2 as (S2 & _). congruence.
  - intros earlier parts. rewrite parserAfter_new. split; [reflexivity|].
    apply normalizeOn_new.
  - intros earlier text. rewrite processorAfter_new. split; [reflexivity|]. split.
    + apply Forall_app. split; apply Forall_forall; intros re I;
        apply in_map_iff in I as (p & <- & _); reflexivity.
    + apply parsePropertyInfoOn_new.
Qed.

(** A witness of the previous statement: the two hosts of the
    counterexample, after three earlier calls of each method. *)
Lemma planRoute_itinerary_is_determined_witness :
  match fst (optimizeRoute Demo.offline Demo.office Demo.threeStops start),
        fst (optimizeRoute Demo.offlineSteady Demo.office Demo.threeStops start) with
  | Ok plan1, Ok plan2 =>
      map skeleton (steps plan1) = map skeleton (steps plan2)
      /\ googleMapsUrl plan1 = googleMapsUrl plan2
      /\ optimizationNotes plan1 = optimizationNotes plan2
  | Throw e1, Throw e2 => e1 = e2
  | _, _ => False
  end
  /\ Instances.normalizeOn
       (parserAfter [["12"; "main"; "st"; "toronto"]; ["a"]; ["1"; "constructor"; "x"]])
       ["12"; "main"; "st"; "toronto"]
     = (AddressParser.normalize ["12"; "main"; "st"; "toronto"], Instances.newAddressParser)
  /\ Instances.parsePropertyInfoOn
       (processorAfter ["MLS# W12372194"; "3 bedrooms"; "mls# w12372194"]) "mls# w12372194"
     = (DocumentProcessor.parsePropertyInfo "mls# w12372194", Instances.newDocumentProcessor).
Proof.
  destruct (planRoute_itinerary_is_determined Demo.offline Demo.offlineSteady
              Demo.office Demo.threeStops start start eq_refl) as (P & N & X & _).
  split; [exact P|]. split.
  - destruct (N [["12"; "main"; "st"; "toronto"]; ["a"]; ["1"; "constructor"; "x"]]
                ["12"; "main"; "st"; "toronto"]) as (A & B).
    rewrite B, A. reflexivity.
  - destruct (X ["MLS# W12372194"; "3 bedrooms"; "mls# w12372194"] "mls# w12372194")
      as (A & _ & B).
    rewrite B, A. reflexivity.
Defined.

End SimulationTheorems.

(* ================================================================== *)
(** ** Further properties: characters and strings *)
(* ================================================================== *)

Section CharacterFacts.

(** Every character, for proofs by enumeration. *)
Lemma all_characters (f : ascii -> bool) :
  forallb f (map ascii_of_nat (seq 0 256)) = true -> forall a, f a = true.
Proof.
  intros H a. rewrite forallb_forall in H. apply H.
  rewrite <- (ascii_nat_embedding a). apply in_map, in_seq.
  pose proof (nat_ascii_bounded a). lia.
Qed.

Lemma all_character_pairs (f : ascii -> ascii -> bool) :
  forallb (fun c => forallb (f c) (map ascii_of_nat (seq 0 256)))
          (map ascii_of_nat (seq 0 256)) = true ->
  forall c a, f c a = true.
Proof.
  intros H c a.
  apply (all_characters (f c)).
  apply (all_characters (fun c => forallb (f c) (map ascii_of_nat (seq 0 256)))).
  exact H.
Qed.

Lemma length_append (s t : string) :
  String.length (s +++ t) = String.length s + String.length t.
Proof. induction s as [|c s IH]; simpl; [reflexivity|now rewrite IH]. Qed.

Lemma append_assoc (s t u : string) : (s +++ t) +++ u = s +++ t +++ u.
Proof. induction s as [|c s IH]; simpl; [reflexivity|now rewrite IH]. Qed.

Lemma append_empty (s : string) : s +++ "" = s.
Proof. induction s as [|c s IH]; simpl; [reflexivity|now rewrite IH]. Qed.

Lemma allChars_append (p : ascii -> bool) (s t : string) :
  allChars p (s +++ t) = allChars p s && allChars p t.
Proof.
  induction s as [|c s IH]; simpl; [reflexivity|].
  now rewrite IH, andb_assoc.
Qed.

Lemma allChars_impl (p q : ascii -> bool) (s : string) :
  (forall c, p c = true -> q c = true) -> allChars p s = true -> allChars q s = true.
Proof.
  intros I. induction s as [|c s IH]; simpl; [reflexivity|].
  rewrite !andb_true_iff. intros [H1 H2]. split; auto.
Qed.

End CharacterFacts.

(* ================================================================== *)
(** ** Further properties: what the matcher matches *)
(* ================================================================== *)

Section MatcherSoundness.
Import Regex.
Variable ci : bool.
Variable P : nat -> string -> Prop.

Lemma take_append (w t : string) : take (String.length w) (w +++ t) = w.
Proof. induction w as [|c w IH]; simpl; [now destruct t|now rewrite IH]. Qed.

Lemma consumed_append (w t : string) : consumed (w +++ t) t = w.
Proof.
  unfold consumed. rewrite length_append.
  replace (String.length w + String.length t - String.length t) with (String.length w)
    by lia.
  apply take_append.
Qed.

(** A successful repetition has read a run of characters of the class, of
    a length within the bounds, before it called its continuation. *)
Lemma repeat_sound (p : ascii -> bool) (k : state -> option state)
    (cs : list (nat * string)) (s : string) :
  forall lo hi pv st',
    repeat ci p k cs lo hi pv s = Some st' ->
    exists w st1,
      s = w +++ rest st1
      /\ allChars (clsMatch ci p) w = true
      /\ lo <= String.length w
      /\ match hi with Some n => String.length w <= n | None => True end
      /\ k st1 = Some st' /\ caps st1 = cs.
Proof.
  induction s as [|a s IH]; intros lo hi pv st' H; simpl in H.
  - destruct (Nat.eqb_spec lo 0); [|discriminate].
    exists "", (mkState pv "" cs). subst lo. simpl.
    repeat split; auto. destruct hi; lia.
  - assert (Stop : (if lo =? 0 then k (mkState pv (String a s) cs) else None) = Some st' ->
                   exists w st1,
                     String a s = w +++ rest st1
                     /\ allChars (clsMatch ci p) w = true
                     /\ lo <= String.length w
                     /\ match hi with Some n => String.length w <= n | None => True end
                     /\ k st1 = Some st' /\ caps st1 = cs).
    { destruct (Nat.eqb_spec lo 0); [|discriminate]. intros E.
      exists "", (mkState pv (String a s) cs). subst lo. simpl.
      repeat split; auto. destruct hi; lia. }
    destruct (negb (exhausted hi)) eqn:X; simpl in H; [|now apply Stop].
    destruct (clsMatch ci p a) eqn:C; [|now apply Stop].
    destruct (repeat ci p k cs (pred lo) (decr hi) (Some a) s) as [st|] eqn:E;
      [|now apply Stop].
    injection H as <-.
    apply IH in E as (w & st1 & -> & A & L & U & K & Cs).
    exists (String a w), st1. simpl. rewrite C, A.
    repeat split; auto; [lia|].
    destruct hi as [[|n]|]; simpl in *; try discriminate; try lia; exact I.
Qed.

(** A successful run has read a string of the language of its expression
    before it called its continuation, and has added only captures that
    satisfy [P]. *)
Lemma run_sound (r : regex) :
  groupsSatisfy ci P r ->
  forall k st st',
    run ci r k st = Some st' ->
    exists w st1,
      rest st = w +++ rest st1
      /\ lang ci r w
      /\ k st1 = Some st'
      /\ (capturesSatisfy P (caps st) -> capturesSatisfy P (caps st1)).
Proof.
  induction r as [c|p|r1 IH1 r2 IH2|r1 IH1 r2 IH2|r1 IH1|p lo hi|n r1 IH1| |];
    intros G k st st' H; simpl in H.
  - destruct (rest st) as [|a s'] eqn:R; [discriminate|].
    destruct (chrMatch ci c a) eqn:C; [|discriminate].
    exists (String a ""), (mkState (Some a) s' (caps st)). simpl. eauto 8.
  - destruct (rest st) as [|a s'] eqn:R; [discriminate|].
    destruct (clsMatch ci p a) eqn:C; [|discriminate].
    exists (String a ""), (mkState (Some a) s' (caps st)). simpl. eauto 8.
  - destruct G as [G1 G2].
    apply (IH1 G1) in H as (w1 & st1 & R1 & L1 & H1 & C1).
    apply (IH2 G2) in H1 as (w2 & st2 & R2 & L2 & H2 & C2).
    exists (w1 +++ w2), st2. rewrite R1, R2, append_assoc.
    repeat split; auto. simpl. eauto.
  - destruct G as [G1 G2].
    destruct (run ci r1 k st) as [x|] eqn:E.
    + injection H as <-. apply (IH1 G1) in E as (w & st1 & R & L & K & C).
      exists w, st1. simpl. auto.
    + apply (IH2 G2) in H as (w & st1 & R & L & K & C).
      exists w, st1. simpl. auto.
  - destruct (run ci r1 k st) as [x|] eqn:E.
    + injection H as <-. apply (IH1 G) in E as (w & st1 & R & L & K & C).
      exists w, st1. simpl. auto.
    + exists "", st. simpl. auto.
  - apply repeat_sound in H as (w & st1 & R & A & L & U & K & C).
    exists w, st1. simpl. rewrite C. auto 6.
  - destruct G as [Gn G1].
    apply (IH1 G1) in H as (w & st1 & R & L & K & C).
    eexists w, _. split; [|split; [exact L|split; [exact K|]]].
    + exact R.
    + simpl. intros Cs. constructor; [|now apply C].
      simpl. rewrite R, consumed_append. now apply Gn.
  - destruct (xorb (wordBefore st) (wordAfter st)); [|discriminate].
    exists "", st. simpl. auto.
  - exists "", st. simpl. auto.
Qed.

Lemma matchAt_sound (r : regex) (pv : option ascii) (s : string) (m : matched) :
  groupsSatisfy ci P r ->
  matchAt ci r pv s = Some m ->
  lang ci r (whole m) /\ capturesSatisfy P (groups m)
  /\ exists t, s = whole m +++ t.
Proof.
  intros G. unfold matchAt.
  destruct (run ci r Some (mkState pv s [])) as [st|] eqn:E; [|discriminate].
  intros H; injection H as <-. simpl.
  apply (run_sound r G) in E as (w & st1 & R & L & K & C).
  injection K as ->. simpl in R. subst s. rewrite consumed_append.
  repeat split; [assumption|apply C; constructor|eauto].
Qed.

(** Every match of a scan is a string of the language, with captures that
    satisfy [P]. *)
Lemma scan_sound (r : regex) (s : string) :
  groupsSatisfy ci P r ->
  forall skip pv,
    Forall (fun m => lang ci r (whole m) /\ capturesSatisfy P (groups m))
           (scan ci r skip pv s).
Proof.
  intros G. induction s as [|a s IH]; intros skip pv; simpl.
  - destruct skip; [|constructor].
    destruct (matchAt ci r pv "") eqn:E; constructor; [|constructor].
    apply (matchAt_sound _ _ _ _ G) in E. tauto.
  - destruct skip; [|apply IH].
    destruct (matchAt ci r pv (String a s)) eqn:E; [|apply IH].
    constructor; [|apply IH].
    apply (matchAt_sound _ _ _ _ G) in E. tauto.
Qed.

Lemma search_sound (r : regex) (s : string) :
  groupsSatisfy ci P r ->
  forall pv m, search ci r pv s = Some m ->
               lang ci r (whole m) /\ capturesSatisfy P (groups m).
Proof.
  intros G. induction s as [|a s IH]; intros pv m; simpl.
  - destruct (matchAt ci r pv "") eqn:E; [|discriminate].
    intros H; injection H as <-. apply (matchAt_sound _ _ _ _ G) in E. tauto.
  - destruct (matchAt ci r pv (String a s)) eqn:E.
    + intros H; injection H as <-. apply (matchAt_sound _ _ _ _ G) in E. tauto.
    + apply IH.
Qed.

Lemma group_satisfies (caps : list (nat * string)) (n : nat) (c : string) :
  capturesSatisfy P caps -> group n caps = Some c -> P n c.
Proof.
  induction 1 as [|[m x] caps Hx _ IH]; simpl; [discriminate|].
  destruct (Nat.eqb_spec m n).
  - intros H; injection H as <-. now subst.
  - assumption.
Qed.

End MatcherSoundness.

(* ================================================================== *)
(** ** Further properties: MLS numbers *)
(* ================================================================== *)

Section MlsFacts.
Import Regex DocumentProcessor.

(** A property of characters shown by going through all of them. *)
Lemma character_cases (f g : ascii -> bool) :
  forallb (fun a => implb (f a) (g a)) (map ascii_of_nat (List.seq 0 256)) = true ->
  forall a, f a = true -> g a = true.
Proof.
  intros H a F.
  pose proof (all_characters (fun a => implb (f a) (g a)) H a) as E.
  simpl in E. rewrite F in E. exact E.
Qed.

Lemma class_with_flag (ci : bool) (p : ascii -> bool) (a : ascii) :
  clsMatch ci p a = true -> clsMatch true p a = true.
Proof.
  unfold clsMatch. destruct ci; [auto|].
  rewrite andb_false_l, orb_false_r. now intros ->.
Qed.

Lemma digit_class (ci : bool) (a : ascii) :
  clsMatch ci isDigit a = true -> isDigit a = true /\ toUpperChar a = a.
Proof.
  intros H. apply class_with_flag in H.
  apply (character_cases (clsMatch true isDigit)
           (fun a => isDigit a && Ascii.eqb (toUpperChar a) a)) in H;
    [|vm_compute; reflexivity].
  apply andb_true_iff in H as [D U]. now apply Ascii.eqb_eq in U.
Qed.

Lemma upper_class (ci : bool) (a : ascii) :
  clsMatch ci isUpper a = true -> isUpper (toUpperChar a) = true.
Proof.
  intros H. apply class_with_flag in H.
  now apply (character_cases (clsMatch true isUpper)
               (fun a => isUpper (toUpperChar a))) in H;
    [|vm_compute; reflexivity].
Qed.

Lemma dash_char (ci : bool) (a : ascii) : chrMatch ci "-" a = true -> a = "-"%char.
Proof.
  intros H.
  assert (T : chrMatch true "-" a = true).
  { destruct ci; [assumption|]. unfold chrMatch in *.
    apply Ascii.eqb_eq in H. subst a. reflexivity. }
  apply (character_cases (chrMatch true "-") (fun a => Ascii.eqb a "-")) in T;
    [|vm_compute; reflexivity].
  now apply Ascii.eqb_eq in T.
Qed.

Lemma upper_fixed (a : ascii) : isUpper a = true -> toUpperChar a = a.
Proof.
  intros H.
  apply (character_cases isUpper (fun a => Ascii.eqb (toUpperChar a) a)) in H;
    [|vm_compute; reflexivity].
  now apply Ascii.eqb_eq in H.
Qed.

Lemma upper_not_space (a : ascii) : isUpper a = true -> isSpace a = false.
Proof.
  intros H.
  apply (character_cases isUpper (fun a => negb (isSpace a))) in H;
    [|vm_compute; reflexivity].
  now apply negb_true_iff in H.
Qed.

Lemma digit_not_space (a : ascii) : isDigit a = true -> isSpace a = false.
Proof.
  intros H.
  apply (character_cases isDigit (fun a => negb (isSpace a))) in H;
    [|vm_compute; reflexivity].
  now apply negb_true_iff in H.
Qed.

Lemma digits_class (ci : bool) (ds : string) :
  allChars (clsMatch ci isDigit) ds = true ->
  allChars isDigit ds = true /\ toUpperCase ds = ds.
Proof.
  induction ds as [|d ds IH]; simpl; [auto|].
  rewrite andb_true_iff. intros [D R].
  apply digit_class in D as [D U]. destruct (IH R) as [A E].
  rewrite D, A. unfold toUpperCase in *. simpl. now rewrite U, E.
Qed.

Lemma digits_upper (ds : string) : allChars isDigit ds = true -> toUpperCase ds = ds.
Proof.
  intros H. apply (digits_class false).
  apply (allChars_impl isDigit); [|assumption].
  intros c Hc. unfold clsMatch. now rewrite Hc.
Qed.

Lemma toUpperCase_append (s t : string) :
  toUpperCase (s +++ t) = toUpperCase s +++ toUpperCase t.
Proof.
  unfold toUpperCase. induction s as [|c s IH]; simpl; [reflexivity|now rewrite IH].
Qed.

Lemma trimEnd_kept (s : string) :
  allChars (fun c => negb (isSpace c)) s = true -> trimEnd s = s.
Proof.
  induction s as [|c s IH]; simpl; [reflexivity|].
  rewrite andb_true_iff, negb_true_iff. intros [C R]. rewrite (IH R), C.
  now destruct s.
Qed.

(** A string without white space is left as it is by [trim]. *)
Lemma trim_kept (s : string) :
  allChars (fun c => negb (isSpace c)) s = true -> trim s = s.
Proof.
  intros H. unfold trim.
  assert (E : trimStart s = s).
  { destruct s as [|c s]; [reflexivity|]. simpl in *.
    apply andb_true_iff in H as [C _]. apply negb_true_iff in C. now rewrite C. }
  rewrite E. now apply trimEnd_kept.
Qed.

(** A greedy repetition over a run of characters of the class, followed by
    the end of the input or by a character outside the class, hands the
    rest to its continuation; if that succeeds so does the repetition. *)
Lemma repeat_greedy (ci : bool) (p : ascii -> bool) (k : state -> option state)
    (cs : list (nat * string)) (ds : string) :
  forall lo hi pv t x,
    allChars (clsMatch ci p) ds = true ->
    lo <= String.length ds ->
    match hi with Some n => String.length ds <= n | None => True end ->
    match t with EmptyString => True | String c _ => clsMatch ci p c = false end ->
    k (mkState (lastChar pv ds) t cs) = Some x ->
    repeat ci p k cs lo hi pv (ds +++ t) = Some x.
Proof.
  induction ds as [|d ds IH]; intros lo hi pv t x A L U T K; simpl in *.
  - assert (lo = 0) by lia. subst lo.
    destruct t as [|c t]; simpl; [assumption|].
    now rewrite T, andb_false_r.
  - apply andb_true_iff in A as [D A]. rewrite D.
    assert (X : exhausted hi = false) by (destruct hi as [[|n]|]; simpl; auto; lia).
    rewrite X. simpl.
    rewrite (IH (pred lo) (decr hi) (Some d) t x); auto; [lia|].
    destruct hi as [[|n]|]; simpl in *; auto; lia.
Qed.

Lemma class_without_flag (p : ascii -> bool) (s : string) :
  allChars (clsMatch false p) s = allChars p s.
Proof.
  induction s as [|c s IH]; simpl; [reflexivity|].
  unfold clsMatch at 1. now rewrite andb_false_l, orb_false_r, IH.
Qed.

Lemma testWhole_sound (r : regex) (s : string) :
  testWhole false r s = true -> lang false r s.
Proof.
  unfold testWhole.
  destruct (run false r atEnd (mkState None s [])) as [st|] eqn:E; [|discriminate].
  intros _.
  apply (run_sound false (fun _ _ => True)) in E as (w & st1 & R & L & K & _).
  - unfold atEnd in K. destruct (rest st1); [|discriminate].
    simpl in R. now rewrite R, append_empty.
  - clear. induction r; simpl; auto.
Qed.

Lemma shortForm_valid (s : string) : shortForm s -> isValidMLS s = true.
Proof.
  intros (a & ds & -> & U & D & L).
  unfold isValidMLS, validPatterns. cbn [existsb seq].
  apply orb_true_iff. left.
  unfold testWhole. cbn [run rest caps prev].
  unfold clsMatch at 1. rewrite U. cbn [orb].
  rewrite <- (append_empty ds).
  erewrite repeat_greedy; [reflexivity| | | | |reflexivity]; try lia; auto.
  now rewrite class_without_flag.
Qed.

Lemma dashForm_valid (s : string) : dashForm s -> isValidMLS s = true.
Proof.
  intros (a & ds & tail & -> & U & D & L & T).
  unfold isValidMLS, validPatterns. cbn [existsb seq].
  apply orb_true_iff. right. apply orb_true_iff. left.
  unfold testWhole. cbn [run rest caps prev].
  unfold clsMatch at 1. rewrite U. cbn [orb].
  assert (K : exists x,
             run false (Seq (Chr "-") (maybe isUpper)) atEnd
               (mkState (lastChar (Some a) ds) ("-" +++ tail) []) = Some x).
  { cbn [run rest caps prev append]. unfold chrMatch. rewrite Ascii.eqb_refl.
    unfold maybe. cbn [run rest caps prev].
    destruct T as [->|(b & -> & B)]; simpl.
    - unfold atEnd. simpl. eauto.
    - unfold clsMatch. rewrite B. simpl. unfold atEnd. simpl. eauto. }
  destruct K as (x & K).
  erewrite repeat_greedy; [reflexivity| | | | |exact K]; try lia; auto.
  - now rewrite class_without_flag.
  - reflexivity.
Qed.

Lemma valid_has_shape (s : string) :
  isValidMLS s = true -> shortForm s \/ dashForm s.
Proof.
  unfold isValidMLS, validPatterns. cbn [existsb seq].
  rewrite !orb_true_iff. intros [H|[H|H]]; [| |discriminate];
    apply testWhole_sound in H; unfold maybe in H; cbn [lang seq] in H.
  - left. destruct H as (w1 & w2 & -> & (a & -> & A) & D & L & U).
    exists a, w2. unfold clsMatch in A.
    rewrite andb_false_l, orb_false_r in A.
    rewrite class_without_flag in D. repeat split; auto.
  - right.
    destruct H as (w1 & w2 & -> & (a & -> & A) & w3 & w4 & -> & (D & L & U)
                   & w5 & w6 & -> & (d & -> & Hd) & T & _ & T1).
    apply dash_char in Hd. subst d.
    unfold clsMatch in A. rewrite andb_false_l, orb_false_r in A.
    rewrite class_without_flag in D, T.
    exists a, w3, w6. repeat split; auto.
    destruct w6 as [|b [|c w6]]; simpl in *; [now left| |lia].
    right. exists b. split; [reflexivity|].
    now rewrite andb_true_r in T.
Qed.

(** X2.  [isValidMLS] accepts exactly the two shapes: an upper-case letter
    and 7 or 8 digits; or an upper-case letter, 6 or 7 digits, a dash and
    at most one more upper-case letter. *)
Theorem isValidMLS_shapes (s : string) :
  isValidMLS s = true <-> shortForm s \/ dashForm s.
Proof.
  split; [apply valid_has_shape|].
  intros [H|H]; [now apply shortForm_valid|now apply dashForm_valid].
Qed.

End MlsFacts.

Section ExtractedMlsFacts.
Import Regex DocumentProcessor.

Lemma short_capture (ci : bool) (w : string) :
  lang ci (Seq (Cls isUpper) (Rep isDigit 7 (Some 8))) w ->
  shortForm (trim (toUpperCase w)).
Proof.
  intros (w1 & ds & -> & (a & -> & A) & D & L).
  apply upper_class in A. apply digits_class in D as [D E].
  simpl. unfold toUpperCase in *. simpl. rewrite E.
  rewrite trim_kept.
  - exists (toUpperChar a), ds. auto.
  - simpl. rewrite (upper_not_space _ A). simpl.
    apply (allChars_impl isDigit); [|assumption].
    intros c Hc. now rewrite (digit_not_space _ Hc).
Qed.

Lemma dash_capture (ci : bool) (w : string) :
  lang ci (seq [Cls isUpper; Rep isDigit 6 (Some 7); Chr "-"; maybe isUpper]) w ->
  dashForm (trim (toUpperCase w)).
Proof.
  unfold maybe. cbn [lang seq].
  intros (w1 & w2 & -> & (a & -> & A) & ds & w4 & -> & (D & L)
          & w5 & tail & -> & (d & -> & Hd) & T & _ & T1).
  apply dash_char in Hd. subst d.
  apply upper_class in A. apply digits_class in D as [D E].
  assert (Tail : exists tail',
             toUpperCase tail = tail'
             /\ (tail' = "" \/ exists b, tail' = String b "" /\ isUpper b = true)).
  { destruct tail as [|b [|c tail]].
    - exists "". split; [reflexivity|now left].
    - cbn [allChars] in T. rewrite andb_true_r in T. apply upper_class in T.
      exists (String (toUpperChar b) ""). split; [reflexivity|]. right. eauto.
    - simpl in T1. lia. }
  destruct Tail as (tail' & Et & Ht).
  assert (U : toUpperCase (String a "" +++ ds +++ String "-" "" +++ tail)
              = String (toUpperChar a) (ds +++ "-" +++ tail')).
  { rewrite !toUpperCase_append, E, Et. reflexivity. }
  rewrite U, trim_kept.
  - exists (toUpperChar a), ds, tail'. auto.
  - simpl. rewrite (upper_not_space _ A). simpl.
    rewrite allChars_append. apply andb_true_iff. split.
    + apply (allChars_impl isDigit); [|assumption].
      intros c Hc. now rewrite (digit_not_space _ Hc).
    + simpl. destruct Ht as [->|(b & -> & B)]; simpl; [reflexivity|].
      now rewrite (upper_not_space _ B).
Qed.

Lemma mlsPatterns_captures :
  Forall (fun p => groupsSatisfy (ignoreCase p) validCapture (expr p)) mlsPatterns.
Proof.
  unfold mlsPatterns, mlsId.
  repeat apply Forall_cons; try apply Forall_nil;
    cbn -[lang validCapture]; repeat split;
    intros w H; unfold validCapture;
    first [ apply shortForm_valid; eapply short_capture; exact H
          | apply dashForm_valid; eapply dash_capture; exact H ].
Qed.

Lemma extracted_number_valid (text id : string) :
  In id (mlsNumbers (parsePropertyInfo text)) -> isValidMLS id = true.
Proof.
  rewrite parsePropertyInfo_mlsNumbers. intros Hin.
  apply firstOccurrences_In, filter_In in Hin as [Hin _].
  unfold mlsCandidates in Hin.
  apply in_flat_map in Hin as (p & Hp & Hin).
  apply in_map_iff in Hin as (m & <- & Hm).
  pose proof mlsPatterns_captures as G. rewrite Forall_forall in G.
  pose proof mlsPatterns_mandatory as M. rewrite Forall_forall in M.
  pose proof (scan_sound (ignoreCase p) validCapture (expr p) text (G p Hp) 0 None) as S.
  pose proof (scan_mandatory (ignoreCase p) (expr p) 1 text (M p Hp) 0 None) as C.
  rewrite Forall_forall in S, C.
  specialize (S m Hm). specialize (C m Hm). destruct S as [_ S].
  unfold captured in C.
  destruct (group 1 (groups m)) as [c|] eqn:E; [|congruence].
  simpl. exact (group_satisfies validCapture _ _ _ S E).
Qed.

(** *** Identifiers under a label *)














(** X1.  Every identifier [parsePropertyInfo] returns is one that
    [isValidMLS] accepts: the loop that collects them needs no check of
    its own. *)
Theorem extracted_mls_numbers_are_valid (text : string) :
  Forall (fun n => isValidMLS n = true) (mlsNumbers (parsePropertyInfo text)).
Proof.
  apply Forall_forall. intros id Hin. now apply (extracted_number_valid text).
Qed.

End ExtractedMlsFacts.

(* ================================================================== *)
(** ** Further properties: the address scan *)
(* ================================================================== *)

Section MatcherMonotony.
Import Regex.
Variable ci : bool.

Lemma repeat_mono (p : ascii -> bool) (k k' : state -> option state)
    (cs : list (nat * string)) (s : string) :
  extends k k' ->
  forall lo hi pv x,
    repeat ci p k cs lo hi pv s = Some x ->
    exists y, repeat ci p k' cs lo hi pv s = Some y.
Proof.
  intros E. induction s as [|a s IH]; intros lo hi pv x H; simpl in *.
  - destruct (lo =? 0); [eauto|discriminate].
  - assert (Stop : (if lo =? 0 then k (mkState pv (String a s) cs) else None) = Some x ->
                   exists y, (if lo =? 0 then k' (mkState pv (String a s) cs) else None)
                             = Some y).
    { destruct (lo =? 0); [eauto|discriminate]. }
    destruct (negb (exhausted hi) && clsMatch ci p a); [|auto].
    destruct (repeat ci p k cs (pred lo) (decr hi) (Some a) s) as [z|] eqn:R.
    + apply IH in R as (y & ->). eauto.
    + destruct (repeat ci p k' cs (pred lo) (decr hi) (Some a) s); [eauto|auto].
Qed.

(** An expression that matches before one continuation matches before
    every continuation that succeeds wherever the first does. *)
Lemma run_mono (r : regex) :
  forall k k' st x,
    extends k k' ->
    run ci r k st = Some x -> exists y, run ci r k' st = Some y.
Proof.
  induction r as [c|p|r1 IH1 r2 IH2|r1 IH1 r2 IH2|r1 IH1|p lo hi|n r1 IH1| |];
    intros k k' st x E H; simpl in *.
  - destruct (rest st); [discriminate|]. destruct (chrMatch ci c a); [eauto|discriminate].
  - destruct (rest st); [discriminate|]. destruct (clsMatch ci p a); [eauto|discriminate].
  - apply (IH1 _ (run ci r2 k')) in H; [assumption|].
    intros st1 x1 H1. eapply IH2; eauto.
  - destruct (run ci r1 k st) as [z|] eqn:R.
    + apply (IH1 _ k' _ _ E) in R as (y & ->). eauto.
    + destruct (run ci r1 k' st); [eauto|]. eapply IH2; eauto.
  - destruct (run ci r1 k st) as [z|] eqn:R.
    + apply (IH1 _ k' _ _ E) in R as (y & ->). eauto.
    + destruct (run ci r1 k' st); [eauto|]. eapply E; eauto.
  - eapply repeat_mono; eauto.
  - eapply IH1; [|exact H]. intros st1 x1 H1. eapply E; eauto.
  - destruct (xorb (wordBefore st) (wordAfter st)); [eauto|discriminate].
  - eauto.
Qed.

Lemma search_none (r : regex) (s : string) :
  forall pv, scan ci r 0 pv s = [] -> search ci r pv s = None.
Proof.
  induction s as [|a s IH]; intros pv; simpl.
  - destruct (matchAt ci r pv ""); [discriminate|reflexivity].
  - destruct (matchAt ci r pv (String a s)); [discriminate|apply IH].
Qed.

Lemma scan_none (r : regex) (s : string) :
  forall skip pv, search ci r pv s = None -> scan ci r skip pv s = [].
Proof.
  induction s as [|a s IH]; intros skip pv; simpl.
  - destruct skip; [|reflexivity]. destruct (matchAt ci r pv ""); [discriminate|reflexivity].
  - destruct (matchAt ci r pv (String a s)); [discriminate|].
    intros H. destruct skip; now apply IH.
Qed.

Lemma search_weaker (r1 r2 : regex) (s : string) :
  (forall pv t, matchAt ci r1 pv t <> None -> matchAt ci r2 pv t <> None) ->
  forall pv, search ci r2 pv s = None -> search ci r1 pv s = None.
Proof.
  intros W. induction s as [|a s IH]; intros pv; simpl.
  - specialize (W pv "").
    destruct (matchAt ci r2 pv ""); [discriminate|].
    destruct (matchAt ci r1 pv ""); [|reflexivity]. exfalso. apply W; congruence.
  - specialize (W pv (String a s)).
    destruct (matchAt ci r2 pv (String a s)); [discriminate|].
    destruct (matchAt ci r1 pv (String a s)); [exfalso; apply W; congruence|apply IH].
Qed.

(** A text without a match of [r2] has no match of an expression that
    matches only where [r2] does. *)
Lemma matchAll_weaker (r1 r2 : regex) (text : string) :
  extends (run ci r1 Some) (run ci r2 Some) ->
  matchAll ci r2 text = [] -> matchAll ci r1 text = [].
Proof.
  unfold matchAll. intros W H. apply scan_none.
  apply (search_weaker _ r2); [|now apply search_none].
  intros pv t. unfold matchAt.
  destruct (run ci r1 Some (mkState pv t [])) as [x|] eqn:E; [|congruence].
  apply W in E as (y & ->). discriminate.
Qed.

End MatcherMonotony.

Section AddressScanFacts.
Import Regex DocumentProcessor.

Lemma forEach_raises {S X : Type} (body : S -> X -> completion S) (xs : list X) (s : S) :
  xs <> [] ->
  (forall x, In x xs -> exists e, body s x = (s, Some e)) ->
  exists e, forEach body xs s = (s, Some e).
Proof.
  destruct xs as [|x xs]; [congruence|]. intros _ H.
  destruct (H x (or_introl eq_refl)) as (e & E). simpl. rewrite E. eauto.
Qed.

Lemma group_absent (caps : list (nat * string)) (n : nat) :
  capturesSatisfy (fun m _ => m <> n) caps -> group n caps = None.
Proof.
  intros C. destruct (group n caps) as [c|] eqn:E; [|reflexivity].
  now pose proof (group_satisfies _ _ _ _ C E).
Qed.

(** The street-only expression has groups 1 and 2 only. *)
Lemma street_only_groups :
  groupsSatisfy true (fun m _ => m <> 3)
    (seq [unitPart; plus isSpace; streetPart]).
Proof.
  unfold unitPart, streetPart. cbn -[lang]. repeat split; intros; lia.
Qed.

(** On a match of the street-only expression the callback raises: with a
    [match.length] of 3 it reads [match[3].trim()]. *)
Lemma addAddress_street_only (text : string) (addresses : list string) (m : matched) :
  In m (matchAll true (seq [unitPart; plus isSpace; streetPart]) text) ->
  exists e, addAddress 3 addresses m = (addresses, Some e).
Proof.
  intros Hin.
  pose proof (scan_sound true _ _ text street_only_groups 0 None) as S.
  rewrite Forall_forall in S. destruct (S m Hin) as [_ C].
  apply group_absent in C.
  unfold addAddress, buildAddress. cbn [Nat.leb]. rewrite C.
  destruct (group 2 (groups m)); simpl; eauto.
Qed.

(** The two longer address expressions match only where the street-only
    one does. *)
Lemma street_only_weakest (k : state -> option state) (more : regex) :
  extends (run true (Seq unitPart (Seq (plus isSpace) (Seq streetPart more))) k)
          (run true (Seq unitPart (Seq (plus isSpace) streetPart)) Some).
Proof.
  cbn [run]. intros st x H.
  eapply run_mono; [|exact H].
  intros st1 x1 H1. eapply run_mono; [|exact H1].
  intros st2 x2 H2. eapply run_mono; [|exact H2].
  intros st3 x3 _. eauto.
Qed.

Lemma scanAddresses_quiet (text : string) (found : list string) :
  scanAddresses text = (found, None) -> found = [].
Proof.
  unfold scanAddresses, addressPatterns. cbn [forEach ignoreCase expr].
  change (S (groupCount (seq [unitPart; plus isSpace; streetPart]))) with 3.
  remember (seq [unitPart; plus isSpace; streetPart]) as rc eqn:Erc.
  destruct (matchAll true rc text) as [|m ms] eqn:C.
  - rewrite (matchAll_weaker true _ rc text), (matchAll_weaker true _ rc text); trivial.
    + simpl. congruence.
    + subst rc. apply street_only_weakest.
    + subst rc. apply street_only_weakest.
  - destruct (forEach _ (matchAll true _ text) []) as [s1 [e|]]; [discriminate|].
    destruct (forEach _ (matchAll true _ text) s1) as [s2 [e|]]; [discriminate|].
    destruct (forEach_raises (addAddress 3) (m :: ms) s2) as (e & E); [discriminate| |].
    + intros x Hx. apply (addAddress_street_only text). rewrite <- Erc, C. exact Hx.
    + rewrite E. discriminate.
Qed.

Lemma forEach_invariant {S X : Type} (I : S -> Prop) (body : S -> X -> completion S)
    (xs : list X) :
  (forall s x, In x xs -> I s -> I (fst (body s x))) ->
  forall s, I s -> I (fst (forEach body xs s)).
Proof.
  induction xs as [|x xs IH]; intros B s Hs; simpl; [assumption|].
  pose proof (B s x (or_introl eq_refl) Hs) as H.
  destruct (body s x) as [s' [e|]]; simpl in *; [assumption|].
  apply IH; [|assumption]. intros s0 x0 Hx. apply B. now right.
Qed.

Lemma apart_snoc (l : list string) (x : string) :
  apart l ->
  Forall (fun a => ~ withinIgnoringCase a x /\ ~ withinIgnoringCase x a) l ->
  apart (l ++ [x]).
Proof.
  induction l as [|a l IH]; simpl; [auto|].
  intros [F A] G. inversion G as [|? ? Hx Hl]; subst. split; [|auto].
  apply Forall_app. split; [assumption|]. constructor; [tauto|constructor].
Qed.

Lemma acceptAddress_apart (addresses : list string) (address : string) :
  apart addresses -> apart (acceptAddress addresses address).
Proof.
  intros A. unfold acceptAddress.
  destruct (nonEmpty address); simpl; [|assumption].
  destruct (existsb (fun addr => overlaps addr address) addresses) eqn:E; simpl;
    [assumption|].
  apply apart_snoc; [assumption|]. apply Forall_forall. intros a Ha.
  assert (O : overlaps a address = false).
  { destruct (overlaps a address) eqn:O; [|reflexivity].
    assert (T : existsb (fun addr => overlaps addr address) addresses = true)
      by (apply existsb_exists; eauto).
    congruence. }
  split; intros W; [assert (overlaps a address = true) by (apply overlaps_spec; auto)
                   |assert (overlaps a address = true) by (apply overlaps_spec; auto)];
    congruence.
Qed.

Lemma within_refl (a : string) : withinIgnoringCase a a.
Proof. exists "", "". simpl. now rewrite append_empty. Qed.

Lemma apart_NoDup (l : list string) : apart l -> NoDup l.
Proof.
  induction l as [|a l IH]; simpl; [constructor|].
  intros [F A]. constructor; [|auto].
  intros Hin. rewrite Forall_forall in F. destruct (F a Hin) as [N _].
  apply N, within_refl.
Qed.

Lemma scanAddresses_apart (text : string) : apart (fst (scanAddresses text)).
Proof.
  unfold scanAddresses.
  apply (forEach_invariant apart); [|exact I].
  intros s p _ Hs. apply (forEach_invariant apart); [|assumption].
  intros s' m _ Hs'. unfold addAddress.
  destruct (buildAddress _ m); simpl; [now apply acceptAddress_apart|assumption].
Qed.

(** X3.  The addresses [parsePropertyInfo] returns are pairwise apart: no
    one of them contains another, case ignored; in particular no address is
    returned twice. *)
Theorem returned_addresses_are_apart (text : string) :
  apart (addresses (parsePropertyInfo text))
  /\ NoDup (addresses (parsePropertyInfo text)).
Proof.
  assert (A : apart (addresses (parsePropertyInfo text))).
  { unfold parsePropertyInfo.
    destruct (scanMls text) as [numbers [e|]]; [exact I|].
    pose proof (scanAddresses_apart text) as H.
    destruct (scanAddresses text) as [found [e|]]; exact H. }
  split; [assumption|now apply apart_NoDup].
Qed.

(** X4.  [parsePropertyInfo] never returns addresses together with
    property details: wherever an address expression matches, the
    street-only expression matches too, and on its matches the loop reads
    [match[3].trim()] of a match without a third group, which raises and
    skips the detail extraction. *)
Theorem addresses_exclude_details (text : string) :
  addresses (parsePropertyInfo text) = [] \/ details (parsePropertyInfo text) = noDetails.
Proof.
  unfold parsePropertyInfo.
  destruct (scanMls text) as [numbers [e|]]; [now left|].
  destruct (scanAddresses text) as [found [e|]] eqn:E; [now right|].
  left. simpl. now apply scanAddresses_quiet in E.
Qed.

End AddressScanFacts.

(* ================================================================== *)
(** ** Further properties: the property details *)
(* ================================================================== *)

Section DetailsFacts.
Import Regex DocumentProcessor.

Lemma groups_unconstrained (ci : bool) (r : regex) : groupsSatisfy ci (fun _ _ => True) r.
Proof. induction r; simpl; auto. Qed.

Lemma matchGlobal_sound (ci : bool) (r : regex) (text : string) (found : list string) :
  matchGlobal ci r text = Some found ->
  found <> [] /\ Forall (lang ci r) found.
Proof.
  unfold matchGlobal, matchAll.
  pose proof (scan_sound ci _ r text (groups_unconstrained ci r) 0 None) as S.
  destruct (scan ci r 0 None text) as [|m ms]; [discriminate|].
  intros H; injection H as <-. split; [discriminate|].
  rewrite Forall_forall in *. intros w Hw.
  change (In w (map whole (m :: ms))) in Hw.
  apply in_map_iff in Hw as (x & <- & Hx). now apply S.
Qed.

Lemma matchFirst_sound (ci : bool) (r : regex) (s : string) (m : matched) :
  matchFirst ci r s = Some m -> lang ci r (whole m).
Proof.
  intros H. now apply (search_sound ci _ r s (groups_unconstrained ci r)) in H.
Qed.

Lemma numericPortion_sound (inner : regex) (found : list string) (n : string) :
  numericPortion inner found = Ok n -> lang false inner n.
Proof.
  unfold numericPortion. destruct found as [|first _]; [discriminate|].
  destruct (matchFirst false inner first) as [m|] eqn:E; [|discriminate].
  intros H; injection H as <-. now apply matchFirst_sound in E.
Qed.

(** Under the [i] flag a literal character matches its two cases only. *)
Lemma chrMatch_case (c a : ascii) :
  chrMatch true c a = true -> toLowerChar a = toLowerChar c.
Proof.
  intros H.
  pose proof (all_character_pairs
                (fun c a => implb (chrMatch true c a)
                              (Ascii.eqb (toLowerChar a) (toLowerChar c)))) as P.
  specialize (P ltac:(vm_compute; reflexivity) c a). cbv beta in P.
  rewrite H in P. now apply Ascii.eqb_eq in P.
Qed.

Lemma chrMatch_exact (c a : ascii) : chrMatch false c a = true -> a = c.
Proof. unfold chrMatch. intros H. now apply Ascii.eqb_eq in H. Qed.

Lemma lit_cons (c c' : ascii) (s : string) :
  lit (String c (String c' s)) = Seq (Chr c) (lit (String c' s)).
Proof. reflexivity. Qed.

(** Under the [i] flag a literal matches the strings equal to it up to
    case. *)
Lemma lit_lang (s : string) :
  forall w, lang true (lit s) w -> toLowerCase w = toLowerCase s.
Proof.
  induction s as [|c s IH]; intros w.
  - simpl. now intros ->.
  - destruct s as [|c' s].
    + simpl. intros (a & -> & A). apply chrMatch_case in A.
      unfold toLowerCase. simpl. now rewrite A.
    + rewrite lit_cons. cbn [lang]. intros (w1 & w2 & -> & (a & -> & A) & L).
      apply chrMatch_case in A. apply IH in L.
      unfold toLowerCase in *. cbn [append mapString]. now rewrite A, L.
Qed.

Lemma alt_cons (r r' : regex) (rs : list regex) :
  alt (r :: r' :: rs) = Alt r (alt (r' :: rs)).
Proof. reflexivity. Qed.

Lemma alt_lits_lang (l : list string) (w : string) :
  l <> [] -> lang true (alt (map lit l)) w -> In (toLowerCase w) (map toLowerCase l).
Proof.
  induction l as [|s l IH]; [congruence|]. intros _.
  destruct l as [|s' l].
  - simpl. intros H. left. symmetry. now apply lit_lang.
  - cbn [map]. rewrite alt_cons. cbn [lang]. intros [H|H].
    + left. symmetry. now apply lit_lang.
    + right. apply IH; [discriminate|exact H].
Qed.

Lemma removeChar_append (c : ascii) (s t : string) :
  removeChar c (s +++ t) = removeChar c s +++ removeChar c t.
Proof.
  induction s as [|a s IH]; simpl; [reflexivity|].
  destruct (Ascii.eqb a c); simpl; now rewrite IH.
Qed.

Lemma removeChar_digits (s : string) :
  allChars isDigit s = true -> removeChar "," s = s.
Proof.
  induction s as [|a s IH]; simpl; [reflexivity|].
  rewrite andb_true_iff. intros [D R]. rewrite (IH R).
  apply (character_cases isDigit (fun a => negb (Ascii.eqb a ","))) in D;
    [|vm_compute; reflexivity].
  apply negb_true_iff in D. now rewrite D.
Qed.

Lemma removeChar_commas (s : string) :
  allChars (only ",") s = true -> removeChar "," s = "".
Proof.
  induction s as [|a s IH]; cbn [allChars removeChar]; [reflexivity|].
  rewrite andb_true_iff. intros [D R]. rewrite (IH R).
  unfold only in D. rewrite Ascii.eqb_sym in D. now rewrite D.
Qed.

Lemma removeChar_digitOrComma (s : string) :
  allChars digitOrComma s = true -> allChars isDigit (removeChar "," s) = true.
Proof.
  induction s as [|a s IH]; simpl; [reflexivity|].
  rewrite andb_true_iff. intros [D R].
  destruct (Ascii.eqb a ",") eqn:E; [now apply IH|].
  simpl. rewrite (IH R), andb_true_r.
  unfold digitOrComma in D. rewrite E, orb_false_r in D. exact D.
Qed.

Lemma digits_without_flag (w : string) :
  allChars (clsMatch false isDigit) w = true -> 1 <= String.length w -> digits w.
Proof.
  rewrite class_without_flag. intros A L. split; [|assumption].
  destruct w; [simpl in L; lia|discriminate].
Qed.

Lemma digits_append (u v : string) :
  digits u -> allChars isDigit v = true -> digits (u +++ v).
Proof.
  intros [N A] B. split.
  - destruct u; [congruence|discriminate].
  - now rewrite allChars_append, A, B.
Qed.

Lemma price_shape (w : string) :
  lang false priceRe w ->
  exists ds, removeChar "," w = String "$" ds /\ allChars isDigit ds = true.
Proof.
  unfold priceRe, plus. cbn [lang].
  intros (w1 & w2 & -> & (a & -> & A) & D & _).
  apply chrMatch_exact in A. subst a. rewrite class_without_flag in D.
  exists (removeChar "," w2). split; [reflexivity|now apply removeChar_digitOrComma].
Qed.

Lemma count_shape (w : string) : lang false digitsRe w -> digits w.
Proof.
  unfold digitsRe, plus. cbn [lang]. intros (A & L & _). now apply digits_without_flag.
Qed.

Lemma decimal_shape (w : string) : lang false decimalRe w -> decimal w.
Proof.
  unfold decimalRe, plus. cbn [lang].
  intros (i & w2 & -> & (A & L & _) & [->|(w3 & f & -> & (a & -> & C) & B & M & _)]).
  - left. rewrite append_empty. now apply digits_without_flag.
  - right. apply chrMatch_exact in C. subst a.
    exists i, f. repeat split; try now apply digits_without_flag.
Qed.

Lemma area_shape (w : string) : lang false areaRe w -> digits (removeChar "," w).
Proof.
  unfold areaRe, plus, maybe, star. cbn [lang seq].
  intros (i & w2 & -> & (A & L & _) & c & f & -> & (C & _) & B & _).
  rewrite class_without_flag in C, B.
  pose proof (digits_without_flag i A L) as [N D].
  rewrite !removeChar_append, (removeChar_digits i D), (removeChar_commas c C),
    (removeChar_digits f B).
  simpl. now apply digits_append.
Qed.

Lemma type_shape (w : string) :
  Forall (fun p => lang true p w -> In (toLowerCase w) propertyTypes) typePatterns.
Proof.
  unfold typePatterns. constructor; [|constructor].
  cbn [lang seq]. intros (w1 & w2 & -> & -> & w3 & w4 & -> & L & ->).
  simpl. rewrite append_empty.
  apply alt_lits_lang in L; [exact L|discriminate].
Qed.

Lemma detailSteps_keep_shape (text : string) :
  Forall (fun step => forall d d',
            wellFormedDetails d -> step d = Ok d' -> wellFormedDetails d')
         (detailSteps text).
Proof.
  unfold detailSteps. repeat apply Forall_cons; try apply Forall_nil;
    intros d d' (Wp & Wb & Wa & Ws & Wt).
  - destruct (matchGlobal false priceRe text) as [found|] eqn:E;
      intros H; injection H as <-; [|repeat apply conj; assumption].
    apply matchGlobal_sound in E as [N F].
    unfold wellFormedDetails. simpl. repeat apply conj; try assumption.
    intros ps H. injection H as <-. split.
    + destruct found; [congruence|discriminate].
    + apply Forall_forall. intros p Hp.
      apply in_map_iff in Hp as (w & <- & Hw).
      rewrite Forall_forall in F. now apply price_shape, F.
  - destruct (matchGlobal true bedroomRe text) as [found|] eqn:E;
      [|intros H; injection H as <-; repeat apply conj; assumption].
    destruct (numericPortion digitsRe found) as [n|e] eqn:Q; simpl; [|discriminate].
    intros H; injection H as <-. apply numericPortion_sound, count_shape in Q.
    unfold wellFormedDetails. simpl. repeat apply conj; try assumption.
    intros n0 H; injection H as <-. apply Q.
  - destruct (matchGlobal true bathroomRe text) as [found|] eqn:E;
      [|intros H; injection H as <-; repeat apply conj; assumption].
    destruct (numericPortion decimalRe found) as [n|e] eqn:Q; simpl; [|discriminate].
    intros H; injection H as <-. apply numericPortion_sound, decimal_shape in Q.
    unfold wellFormedDetails. simpl. repeat apply conj; try assumption.
    intros n0 H; injection H as <-. exact Q.
  - destruct (matchGlobal true sqftRe text) as [found|] eqn:E;
      [|intros H; injection H as <-; repeat apply conj; assumption].
    destruct (numericPortion areaRe found) as [n|e] eqn:Q; simpl; [|discriminate].
    intros H; injection H as <-. apply numericPortion_sound, area_shape in Q.
    unfold wellFormedDetails. simpl. repeat apply conj; try assumption.
    intros n0 H; injection H as <-. apply Q.
  - pose proof (type_shape) as T.
    unfold typePatterns in *. 
    destruct (matchGlobal true _ text) as [[|typeMatch found]|] eqn:E;
      intros H; injection H as <-; try (repeat apply conj; assumption).
    apply matchGlobal_sound in E as [_ F]. inversion F as [|? ? L _]; subst.
    specialize (T typeMatch). inversion T as [|? ? Ht _]; subst.
    unfold wellFormedDetails. simpl. repeat apply conj; try assumption.
    intros t H; injection H as <-. now apply Ht.
Qed.

(** X5.  Whatever the text, the details [extractPropertyDetails] returns
    are well formed: each price is a dollar sign followed by digits only
    (and there is at least one price when the field is set), the bedroom
    count and the square footage are non-empty strings of digits, the
    bathroom count is a decimal number, and the property type is one of
    the eleven lower-case type names. *)
Theorem extracted_details_are_well_formed (text : string) :
  wellFormedDetails (extractPropertyDetails text).
Proof.
  unfold extractPropertyDetails.
  apply (forEach_invariant wellFormedDetails).
  - intros d step Hin W.
    pose proof (detailSteps_keep_shape text) as K. rewrite Forall_forall in K.
    specialize (K step Hin d).
    destruct (step d) as [d'|e]; simpl; [now apply K|assumption].
  - repeat split; discriminate.
Qed.

Lemma repeat_total (ci : bool) (p : ascii -> bool) (k : state -> option state)
    (cs : list (nat * string)) (s : string) :
  (forall st, k st <> None) ->
  forall hi pv, repeat ci p k cs 0 hi pv s <> None.
Proof.
  intros K. induction s as [|a s IH]; intros hi pv; simpl; [apply K|].
  destruct (negb (exhausted hi) && clsMatch ci p a); [|apply K].
  destruct (repeat ci p k cs 0 (decr hi) (Some a) s); [discriminate|apply K].
Qed.

Lemma optional_total (ci : bool) (r : regex) (st : state) :
  run ci (Opt r) Some st <> None.
Proof. simpl. destruct (run ci r Some st); discriminate. Qed.

(** One or more digits, then anything that can match the empty string:
    such an expression matches at the start of a string that begins with a
    digit. *)
Lemma leading_digit_found (k : state -> option state) (a : ascii) (s : string) :
  (forall st, k st <> None) ->
  isDigit a = true ->
  run false (plus isDigit) k (mkState None (String a s) []) <> None.
Proof.
  intros K D. unfold plus. cbn [run rest caps prev repeat exhausted negb andb].
  unfold clsMatch at 1. rewrite D. cbn [orb Nat.pred decr option_map].
  pose proof (repeat_total false isDigit k [] s K None (Some a)) as T.
  destruct (repeat false isDigit k [] 0 None (Some a) s); [discriminate|congruence].
Qed.

Lemma numericPortion_total (inner : regex) (found : list string) :
  found <> [] ->
  Forall (fun w => matchAt false inner None w <> None) found ->
  exists n, numericPortion inner found = Ok n.
Proof.
  destruct found as [|first found]; [congruence|]. intros _ F.
  inversion F as [|? ? M _]; subst. unfold numericPortion, matchFirst.
  destruct first as [|a first]; simpl;
    destruct (matchAt false inner None _); try congruence; eauto.
Qed.

(** A match of an expression that begins with a group of one or more
    digits begins with a digit. *)
Lemma leading_digit (ci : bool) (n : nat) (more after : regex) (w : string) :
  lang ci (Seq (Grp n (Seq (plus isDigit) more)) after) w ->
  exists a s, w = String a s /\ isDigit a = true.
Proof.
  unfold plus. cbn [lang].
  intros (w1 & w2 & -> & (ds & w3 & -> & (A & L & _) & _) & _).
  destruct ds as [|a ds]; [simpl in L; lia|].
  simpl in A. apply andb_true_iff in A as [A _]. apply digit_class in A as [A _].
  exists a, ((ds +++ w3) +++ w2). split; [reflexivity|assumption].
Qed.

Lemma bedroom_number (found : list string) :
  found <> [] -> Forall (lang true bedroomRe) found ->
  exists n, numericPortion digitsRe found = Ok n.
Proof.
  intros N F. apply numericPortion_total; [assumption|].
  eapply Forall_impl; [|exact F]. intros w L. cbv beta.
  assert (D : exists a s, w = String a s /\ isDigit a = true).
  { unfold bedroomRe, plus in L. cbn [lang seq] in L.
    destruct L as (ds & w2 & -> & (A & L & _) & _).
    destruct ds as [|a ds]; [simpl in L; lia|].
    simpl in A. apply andb_true_iff in A as [A _]. apply digit_class in A as [A _].
    exists a, (ds +++ w2). split; [reflexivity|assumption]. }
  destruct D as (a & s & -> & D). unfold matchAt, digitsRe.
  pose proof (leading_digit_found Some a s ltac:(discriminate) D) as T.
  destruct (run false (plus isDigit) Some _); [discriminate|congruence].
Qed.

Lemma bathroom_number (found : list string) :
  found <> [] -> Forall (lang true bathroomRe) found ->
  exists n, numericPortion decimalRe found = Ok n.
Proof.
  intros N F. apply numericPortion_total; [assumption|].
  eapply Forall_impl; [|exact F]. intros w L. cbv beta.
  apply leading_digit in L as (a & s & -> & D).
  unfold matchAt, decimalRe.
  assert (T : run false (Seq (plus isDigit) (Opt (Seq (Chr ".") (plus isDigit)))) Some
                (mkState None (String a s) []) <> None).
  { change (run false (plus isDigit)
              (run false (Opt (Seq (Chr ".") (plus isDigit))) Some)
              (mkState None (String a s) []) <> None).
    apply leading_digit_found; [|assumption].
    intros st. apply optional_total. }
  destruct (run false _ Some _); [discriminate|congruence].
Qed.

Lemma area_number (found : list string) :
  found <> [] -> Forall (lang true sqftRe) found ->
  exists n, numericPortion areaRe found = Ok n.
Proof.
  intros N F. apply numericPortion_total; [assumption|].
  eapply Forall_impl; [|exact F]. intros w L. cbv beta.
  unfold sqftRe, areaRe in L. cbn [seq] in L.
  apply leading_digit in L as (a & s & -> & D).
  unfold matchAt, areaRe. cbn [seq].
  assert (T : run false (Seq (plus isDigit) (Seq (maybe (only ",")) (star isDigit))) Some
                (mkState None (String a s) []) <> None).
  { change (run false (plus isDigit)
              (run false (maybe (only ",")) (run false (star isDigit) Some))
              (mkState None (String a s) []) <> None).
    apply leading_digit_found; [|assumption].
    intros st. unfold maybe, star. cbn [run].
    apply repeat_total. intros st'. apply repeat_total. discriminate. }
  destruct (run false _ Some _); [discriminate|congruence].
Qed.

(** X6.  No block of [extractPropertyDetails] raises, so no field is lost
    to an error in an earlier one: each of the five fields is absent
    exactly when its own expression has no match in the text. *)
Theorem details_fields_follow_their_expressions (text : string) :
  (prices (extractPropertyDetails text) = None
   <-> matchGlobal false priceRe text = None)
  /\ (bedrooms (extractPropertyDetails text) = None
      <-> matchGlobal true bedroomRe text = None)
  /\ (bathrooms (extractPropertyDetails text) = None
      <-> matchGlobal true bathroomRe text = None)
  /\ (squareFootage (extractPropertyDetails text) = None
      <-> matchGlobal true sqftRe text = None)
  /\ (propertyType (extractPropertyDetails text) = None
      <-> Forall (fun p => matchGlobal true p text = None) typePatterns).
Proof.
  unfold extractPropertyDetails, detailSteps, typePatterns.
  match goal with
  | |- context [Forall _ [?r]] => remember r as typeRe eqn:Etype
  end.
  cbn [forEach].
  destruct (matchGlobal false priceRe text) as [ps|] eqn:Ep; cbn [setField];
  (destruct (matchGlobal true bedroomRe text) as [bs|] eqn:Eb;
   [ apply matchGlobal_sound in Eb as [Nb Fb];
     destruct (bedroom_number bs Nb Fb) as (nb & ->)|];
   cbn [bind setField]);
  (destruct (matchGlobal true bathroomRe text) as [hs|] eqn:Eh;
   [ apply matchGlobal_sound in Eh as [Nh Fh];
     destruct (bathroom_number hs Nh Fh) as (nh & ->)|];
   cbn [bind setField]);
  (destruct (matchGlobal true sqftRe text) as [qs|] eqn:Eq;
   [ apply matchGlobal_sound in Eq as [Nq Fq];
     destruct (area_number qs Nq Fq) as (nq & ->)|];
   cbn [bind setField]);
  (destruct (matchGlobal true typeRe text) as [[|t ts]|] eqn:Et;
   [ apply matchGlobal_sound in Et as [Nt _]; congruence | | ]);
  cbn [setField bind fst prices bedrooms bathrooms squareFootage propertyType noDetails];
  repeat apply conj;
  first [ discriminate
        | intros _; reflexivity
        | intros _; constructor; [exact Et|constructor]
        | intros F; inversion F; congruence ].
Qed.

End DetailsFacts.

(* ================================================================== *)
(** ** Further properties: the shape of the addresses *)
(* ================================================================== *)

Section AddressShapeFacts.
Import Regex DocumentProcessor.

Lemma full_address_groups :
  groupsSatisfy true
    (fun n w => n = 4 -> In (toLowerCase w) (map toLowerCase provinces))
    (seq [unitPart; plus isSpace; streetPart; star isSpace; maybe (only ",");
          star isSpace; Grp 3 (plus letterOrSpace); maybe (only ","); star isSpace;
          Grp 4 province]).
Proof.
  unfold unitPart, streetPart. cbn -[lang province provinces].
  repeat split; try (intros w _ E; discriminate).
  intros w L _. unfold province in L.
  apply alt_lits_lang in L; [exact L|discriminate].
Qed.

Lemma city_address_groups :
  groupsSatisfy true (fun n _ => n <> 4)
    (seq [unitPart; plus isSpace; streetPart; star isSpace; Chr ","; star isSpace;
          Grp 3 (plus letterOrSpace)]).
Proof.
  unfold unitPart, streetPart. cbn -[lang]. repeat split; intros; lia.
Qed.

(** With four groups or three, the callback builds an address from the
    fourth group, which reads undefined when the group is absent. *)
Lemma buildAddress_long (len : nat) (m : matched) (address : string) :
  4 <= len ->
  buildAddress len m = Ok address ->
  exists pre, address = pre +++ ", " +++ interpolate (group 4 (groups m)).
Proof.
  intros L. unfold buildAddress.
  destruct (Nat.leb_spec 4 len) as [_|]; [|lia].
  destruct (receiver (group 2 (groups m)) "trim") as [street|]; [|discriminate].
  destruct (receiver (group 3 (groups m)) "trim") as [city|]; [|discriminate].
  simpl. intros H; injection H as <-.
  exists (interpolate (group 1 (groups m)) +++ " " +++ trim street +++ ", " +++ trim city).
  now rewrite !append_assoc.
Qed.

Lemma acceptAddress_Forall (Q : string -> Prop) (addresses : list string)
    (address : string) :
  Forall Q addresses -> Q address -> Forall Q (acceptAddress addresses address).
Proof.
  intros F H. unfold acceptAddress.
  destruct (nonEmpty address && _); [|assumption].
  apply Forall_app. split; [assumption|now constructor].
Qed.

Lemma scanAddresses_shape (text : string) :
  Forall endsInProvince (fst (scanAddresses text)).
Proof.
  unfold scanAddresses.
  apply (forEach_invariant (Forall endsInProvince)); [|constructor].
  intros s p Hp Hs.
  apply (forEach_invariant (Forall endsInProvince)); [|assumption].
  intros s' m Hm Hs'.
  unfold addressPatterns in Hp.
  destruct Hp as [<-|[<-|[<-|[]]]]; cbn [ignoreCase expr] in *.
  - pose proof (scan_sound true _ _ text full_address_groups 0 None) as S.
    rewrite Forall_forall in S. destruct (S m Hm) as [_ C].
    unfold addAddress.
    destruct (buildAddress _ m) as [address|e] eqn:B; simpl; [|assumption].
    apply acceptAddress_Forall; [assumption|].
    apply buildAddress_long in B as (pre & ->); [|vm_compute; lia].
    exists pre, (interpolate (group 4 (groups m))). split; [reflexivity|].
    destruct (group 4 (groups m)) as [w|] eqn:G; [|now left].
    right. exact (group_satisfies _ _ _ _ C G eq_refl).
  - pose proof (scan_sound true _ _ text city_address_groups 0 None) as S.
    rewrite Forall_forall in S. destruct (S m Hm) as [_ C].
    apply group_absent in C.
    unfold addAddress.
    destruct (buildAddress _ m) as [address|e] eqn:B; simpl; [|assumption].
    apply acceptAddress_Forall; [assumption|].
    apply buildAddress_long in B as (pre & ->); [|vm_compute; lia].
    exists pre, "undefined". rewrite C. split; [reflexivity|now left].
  - change (S (groupCount (seq [unitPart; plus isSpace; streetPart]))) with 3.
    destruct (addAddress_street_only text s' m Hm) as (e & ->). exact Hs'.
Qed.

(** X7.  Every address [parsePropertyInfo] returns ends, after a comma,
    in the text of the fourth group: a province in some letter case, or,
    for a match of the expression without a province, the word undefined.
    (No address comes from the street-only expression, whose matches make
    the loop raise.) *)
Theorem returned_addresses_end_in_province (text : string) :
  Forall endsInProvince (addresses (parsePropertyInfo text)).
Proof.
  unfold parsePropertyInfo.
  destruct (scanMls text) as [numbers [e|]]; [constructor|].
  pose proof (scanAddresses_shape text) as H.
  destruct (scanAddresses text) as [found [e|]]; exact H.
Qed.

End AddressShapeFacts.

(* ================================================================== *)
(** ** Further properties: the address parser *)
(* ================================================================== *)

Section ParserPathFacts.
Import AddressParser.

Lemma isLikelyCity_far (part : string) (rest : list string) :
  mem (toLowerCase part) majorCities = false ->
  3 <= length rest ->
  isLikelyCity part (part :: rest) = false.
Proof.
  intros M L. unfold isLikelyCity, headIs.
  destruct (String.eqb_spec (toLowerCase part) "richmond") as [E|_];
    [rewrite E in M; vm_compute in M; discriminate|].
  destruct (String.eqb_spec (toLowerCase part) "north") as [E|_].
  - rewrite E. cbn [andb]. rewrite E in M. rewrite M.
    change (("north" =? "york")%string) with false. cbn [orb].
    apply Nat.leb_gt. simpl. lia.
  - cbn [andb]. rewrite M. apply Nat.leb_gt. simpl. lia.
Qed.

Lemma scanStreet_name (part : string) (rest : list string) (i : nat)
    (names : list string) (ty : streetTypeValue) :
  Js.get streetSuffixes part = Undefined ->
  isLikelyCity part (part :: rest) = false ->
  scanStreet (part :: rest) i names ty
  = scanStreet rest (i + 1) (names ++ [capitalizeWord part]) ty.
Proof. intros G C. cbn [scanStreet]. now rewrite G, C. Qed.

Lemma scanStreet_suffix (part abbrev : string) (rest : list string) (i : nat)
    (names : list string) (ty : streetTypeValue) :
  Js.get streetSuffixes part = Own abbrev ->
  scanStreet (part :: rest) i names ty = (i + 1, names, TypeString abbrev).
Proof. intros G. cbn [scanStreet]. now rewrite G. Qed.

(** The abbreviations of the suffix table are not empty. *)
Lemma suffix_abbrev_nonEmpty (part abbrev : string) :
  Js.get streetSuffixes part = Own abbrev -> nonEmpty abbrev = true.
Proof.
  unfold Js.get. destruct (assoc streetSuffixes part) as [v|] eqn:E.
  - intros H; injection H as ->.
    assert (F : Forall (fun kv => nonEmpty (snd kv) = true) streetSuffixes)
      by (repeat constructor).
    revert E. induction F as [|[k v] l Hv _ IH]; simpl; [discriminate|].
    destruct (String.eqb k part); [|assumption].
    intros H; injection H as <-. exact Hv.
  - destruct (mem part objectPrototypeKeys); discriminate.
Qed.

Lemma upper_of_upper (c : ascii) : toUpperChar (toUpperChar c) = toUpperChar c.
Proof.
  apply Ascii.eqb_eq.
  apply (all_characters (fun c => Ascii.eqb (toUpperChar (toUpperChar c)) (toUpperChar c))).
  vm_compute. reflexivity.
Qed.

Lemma upper_of_lower (c : ascii) : toUpperChar (toLowerChar c) = toUpperChar c.
Proof.
  apply Ascii.eqb_eq.
  apply (all_characters (fun c => Ascii.eqb (toUpperChar (toLowerChar c)) (toUpperChar c))).
  vm_compute. reflexivity.
Qed.

Lemma toUpperCase_lower (s : string) : toUpperCase (toLowerCase s) = toUpperCase s.
Proof.
  unfold toUpperCase, toLowerCase.
  induction s as [|c s IH]; simpl; [reflexivity|]. now rewrite IH, upper_of_lower.
Qed.

(** Upper-casing forgets the capitalisation. *)
Lemma toUpperCase_capitalizeWord (w : string) :
  toUpperCase (capitalizeWord w) = toUpperCase w.
Proof.
  destruct w as [|c w]; [reflexivity|].
  unfold capitalizeWord, toUpperCase. cbn [mapString].
  rewrite upper_of_upper. f_equal. exact (toUpperCase_lower w).
Qed.

(** [trimEnd] leaves a string alone that ends in a part it leaves alone. *)
Lemma trimEnd_suffix (s t : string) :
  t <> "" -> trimEnd t = t -> trimEnd (s +++ t) = s +++ t.
Proof.
  intros N T. induction s as [|d s IH]; simpl; [assumption|].
  rewrite IH. destruct (s +++ t) eqn:E; [|reflexivity].
  destruct s; simpl in E; [congruence|discriminate].
Qed.

(** [trim] leaves a string alone that starts with a character other than
    white space and ends in a part that [trimEnd] leaves alone. *)
Lemma trim_framed (d : ascii) (ds t : string) :
  isSpace d = false -> t <> "" -> trimEnd t = t ->
  trim (String d ds +++ t) = String d ds +++ t.
Proof.
  intros D N T. unfold trim. cbn [append trimStart]. rewrite D.
  change (String d (ds +++ t)) with (String d ds +++ t).
  now apply trimEnd_suffix.
Qed.

Lemma formatAddress_full (c : components) (abbrev : string) :
  nonEmpty (unitNumber c) = false ->
  nonEmpty (streetNumber c) = true ->
  nonEmpty (streetName c) = true ->
  streetType c = TypeString abbrev ->
  nonEmpty abbrev = true ->
  nonEmpty (city c) = true ->
  formatAddress c
  = Ok (trim (streetNumber c +++ " " +++ toUpperCase (streetName c) +++ " "
              +++ toUpperCase abbrev +++ ", " +++ city c +++ ", Ontario")).
Proof.
  intros U N S T A C. unfold formatAddress. rewrite U, N, S, T, A, C.
  cbn [bind]. now rewrite !append_assoc.
Qed.

(** The lower-case spellings of oshawa and of vaughan are capitalised to
    the names the city extraction assigns. *)
Lemma capitalizeWord_fixed (t name : string) :
  toLowerCase t = toLowerCase name -> capitalizeWord t = capitalizeWord name.
Proof.
  destruct t as [|c t], name as [|d name]; try discriminate; [reflexivity|].
  unfold toLowerCase. cbn [mapString capitalizeWord].
  intros H; injection H as Hc Ht. unfold toLowerCase. rewrite Ht. f_equal.
  rewrite <- (upper_of_lower c), <- (upper_of_lower d). now rewrite Hc.
Qed.

Lemma extractCityPart_ordinary (parts : list string) (i : nat) (names : list string)
    (t : string) :
  nth_error parts i = Some t ->
  ordinaryCityToken t ->
  extractCityPart parts i names = (capitalizeWord t, i + 1, names).
Proof.
  intros N O. unfold extractCityPart. rewrite N. unfold ordinaryCityToken in O.
  destruct (String.eqb_spec (toLowerCase t) "richmond") as [E|_];
    [exfalso; apply O; rewrite E; simpl; tauto|].
  destruct (String.eqb_spec (toLowerCase t) "north") as [E|_];
    [exfalso; apply O; rewrite E; simpl; tauto|].
  destruct (String.eqb_spec (toLowerCase t) "east") as [E|_];
    [exfalso; apply O; rewrite E; simpl; tauto|].
  destruct (String.eqb_spec (toLowerCase t) "e") as [E|_];
    [exfalso; apply O; rewrite E; simpl; tauto|].
  destruct (String.eqb_spec (toLowerCase t) "n") as [E|_];
    [exfalso; apply O; rewrite E; simpl; tauto|].
  cbn [andb].
  destruct (String.eqb_spec (toLowerCase t) "oshawa") as [E|_].
  - now rewrite (capitalizeWord_fixed t "oshawa" E).
  - destruct (String.eqb_spec (toLowerCase t) "vaughan") as [E|_]; [|reflexivity].
    now rewrite (capitalizeWord_fixed t "vaughan" E).
Qed.

(** X8.  The path the parser is designed for.  On the ASCII tokens number,
    name, suffix, city and at least one more, where the name is neither
    numeric nor a suffix nor a major city and the city token is none of
    the special cases, [normalize] returns the address NUMBER NAME SUFFIX,
    City, Ontario with the components it is made of; the tokens after the
    city form the neighbourhood. *)
Theorem normalize_number_name_suffix_city
    (number name suffix abbrev cityToken next : string) (more : list string) :
  Forall asciiText (name :: cityToken :: next :: more) ->
  isNumeric number = true ->
  name <> "" ->
  isNumeric name = false ->
  Js.get streetSuffixes name = Undefined ->
  mem (toLowerCase name) majorCities = false ->
  Js.get streetSuffixes suffix = Own abbrev ->
  cityToken <> "" ->
  ordinaryCityToken cityToken ->
  normalize (number :: name :: suffix :: cityToken :: next :: more)
  = Success
      (number +++ " " +++ toUpperCase name +++ " " +++ toUpperCase abbrev
       +++ ", " +++ capitalizeWord cityToken +++ ", Ontario")
      (mkComponents "" number (capitalizeWord name) (TypeString abbrev)
         (capitalizeWord cityToken) (join " " (map capitalizeWord (next :: more)))).
Proof.
  intros _ Hn Hne Hname Hg Hm Hs Hc Ho.
  assert (Nn : nonEmpty number = true)
    by (unfold isNumeric in Hn; now apply andb_true_iff in Hn).
  assert (C : parseComponents (number :: name :: suffix :: cityToken :: next :: more)
              = mkComponents "" number (capitalizeWord name) (TypeString abbrev)
                  (capitalizeWord cityToken)
                  (join " " (map capitalizeWord (next :: more)))).
  { unfold parseComponents. rewrite Nn, Hn, Hname. cbn [andb]. rewrite andb_false_r.
    cbn [skipn].
    rewrite scanStreet_name; [|assumption|apply isLikelyCity_far; [assumption|simpl; lia]].
    rewrite (scanStreet_suffix suffix abbrev) by assumption.
    cbn [Nat.add app].
    rewrite (extractCityPart_ordinary _ 3 _ cityToken); [|reflexivity|assumption].
    cbn [Nat.add length Nat.ltb Nat.leb skipn]. reflexivity. }
  unfold normalize, intelligentAddressParsing. rewrite C.
  cbn [length Nat.ltb Nat.leb].
  rewrite (formatAddress_full _ abbrev);
    [ | reflexivity | exact Nn | destruct name; [congruence|reflexivity] | reflexivity
      | exact (suffix_abbrev_nonEmpty _ _ Hs)
      | destruct cityToken; [congruence|reflexivity] ].
  cbn [streetNumber streetName city]. rewrite toUpperCase_capitalizeWord.
  f_equal.
  destruct number as [|d ds]; [discriminate|].
  apply trim_framed.
  - unfold isNumeric in Hn. simpl in Hn. apply andb_true_iff in Hn as [Hd _].
    now apply digit_not_space.
  - discriminate.
  - rewrite <- !append_assoc. now apply trimEnd_suffix.
Qed.

(** The slug 15-bay-street-toronto-downtown. *)
Lemma normalize_number_name_suffix_city_witness :
  normalize ["15"; "bay"; "street"; "toronto"; "downtown"]
  = Success "15 BAY ST, Toronto, Ontario"
      (mkComponents "" "15" "Bay" (TypeString "St") "Toronto" "Downtown").
Proof.
  apply (normalize_number_name_suffix_city "15" "bay" "street" "St" "toronto"
           "downtown" []);
    try reflexivity; try discriminate.
  - repeat constructor.
  - unfold ordinaryCityToken. simpl. intuition discriminate.
Defined.

Lemma plain_noComma (s : string) : plainToken s -> noComma s.
Proof.
  apply allChars_impl. intros c H. now apply andb_true_iff in H as [_ H].
Qed.

Lemma plain_trimmed (s : string) : plainToken s -> trim s = s.
Proof.
  intros H. apply trim_kept. revert H. apply allChars_impl.
  intros c H. apply andb_true_iff in H as [H _]. now apply andb_true_iff in H as [_ H].
Qed.

Lemma plain_capitalizeWord (s : string) : plainToken s -> plainToken (capitalizeWord s).
Proof.
  assert (U : forall c, (code c <? 128) && negb (isSpace c) && negb (Ascii.eqb c ",")
                        = true ->
                        (code (toUpperChar c) <? 128) && negb (isSpace (toUpperChar c))
                        && negb (Ascii.eqb (toUpperChar c) ",") = true).
  { apply character_cases. vm_compute. reflexivity. }
  assert (L : forall c, (code c <? 128) && negb (isSpace c) && negb (Ascii.eqb c ",")
                        = true ->
                        (code (toLowerChar c) <? 128) && negb (isSpace (toLowerChar c))
                        && negb (Ascii.eqb (toLowerChar c) ",") = true).
  { apply character_cases. vm_compute. reflexivity. }
  unfold plainToken. destruct s as [|c s]; [reflexivity|].
  cbn [capitalizeWord allChars]. intros H. apply andb_true_iff in H as [Hc H].
  apply andb_true_iff. split; [now apply U|].
  clear c Hc. unfold toLowerCase.
  induction s as [|c s IH]; [reflexivity|].
  cbn [mapString allChars] in *. apply andb_true_iff in H as [Hc H].
  rewrite (L c Hc). now apply IH.
Qed.

Lemma noComma_append (s t : string) : noComma s -> noComma t -> noComma (s +++ t).
Proof. unfold noComma. intros S T. now rewrite allChars_append, S, T. Qed.

Lemma noComma_toUpperCase (s : string) : noComma s -> noComma (toUpperCase s).
Proof.
  assert (U : forall c, negb (Ascii.eqb c ",") = true ->
                        negb (Ascii.eqb (toUpperChar c) ",") = true).
  { apply character_cases. vm_compute. reflexivity. }
  unfold noComma, toUpperCase. induction s as [|c s IH]; [reflexivity|].
  cbn [mapString allChars]. intros H. apply andb_true_iff in H as [Hc H].
  apply andb_true_iff. auto.
Qed.

Lemma noComma_join (names : list string) :
  Forall noComma names -> noComma (join " " names).
Proof.
  induction 1 as [|n names Hn _ IH]; [reflexivity|].
  destruct names as [|n' names]; [exact Hn|].
  change (join " " (n :: n' :: names)) with (n +++ " " +++ join " " (n' :: names)).
  apply noComma_append; [assumption|]. now apply (noComma_append " ").
Qed.

Lemma allChars_trimStart (p : ascii -> bool) (s : string) :
  allChars p s = true -> allChars p (trimStart s) = true.
Proof.
  induction s as [|c s IH]; simpl; [reflexivity|].
  destruct (isSpace c); [|trivial].
  rewrite andb_true_iff. intros [_ H]. auto.
Qed.

Lemma allChars_trimEnd (p : ascii -> bool) (s : string) :
  allChars p s = true -> allChars p (trimEnd s) = true.
Proof.
  induction s as [|c s IH]; simpl; [reflexivity|].
  rewrite andb_true_iff. intros [Hc H]. specialize (IH H).
  destruct (trimEnd s) as [|d t]; [destruct (isSpace c); simpl; now rewrite ?Hc|].
  cbn [allChars] in *. now rewrite Hc, IH.
Qed.

Lemma trimStart_before (s : string) (c : ascii) (t : string) :
  isSpace c = false -> trimStart (s +++ String c t) = trimStart s +++ String c t.
Proof.
  intros C. induction s as [|d s IH]; simpl; [now rewrite C|].
  now destruct (isSpace d).
Qed.

(** Splitting at the first comma. *)
Lemma split_whole (s : string) : noComma s -> split "," s = [s].
Proof.
  unfold noComma. induction s as [|c s IH]; simpl; [reflexivity|].
  rewrite andb_true_iff, negb_true_iff. intros [-> H]. now rewrite (IH H).
Qed.

Lemma split_first (s t : string) :
  noComma s -> split "," (s +++ String "," t) = s :: split "," t.
Proof.
  unfold noComma. induction s as [|c s IH]; simpl; [reflexivity|].
  rewrite andb_true_iff, negb_true_iff. intros [-> H]. now rewrite (IH H).
Qed.

(** The address [formatAddress] returns is the trimmed body, followed for
    a non-empty city by the city and Ontario. *)
Lemma formatAddress_body (c : components) (a : string) :
  formatAddress c = Ok a ->
  exists body,
    a = trim (if nonEmpty (city c) then body +++ ", " +++ city c +++ ", Ontario"
              else body)
    /\ (noComma (unitNumber c) -> noComma (streetNumber c) -> noComma (streetName c) ->
        (forall s, streetType c = TypeString s -> noComma s) -> noComma body).
Proof.
  unfold formatAddress.
  destruct (streetType c) as [s|key]; [|discriminate]. cbn [bind].
  intros H; injection H as <-.
  eexists. split; [reflexivity|].
  intros U N S T. specialize (T s eq_refl).
  apply noComma_toUpperCase in S, T.
  destruct (nonEmpty (unitNumber c)), (nonEmpty (streetNumber c)),
    (nonEmpty (streetName c)), (nonEmpty s);
    repeat first [ assumption | reflexivity | apply noComma_append ].
Qed.

(** The city read back from a formatted address. *)
Lemma extractCity_formatted (body town : string) :
  noComma body -> noComma town -> trim town = town ->
  RouteOptimizer.extractCity
    (trim (if nonEmpty town then body +++ ", " +++ town +++ ", Ontario" else body))
  = if nonEmpty town then town else "Unknown".
Proof.
  intros B T E. unfold RouteOptimizer.extractCity.
  destruct (nonEmpty town).
  - unfold trim at 1.
    change (body +++ ", " +++ town +++ ", Ontario")
      with (body +++ String "," (" " +++ town +++ ", Ontario")).
    rewrite trimStart_before by reflexivity.
    change (trimStart body +++ String "," (" " +++ town +++ ", Ontario"))
      with (trimStart body +++ ", " +++ town +++ ", Ontario").
    replace (trimStart body +++ ", " +++ town +++ ", Ontario")
      with ((trimStart body +++ ", " +++ town) +++ ", Ontario")
      by (now rewrite !append_assoc).
    rewrite trimEnd_suffix; [|discriminate|reflexivity].
    rewrite !append_assoc.
    change (", " +++ town +++ ", Ontario")
      with (String "," ((" " +++ town) +++ String "," " Ontario")).
    rewrite split_first by (now apply allChars_trimStart).
    rewrite split_first by (now apply (noComma_append " ")).
    cbn [split]. exact E.
  - rewrite split_whole; [reflexivity|].
    unfold trim. now apply allChars_trimEnd, allChars_trimStart.
Qed.

Lemma suffix_abbrev_noComma (part abbrev : string) :
  Js.get streetSuffixes part = Own abbrev -> noComma abbrev.
Proof.
  unfold Js.get. destruct (assoc streetSuffixes part) as [v|] eqn:A;
    [|destruct (mem part objectPrototypeKeys); discriminate].
  intros H; injection H as ->.
  assert (F : Forall (fun kv => noComma (snd kv)) streetSuffixes)
    by (repeat constructor).
  revert A. induction F as [|[k v] l Hv _ IHF]; simpl; [discriminate|].
  destruct (String.eqb k part); [|assumption].
  intros H; injection H as <-. exact Hv.
Qed.

Lemma scanStreet_names (rest : list string) :
  Forall plainToken rest ->
  forall i names ty i' names' ty',
    Forall noComma names ->
    (forall s, ty = TypeString s -> noComma s) ->
    scanStreet rest i names ty = (i', names', ty') ->
    Forall noComma names' /\ (forall s, ty' = TypeString s -> noComma s).
Proof.
  induction 1 as [|part rest Hp _ IH]; intros i names ty i' names' ty' Hn Ht; simpl.
  - intros H; injection H as _ <- <-. auto.
  - destruct (Js.get streetSuffixes part) as [abbrev|key|] eqn:G.
    + intros H; injection H as _ <- <-. split; [assumption|].
      intros s E. injection E as <-. now apply suffix_abbrev_noComma in G.
    + intros H; injection H as _ <- <-. split; [assumption|discriminate].
    + destruct (isLikelyCity part (part :: rest)).
      * intros H; injection H as _ <- <-. auto.
      * apply IH; [|assumption]. apply Forall_app. split; [assumption|].
        constructor; [|constructor]. now apply plain_noComma, plain_capitalizeWord.
Qed.

Lemma extractCityPart_town (parts : list string) (i : nat) (names : list string)
    (town : string) (i' : nat) (names' : list string) :
  Forall plainToken parts ->
  Forall noComma names ->
  extractCityPart parts i names = (town, i', names') ->
  noComma town /\ trim town = town /\ Forall noComma names'.
Proof.
  intros P N. unfold extractCityPart.
  destruct (nth_error parts i) as [part|] eqn:E.
  - assert (Hp : plainToken part).
    { rewrite Forall_forall in P. apply P. eapply nth_error_In; eauto. }
    assert (S : forall w, noComma w -> Forall noComma (names ++ [w])).
    { intros w Hw. apply Forall_app. split; [assumption|now repeat constructor]. }
    repeat match goal with
           | |- context [if ?b then _ else _] => destruct b
           | |- context [match indexOf ?l ?x with _ => _ end] => destruct (indexOf l x)
           end;
      intros H; injection H as <- _ <-;
      try (split; [|split]; [reflexivity|reflexivity|first [assumption|now apply S]]).
    apply plain_capitalizeWord in Hp.
    split; [|split]; [now apply plain_noComma|now apply plain_trimmed|assumption].
  - intros H; injection H as <- _ <-. split; [|split]; [reflexivity|reflexivity|assumption].
Qed.

Lemma numbers_plain (parts : list string) (u n : string) (i : nat) :
  Forall plainToken parts ->
  match parts with
  | p0 :: p1 :: _ =>
      if nonEmpty p0 && isNumeric p0 && nonEmpty p1 && isNumeric p1 then (p0, p1, 2)
      else if nonEmpty p0 && isNumeric p0 then ("", p0, 1)
      else ("", "", 0)
  | [p0] => if nonEmpty p0 && isNumeric p0 then ("", p0, 1) else ("", "", 0)
  | [] => ("", "", 0)
  end = (u, n, i) ->
  noComma u /\ noComma n.
Proof.
  intros P. destruct parts as [|p0 [|p1 parts]].
  - intros H; injection H as <- <- _. now split.
  - inversion P as [|? ? H0 _]; subst. apply plain_noComma in H0.
    destruct (nonEmpty p0 && isNumeric p0); intros H; injection H as <- <- _; now split.
  - inversion P as [|? ? H0 P1]; subst. inversion P1 as [|? ? H1 _]; subst.
    apply plain_noComma in H0, H1.
    destruct (nonEmpty p0 && isNumeric p0 && nonEmpty p1 && isNumeric p1);
      [|destruct (nonEmpty p0 && isNumeric p0)];
      intros H; injection H as <- <- _; now split.
Qed.

Lemma skipn_Forall {A} (Q : A -> Prop) (n : nat) (l : list A) :
  Forall Q l -> Forall Q (skipn n l).
Proof.
  intros F. rewrite Forall_forall in *. intros x Hx. apply F. eapply skipn_In; eauto.
Qed.

(** X9.  The route optimizer reads back the city the parser found: on
    ASCII tokens without comma or white space, the city [extractCity] takes
    from the address [normalize] returns is the city of the parsed
    components, and Unknown when the parser found no city. *)
Theorem normalized_city_is_read_back (parts : list string) (a : string) (c : components) :
  Forall plainToken parts ->
  normalize parts = Success a c ->
  RouteOptimizer.extractCity a = if nonEmpty (city c) then city c else "Unknown".
Proof.
  intros P H.
  pose proof (normalize_shape parts) as N. rewrite H in N.
  destruct N as (_ & -> & F & _).
  apply formatAddress_body in F as (body & -> & B).
  assert (K : noComma (unitNumber (parseComponents parts))
              /\ noComma (streetNumber (parseComponents parts))
              /\ noComma (streetName (parseComponents parts))
              /\ (forall s, streetType (parseComponents parts) = TypeString s -> noComma s)
              /\ noComma (city (parseComponents parts))
              /\ trim (city (parseComponents parts)) = city (parseComponents parts)).
  { unfold parseComponents.
    destruct (match parts with
              | [] => ("", "", 0)
              | [p0] => if nonEmpty p0 && isNumeric p0 then ("", p0, 1) else ("", "", 0)
              | p0 :: p1 :: _ =>
                  if nonEmpty p0 && isNumeric p0 && nonEmpty p1 && isNumeric p1
                  then (p0, p1, 2)
                  else if nonEmpty p0 && isNumeric p0 then ("", p0, 1) else ("", "", 0)
              end) as [[u n] i] eqn:E0.
    apply numbers_plain in E0 as [Hu Hn]; [|assumption].
    destruct (scanStreet (skipn i parts) i [] (TypeString "")) as [[i' name'] ty'] eqn:S.
    apply scanStreet_names in S as [Hnames Hty];
      [|now apply skipn_Forall|constructor|intros s E; injection E as <-; reflexivity].
    destruct (extractCityPart parts i' name') as [[town i''] name''] eqn:C.
    apply extractCityPart_town in C as (Ht & Htrim & Hnames'); [|assumption|assumption].
    cbn [unitNumber streetNumber streetName streetType city].
    repeat apply conj; try assumption. now apply noComma_join. }
  destruct K as (Ku & Kn & Ks & Kt & Kc & Ktrim).
  apply extractCity_formatted; auto.
Qed.

(** On the tokens of 15-bay-street-toronto-downtown the city read back is
    Toronto. *)
Lemma normalized_city_is_read_back_witness :
  RouteOptimizer.extractCity "15 BAY ST, Toronto, Ontario" = "Toronto".
Proof.
  apply (normalized_city_is_read_back ["15"; "bay"; "street"; "toronto"; "downtown"]
           "15 BAY ST, Toronto, Ontario"
           (mkComponents "" "15" "Bay" (TypeString "St") "Toronto" "Downtown")).
  - repeat constructor.
  - reflexivity.
Defined.

End ParserPathFacts.

(* ================================================================== *)
(** ** Further properties: slugs and listing URLs *)
(* ================================================================== *)

Section SlugFacts.
Import AddressParser.

Lemma split_nonempty (sep : ascii) (s : string) : split sep s <> [].
Proof.
  destruct s as [|c s]; simpl; [discriminate|].
  destruct (Ascii.eqb c sep); [discriminate|].
  destruct (split sep s); discriminate.
Qed.

Lemma split_without (sep : ascii) (s : string) : without sep s -> split sep s = [s].
Proof.
  unfold without. induction s as [|c s IH]; simpl; [reflexivity|].
  rewrite andb_true_iff, negb_true_iff. intros [-> H]. now rewrite (IH H).
Qed.

Lemma split_at_first (sep : ascii) (s t : string) :
  without sep s -> split sep (s +++ String sep t) = s :: split sep t.
Proof.
  unfold without. induction s as [|c s IH]; simpl.
  - now rewrite Ascii.eqb_refl.
  - rewrite andb_true_iff, negb_true_iff. intros [-> H]. now rewrite (IH H).
Qed.

Lemma join_cons (sep p q : string) (rest : list string) :
  join sep (p :: q :: rest) = p +++ sep +++ join sep (q :: rest).
Proof. reflexivity. Qed.

(** Joining what [split] returns gives the string back. *)
Lemma join_split (sep : ascii) (s : string) :
  join (String sep "") (split sep s) = s.
Proof.
  induction s as [|c s IH]; [reflexivity|]. simpl split.
  pose proof (split_nonempty sep s) as N.
  destruct (Ascii.eqb_spec c sep) as [->|_].
  - destruct (split sep s) as [|h t]; [congruence|].
    rewrite join_cons, IH. reflexivity.
  - destruct (split sep s) as [|h t]; [congruence|].
    destruct t as [|h' t].
    + simpl in *. now rewrite IH.
    + rewrite <- IH, !join_cons. reflexivity.
Qed.

(** Splitting what [join] returns gives the parts back, when none of them
    holds the separator. *)
Lemma split_join (sep : ascii) (parts : list string) :
  parts <> [] -> Forall (without sep) parts ->
  split sep (join (String sep "") parts) = parts.
Proof.
  intros N F. induction F as [|p parts Hp F IH]; [congruence|].
  destruct parts as [|q parts].
  - simpl. now apply split_without.
  - rewrite join_cons. cbn [append].
    rewrite split_at_first by assumption. f_equal. apply IH. discriminate.
Qed.

Lemma toLowerCase_append (s t : string) :
  toLowerCase (s +++ t) = toLowerCase s +++ toLowerCase t.
Proof.
  unfold toLowerCase. induction s as [|c s IH]; simpl; [reflexivity|now rewrite IH].
Qed.

Lemma join_lower (parts : list string) :
  Forall (fun t => toLowerCase t = t) parts ->
  toLowerCase (join "-" parts) = join "-" parts.
Proof.
  induction 1 as [|p parts Hp _ IH]; [reflexivity|].
  destruct parts as [|q parts]; [exact Hp|].
  rewrite join_cons, !toLowerCase_append, Hp, IH. reflexivity.
Qed.

Lemma join_without (c : ascii) (parts : list string) :
  Forall (without c) parts -> without c "-" -> without c (join "-" parts).
Proof.
  unfold without. intros F D. induction F as [|p parts Hp _ IH]; [reflexivity|].
  destruct parts as [|q parts]; [exact Hp|].
  rewrite join_cons, !allChars_append, Hp, D, IH. reflexivity.
Qed.

Lemma dropSlashes_kept (s : string) : without "/" s -> dropSlashes s = s.
Proof.
  unfold without. destruct s as [|c s]; [reflexivity|]. cbn [allChars].
  rewrite andb_true_iff, negb_true_iff. intros [C _].
  destruct (Ascii.eqb_spec c "/") as [->|N]; [discriminate|].
  destruct c as [[] [] [] [] [] [] [] []]; try reflexivity. congruence.
Qed.

Lemma dropTrailingSlashes_kept (s : string) : without "/" s -> dropTrailingSlashes s = s.
Proof.
  unfold without. induction s as [|c s IH]; simpl; [reflexivity|].
  rewrite andb_true_iff, negb_true_iff. intros [C H]. rewrite (IH H), C.
  now destruct s.
Qed.

Lemma filter_nonEmpty (parts : list string) :
  Forall (fun t => t <> "") parts -> filter nonEmpty parts = parts.
Proof.
  induction 1 as [|p parts Hp _ IH]; simpl; [reflexivity|].
  destruct p; [congruence|]. simpl. now rewrite IH.
Qed.

Lemma split_allChars (p : ascii -> bool) (sep : ascii) (s : string) :
  allChars p s = true -> Forall (fun t => allChars p t = true) (split sep s).
Proof.
  induction s as [|c s IH]; simpl; [now repeat constructor|].
  rewrite andb_true_iff. intros [Hc H]. specialize (IH H).
  destruct (Ascii.eqb c sep); [now constructor|].
  destruct (split sep s) as [|t ts]; [now repeat constructor; simpl; rewrite Hc|].
  inversion IH as [|? ? Ht Hts]; subst.
  constructor; [simpl; now rewrite Hc, Ht|assumption].
Qed.

Lemma split_parts_without (sep : ascii) (s : string) :
  Forall (without sep) (split sep s).
Proof.
  unfold without. induction s as [|c s IH]; simpl; [now repeat constructor|].
  destruct (Ascii.eqb c sep) eqn:E; [now constructor|].
  destruct (split sep s) as [|t ts]; [now repeat constructor; simpl; rewrite E|].
  inversion IH as [|? ? Ht Hts]; subst.
  constructor; [simpl; now rewrite E, Ht|assumption].
Qed.

Lemma allChars_dropSlashes (p : ascii -> bool) (s : string) :
  allChars p s = true -> allChars p (dropSlashes s) = true.
Proof.
  induction s as [|c s IH]; [trivial|]. cbn [allChars].
  rewrite andb_true_iff. intros [Hc H].
  destruct (Ascii.eqb_spec c "/") as [->|N].
  - now apply IH.
  - replace (dropSlashes (String c s)) with (String c s).
    + cbn [allChars]. now rewrite Hc, H.
    + destruct c as [[] [] [] [] [] [] [] []]; try reflexivity. congruence.
Qed.

Lemma allChars_dropTrailingSlashes (p : ascii -> bool) (s : string) :
  allChars p s = true -> allChars p (dropTrailingSlashes s) = true.
Proof.
  induction s as [|c s IH]; simpl; [reflexivity|].
  rewrite andb_true_iff. intros [Hc H]. specialize (IH H).
  destruct (dropTrailingSlashes s) as [|d t];
    [destruct (Ascii.eqb c "/"); simpl; now rewrite ?Hc|].
  cbn [allChars] in *. now rewrite Hc, IH.
Qed.

Lemma toLowerCase_fixed_chars (s : string) :
  allChars (fun c => Ascii.eqb (toLowerChar c) c) (toLowerCase s) = true.
Proof.
  unfold toLowerCase. induction s as [|c s IH]; simpl; [reflexivity|].
  rewrite IH, andb_true_r. revert c.
  apply (all_characters (fun c => Ascii.eqb (toLowerChar (toLowerChar c)) (toLowerChar c))).
  vm_compute. reflexivity.
Qed.

Lemma fixed_chars_lower (s : string) :
  allChars (fun c => Ascii.eqb (toLowerChar c) c) s = true -> toLowerCase s = s.
Proof.
  unfold toLowerCase. induction s as [|c s IH]; simpl; [reflexivity|].
  rewrite andb_true_iff. intros [Hc H]. apply Ascii.eqb_eq in Hc.
  now rewrite Hc, (IH H).
Qed.

(** X10.  Whatever the slug, the tokens [parseAddressFromUrl] works on are
    non-empty, hold no dash and are in lower case: the suffix table and
    the city names are looked up by lower-case tokens only. *)
Theorem slugParts_tokens (urlSlug : string) :
  Forall (fun t => t <> "" /\ without "-" t /\ toLowerCase t = t) (slugParts urlSlug).
Proof.
  unfold slugParts. apply Forall_forall. intros t Ht.
  apply filter_In in Ht as [Hin Hne].
  split; [now destruct t|]. split.
  - pose proof (split_parts_without "-"
                  (dropTrailingSlashes (dropSlashes (toLowerCase urlSlug)))) as W.
    rewrite Forall_forall in W. now apply W.
  - apply fixed_chars_lower.
    pose proof (split_allChars (fun c => Ascii.eqb (toLowerChar c) c) "-"
                  (dropTrailingSlashes (dropSlashes (toLowerCase urlSlug)))) as L.
    rewrite Forall_forall in L. apply L; [|assumption].
    apply allChars_dropTrailingSlashes, allChars_dropSlashes, toLowerCase_fixed_chars.
Qed.

(** The tokens of a slug joined from tokens are those tokens. *)
Lemma slugParts_join (tokens : list string) :
  Forall slugToken tokens -> slugParts (join "-" tokens) = tokens.
Proof.
  intros F. unfold slugParts.
  assert (L : Forall (fun t => toLowerCase t = t) tokens)
    by (eapply Forall_impl; [|exact F]; unfold slugToken; tauto).
  assert (D : Forall (without "-") tokens)
    by (eapply Forall_impl; [|exact F]; unfold slugToken; tauto).
  assert (S : Forall (without "/") tokens)
    by (eapply Forall_impl; [|exact F]; unfold slugToken; tauto).
  assert (N : Forall (fun t => t <> "") tokens)
    by (eapply Forall_impl; [|exact F]; unfold slugToken; tauto).
  rewrite join_lower by assumption.
  pose proof (join_without "/" tokens S eq_refl) as W.
  rewrite dropSlashes_kept, dropTrailingSlashes_kept by assumption.
  destruct tokens as [|t tokens]; [reflexivity|].
  rewrite split_join; [|discriminate|assumption].
  now apply filter_nonEmpty.
Qed.

(** X11.  On a slug that is its tokens joined by dashes (non-empty ASCII
    tokens in lower case without dash or slash), [parseAddressFromUrl] is
    [normalize] on those tokens. *)
Theorem parseAddressFromUrl_of_joined_tokens (tokens : list string) :
  Forall slugToken tokens ->
  parseAddressFromUrl (join "-" tokens) = normalize tokens.
Proof.
  intros F. unfold parseAddressFromUrl. now rewrite slugParts_join.
Qed.

(** The slug 15-bay-street-toronto-downtown. *)
Lemma parseAddressFromUrl_of_joined_tokens_witness :
  parseAddressFromUrl "15-bay-street-toronto-downtown"
  = normalize ["15"; "bay"; "street"; "toronto"; "downtown"].
Proof.
  apply (parseAddressFromUrl_of_joined_tokens
           ["15"; "bay"; "street"; "toronto"; "downtown"]).
  repeat constructor; discriminate.
Defined.

Lemma extractUrlSlug_listing (scheme host id slug : string) :
  without "/" scheme -> without "/" host -> without "/" id ->
  Scraper.extractUrlSlug (listingUrl scheme host id slug) = Some slug.
Proof.
  intros S H I. unfold Scraper.extractUrlSlug, listingUrl.
  change (scheme +++ "//" +++ host +++ "/real-estate/" +++ id +++ "/" +++ slug)
    with (scheme +++ String "/" ("" +++ String "/" (host +++ String "/"
            ("real-estate" +++ String "/" (id +++ String "/" slug))))).
  rewrite !split_at_first by (assumption || reflexivity).
  pose proof (split_nonempty "/" slug) as N.
  cbn [length nth_error skipn Nat.leb andb]. cbn.
  now rewrite join_split.
Qed.

(** X12.  From the URL of a listing page, scheme//host/real-estate/id/slug,
    [extractUrlSlug] returns the slug, whatever slashes it holds itself,
    and the URL branch of [checkForListing] finds a listing exactly when
    [parseAddressFromUrl] succeeds on the slug, with its address. *)
Theorem listing_url_gives_parsed_slug (scheme host id slug : string) :
  without "/" scheme -> without "/" host -> without "/" id ->
  Scraper.extractUrlSlug (listingUrl scheme host id slug) = Some slug
  /\ Scraper.addressFromUrl (listingUrl scheme host id slug)
     = match parseAddressFromUrl slug with
       | Success address _ => Some address
       | Failure _ => None
       end.
Proof.
  intros S H I. split; [now apply extractUrlSlug_listing|].
  unfold Scraper.addressFromUrl. rewrite extractUrlSlug_listing by assumption.
  assert (R : includes (listingUrl scheme host id slug) "real-estate" = true).
  { apply includes_within. exists (scheme +++ "//" +++ host +++ "/"), ("/" +++ id +++ "/" +++ slug).
    unfold listingUrl. now rewrite !append_assoc. }
  rewrite R. destruct slug; reflexivity.
Qed.

(** A listing page of realtor.ca. *)
Lemma listing_url_gives_parsed_slug_witness :
  Scraper.extractUrlSlug
    "https://www.realtor.ca/real-estate/26018291/15-bay-street-toronto-downtown"
  = Some "15-bay-street-toronto-downtown"
  /\ Scraper.addressFromUrl
       "https://www.realtor.ca/real-estate/26018291/15-bay-street-toronto-downtown"
     = match parseAddressFromUrl "15-bay-street-toronto-downtown" with
       | Success address _ => Some address
       | Failure _ => None
       end.
Proof.
  apply (listing_url_gives_parsed_slug "https:" "www.realtor.ca" "26018291"
           "15-bay-street-toronto-downtown"); reflexivity.
Defined.

End SlugFacts.

(* ================================================================== *)
(** ** Further properties: the schedule of a plan *)
(* ================================================================== *)

Section ScheduleFacts.
Import RouteOptimizer.
Variable h : host.

Lemma drawnMinutes_next (k n : nat) :
  drawnMinutes h k (S n) = (drivingMinutesOf (random h k) + drawnMinutes h (S k) n)%Z.
Proof. reflexivity. Qed.

Lemma drawnMinutes_last (k n : nat) :
  drawnMinutes h k (n + 1)
  = (drawnMinutes h k n + drivingMinutesOf (random h (k + n)))%Z.
Proof.
  revert k. induction n as [|n IH]; intros k.
  - simpl. rewrite Nat.add_0_r. unfold drawnMinutes. simpl. lia.
  - change (S n + 1) with (S (n + 1)). rewrite !drawnMinutes_next, IH.
    replace (S k + n) with (k + S n) by lia. lia.
Qed.

Lemma drawnMinutes_range (k n : nat) :
  (forall j, (0 <= random h j)%Q /\ (random h j < 1)%Q) ->
  (10 * Z.of_nat n <= drawnMinutes h k n <= 29 * Z.of_nat n)%Z.
Proof.
  intros U. revert k. induction n as [|n IH]; intros k.
  - unfold drawnMinutes. simpl. lia.
  - rewrite drawnMinutes_next. specialize (IH (S k)).
    destruct (U k) as [Lo Hi]. pose proof (drivingMinutesOf_range _ Lo Hi). lia.
Qed.

Lemma visitingMinutes_Permutation (l1 l2 : list property) :
  Permutation l1 l2 -> visitingMinutes l1 = visitingMinutes l2.
Proof. induction 1; simpl; lia. Qed.

(** The books of the visiting loop: the minutes it adds to the two totals
    are the minutes by which it advances the clock of the plan. *)
Lemma visitAll_totals (ps : list property) :
  forall i st w,
  exists st' added,
    fst (visitAll h i ps st w) = Ok st'
    /\ stepsSoFar st' = stepsSoFar st ++ added
    /\ totalVisit st' = (totalVisit st + visitingMinutes ps)%Z
    /\ totalDriving st'
       = (totalDriving st + drawnMinutes h (randomDraws w) (length ps))%Z
    /\ currentTime st'
       = (currentTime st
          + 60000 * (drawnMinutes h (randomDraws w) (length ps) + visitingMinutes ps))%Z.
Proof.
  induction ps as [|p rest IH]; intros i st w.
  - exists st, []. simpl. unfold drawnMinutes. simpl.
    rewrite app_nil_r. repeat split; lia.
  - cbn [visitAll]. unfold mbind, mathRandom at 1.
    match goal with
    | |- context [visitAll h (i + 1) rest ?st1 ?w1] =>
        destruct (IH (i + 1) st1 w1) as (st' & added & E & S & V & D & T)
    end.
    cbn [stepsSoFar totalVisit totalDriving currentTime randomDraws] in *.
    eexists st', (_ :: added). split; [exact E|].
    rewrite S, <- app_assoc. split; [reflexivity|].
    cbn [length visitingMinutes fold_right]. rewrite drawnMinutes_next.
    fold (visitingMinutes rest). repeat split; lia.
Qed.

Lemma simulateRouteOptimization_schedule (officeAddress : string)
    (properties ordered : list property) (w : world) :
  simulateOptimalOrder h properties = Ok ordered ->
  exists plan,
    fst (simulateRouteOptimization h officeAddress properties w) = Ok plan
    /\ startTime plan = formatTime h (clock h (clockReads w))
    /\ returnTime plan
       = formatTime h
           (clock h (clockReads w)
            + 60000 * (drawnMinutes h (randomDraws w) (length ordered + 1)
                       + visitingMinutes ordered))%Z
    /\ totalDuration plan
       = durationLabel
           (drawnMinutes h (randomDraws w) (length ordered + 1) + visitingMinutes ordered)
           (drawnMinutes h (randomDraws w) (length ordered + 1))
           (visitingMinutes ordered).
Proof.
  intros O. unfold simulateRouteOptimization. rewrite O.
  unfold mbind at 1, lift. unfold mbind at 1, newDate. unfold mbind at 1.
  match goal with
  | |- context [visitAll h 0 ordered ?st1 ?w1] =>
      destruct (visitAll_totals ordered 0 st1 w1) as (st' & added & E & S & V & D & T);
      destruct (visitAll_run h ordered 0 st1 w1) as (st2 & added2 & E2 & _)
  end.
  rewrite E2 in E. cbn [fst] in E. injection E as ->. rewrite E2.
  cbn [stepsSoFar totalVisit totalDriving currentTime randomDraws clockReads] in *.
  unfold mbind, mathRandom, ret. cbn [fst randomDraws].
  eexists. split; [reflexivity|].
  cbn [startTime returnTime totalDuration]. rewrite S, V, D, T, drawnMinutes_last.
  rewrite rev_app_distr. cbn [rev app arrivalTime].
  repeat split; f_equal; lia.
Qed.

(** X13.  The books of a plan balance.  With a random source in [0, 1)
    and a schedule within the integers the code's numbers hold exactly, a
    returned plan starts at a reading of the clock, the one current when
    [optimizeRoute] is called or the next, and returns at that reading
    plus the total duration: the visit durations of the stops, in whatever
    order they are visited, plus a driving total of between 10 and 29
    minutes for each stop and for the return; the duration label shows
    these three numbers. *)
Theorem plan_schedule_balances (officeAddress : string) (properties : list property)
    (w : world) :
  (forall j, (0 <= random h j)%Q /\ (random h j < 1)%Q) ->
  exactSchedule h properties w ->
  match fst (optimizeRoute h officeAddress properties w) with
  | Ok plan =>
      exists n driving,
        clockReads w <= n <= S (clockReads w)
        /\ startTime plan = formatTime h (clock h n)
        /\ returnTime plan
           = formatTime h (clock h n + 60000 * (driving + visitingMinutes properties))%Z
        /\ totalDuration plan
           = durationLabel (driving + visitingMinutes properties) driving
               (visitingMinutes properties)
        /\ (10 * (Z.of_nat (length properties) + 1) <= driving
            <= 29 * (Z.of_nat (length properties) + 1))%Z
  | Throw _ => exists p, In p properties /\ inheritedCity p
  end.
Proof.
  intros U _.
  destruct (optimizeRoute_simulates h officeAddress properties w) as (w' & E & A).
  rewrite E.
  pose proof (simulateOptimalOrder_spec h properties) as O.
  destruct (simulateOptimalOrder h properties) as [ordered|e] eqn:S.
  - destruct (simulateRouteOptimization_schedule officeAddress properties ordered w' S)
      as (plan & -> & T0 & T1 & L).
    destruct O as [P _].
    rewrite (visitingMinutes_Permutation _ _ P) in T1, L.
    exists (clockReads w'), (drawnMinutes h (randomDraws w') (length ordered + 1)).
    split; [apply A|].
    repeat split; try assumption;
      pose proof (drawnMinutes_range (randomDraws w') (length ordered + 1) U);
      apply Permutation_length in P; lia.
  - pose proof (simulateRouteOptimization_run h officeAddress properties w') as R.
    rewrite S in R. rewrite R. exact O.
Qed.

End ScheduleFacts.

(** Three stops on a host without provider. *)
Lemma plan_schedule_balances_witness :
  match fst (RouteOptimizer.optimizeRoute Demo.offline Demo.office Demo.threeStops
               RouteOptimizer.start) with
  | Ok plan =>
      exists n driving,
        RouteOptimizer.clockReads RouteOptimizer.start <= n
        <= S (RouteOptimizer.clockReads RouteOptimizer.start)
        /\ RouteOptimizer.startTime plan
           = RouteOptimizer.formatTime Demo.offline (RouteOptimizer.clock Demo.offline n)
        /\ RouteOptimizer.returnTime plan
           = RouteOptimizer.formatTime Demo.offline
               (RouteOptimizer.clock Demo.offline n
                + 60000 * (driving + visitingMinutes Demo.threeStops))%Z
        /\ RouteOptimizer.totalDuration plan
           = RouteOptimizer.durationLabel (driving + visitingMinutes Demo.threeStops)
               driving (visitingMinutes Demo.threeStops)
        /\ (10 * (Z.of_nat (length Demo.threeStops) + 1) <= driving
            <= 29 * (Z.of_nat (length Demo.threeStops) + 1))%Z
  | Throw _ => exists p, In p Demo.threeStops /\ inheritedCity p
  end.
Proof.
  apply (plan_schedule_balances Demo.offline Demo.office Demo.threeStops
           RouteOptimizer.start).
  - exact offline_random_in_unit.
  - split.
    + intros p [<-|[<-|[<-|[]]]]; simpl; lia.
    + intros n Hn. simpl in Hn.
      assert (C : n = 0 \/ n = 1) by lia.
      destruct C as [->| ->]; vm_compute; split; discriminate.
Defined.

(* ================================================================== *)
(** ** Further properties: the map link *)
(* ================================================================== *)

Section MapLinkFacts.
Import RouteOptimizer.

(** An encoded component holds no slash. *)
Lemma encodeURIComponent_without_slash (s : string) :
  without "/" (encodeURIComponent s).
Proof.
  unfold without. induction s as [|c s IH]; [reflexivity|].
  cbn [encodeURIComponent]. rewrite allChars_append, IH, andb_true_r.
  revert c.
  apply (all_characters
           (fun c => allChars (fun x => negb (Ascii.eqb x "/"))
                       (if unreserved c then String c ""
                        else if code c <? 128 then percent (code c)
                             else percent (192 + code c / 64)
                                  +++ percent (128 + code c mod 64)))).
  vm_compute. reflexivity.
Qed.

Lemma split_join_closed (sep : ascii) (parts : list string) :
  parts <> [] -> Forall (without sep) parts ->
  split sep (join (String sep "") parts +++ String sep "") = parts ++ [""].
Proof.
  intros N F. induction F as [|p parts Hp F IH]; [congruence|].
  destruct parts as [|q parts].
  - cbn [join app]. now rewrite split_at_first.
  - rewrite join_cons, !append_assoc. cbn [append].
    rewrite split_at_first by assumption. cbn [app]. f_equal.
    apply IH. discriminate.
Qed.

(** X14.  The path of the map link, split at its slashes, is the encoded
    office, the encoded addresses of the stops in their order and the
    encoded office again, after the segments of the base address and
    before an empty last segment: no character of an address can add or
    remove a waypoint. *)
Theorem map_link_segments (officeAddress : string) (properties : list property) :
  split "/" (generateGoogleMapsUrl officeAddress properties)
  = ["https:"; ""; "www.google.com"; "maps"; "dir"]
    ++ map encodeURIComponent ([officeAddress] ++ map address properties ++ [officeAddress])
    ++ [""].
Proof.
  unfold generateGoogleMapsUrl.
  set (encoded := map encodeURIComponent
                    ([officeAddress] ++ map address properties ++ [officeAddress])).
  change ("https://www.google.com/maps/dir" +++ "/" +++ join "/" encoded +++ "/")
    with ("https:" +++ String "/" ("" +++ String "/" ("www.google.com" +++ String "/"
            ("maps" +++ String "/" ("dir" +++ String "/" (join "/" encoded +++ "/")))))).
  rewrite !split_at_first by reflexivity.
  rewrite split_join_closed; [reflexivity|discriminate|].
  apply Forall_forall. intros e He. apply in_map_iff in He as (a & <- & _).
  apply encodeURIComponent_without_slash.
Qed.

End MapLinkFacts.

(* ================================================================== *)
(** ** Further properties: the listing service *)
(* ================================================================== *)

Section ListingServiceFacts.
Import DocumentProcessor DdfApiService.

Lemma removeSpaces_kept (s : string) :
  allChars (fun c => negb (isSpace c)) s = true -> removeSpaces s = s.
Proof.
  induction s as [|c s IH]; simpl; [reflexivity|].
  rewrite andb_true_iff, negb_true_iff. intros [-> H]. now rewrite (IH H).
Qed.

Lemma digits_not_space (ds : string) :
  allChars isDigit ds = true -> allChars (fun c => negb (isSpace c)) ds = true.
Proof.
  apply allChars_impl. intros c H. now rewrite (digit_not_space _ H).
Qed.

(** A valid MLS number has no white space and no lower-case letter. *)
Lemma valid_mls_plain (s : string) :
  isValidMLS s = true ->
  allChars (fun c => negb (isSpace c)) s = true /\ toUpperCase s = s.
Proof.
  intros V. apply valid_has_shape in V as [(a & ds & -> & U & D & _)
                                         |(a & ds & tail & -> & U & D & _ & T)].
  - split.
    + simpl. now rewrite (upper_not_space _ U), (digits_not_space _ D).
    + unfold toUpperCase. cbn [mapString]. rewrite (upper_fixed _ U). f_equal.
      now apply digits_upper.
  - assert (Tp : allChars (fun c => negb (isSpace c)) tail = true /\ toUpperCase tail = tail).
    { destruct T as [->|(b & -> & B)]; [now split|].
      split; [simpl; now rewrite (upper_not_space _ B)|].
      unfold toUpperCase. simpl. now rewrite (upper_fixed _ B). }
    destruct Tp as [Ts Tu]. split.
    + cbn [allChars]. rewrite (upper_not_space _ U), allChars_append, (digits_not_space _ D).
      cbn [append allChars]. rewrite Ts. reflexivity.
    + change (String a (ds +++ "-" +++ tail)) with (String a "" +++ ds +++ "-" +++ tail).
      rewrite !toUpperCase_append, (digits_upper _ D), Tu.
      unfold toUpperCase at 1. simpl. now rewrite (upper_fixed _ U).
Qed.

(** X17.  The MLS numbers read from a document reach the listing service
    as they are: [cleanMLS] leaves every number [parsePropertyInfo]
    returns unchanged, so the filter of the request names that number. *)
Theorem extracted_mls_numbers_are_clean (text : string) :
  Forall (fun n => cleanMLS n = n /\ filterOf n = filterFor n)
         (mlsNumbers (parsePropertyInfo text)).
Proof.
  apply Forall_forall. intros n Hin.
  apply extracted_number_valid, valid_mls_plain in Hin as [S U].
  assert (C : cleanMLS n = n) by (unfold cleanMLS; now rewrite removeSpaces_kept).
  split; [exact C|]. unfold filterOf, filterFor. now rewrite C.
Qed.

(** The address of a listing is never empty. *)
Lemma formatCanadianAddress_nonEmpty (l : listing) : formatCanadianAddress l <> "".
Proof.
  unfold formatCanadianAddress.
  match goal with
  | |- (if nonEmpty ?a then _ else _) <> _ => destruct a eqn:E
  end; simpl; discriminate.
Qed.

Lemma truthy_value (v : option string) : truthy v = true -> nonEmpty (valueOf v) = true.
Proof. destruct v; [trivial|discriminate]. Qed.

Lemma appended_field (address field : string) :
  nonEmpty field = true ->
  nonEmpty (if nonEmpty address then address +++ ", " +++ field else field) = true
  /\ exists pre,
       (if nonEmpty address then address +++ ", " +++ field else field) = pre +++ field.
Proof.
  intros F. destruct address as [|a address]; cbn [nonEmpty].
  - split; [assumption|now exists ""].
  - split; [reflexivity|]. exists (String a address +++ ", "). now rewrite append_assoc.
Qed.

(** X18.  [formatCanadianAddress] never returns the empty string: without
    a usable field it returns Address not available, and otherwise the
    result ends in the last field present, province before city before
    street address. *)
Theorem formatCanadianAddress_outcome (l : listing) :
  formatCanadianAddress l <> ""
  /\ (truthy (stateOrProvince l) = true ->
      exists pre, formatCanadianAddress l = pre +++ valueOf (stateOrProvince l))
  /\ (truthy (stateOrProvince l) = false -> truthy (listingCity l) = true ->
      exists pre, formatCanadianAddress l = pre +++ valueOf (listingCity l))
  /\ (truthy (stateOrProvince l) = false -> truthy (listingCity l) = false ->
      formatCanadianAddress l
      = if nonEmpty (trim (valueOf (unparsedAddress l)))
        then trim (valueOf (unparsedAddress l)) else "Address not available").
Proof.
  split; [apply formatCanadianAddress_nonEmpty|].
  unfold formatCanadianAddress.
  assert (A : (if truthy (unparsedAddress l) then trim (valueOf (unparsedAddress l))
               else "") = trim (valueOf (unparsedAddress l)))
    by (destruct (unparsedAddress l) as [[|c u]|]; reflexivity).
  rewrite A. clear A.
  remember (trim (valueOf (unparsedAddress l))) as street eqn:Es. clear Es.
  destruct (truthy (stateOrProvince l)) eqn:P.
  - apply truthy_value in P.
    split; [|split; intros; discriminate]. intros _.
    match goal with
    | |- context [if nonEmpty ?b then ?b +++ ", " +++ ?x else ?x] =>
        destruct (appended_field b x P) as [N (pre & E)]
    end.
    rewrite N. now exists pre.
  - split; [intros; discriminate|].
    destruct (truthy (listingCity l)) eqn:C.
    + apply truthy_value in C.
      split; [|intros; discriminate]. intros _ _.
      destruct (appended_field street _ C) as [N (pre & E)].
      rewrite N. now exists pre.
    + split; [intros; discriminate|]. reflexivity.
Qed.

Lemma authenticate_ok (h : authHost) (t t' : tokens) (w w' : authWorld) :
  authenticate h t w = (Ok true, t', w') ->
  truthy (clientId h) = true /\ truthy (clientSecret h) = true
  /\ truthy (accessToken t') = true
  /\ tokenExpiry t' = Some (now h (nowReads w) + tokenLife)%Z
  /\ w' = mkAuthWorld (S (posts w)) (S (S (nowReads w))).
Proof.
  unfold authenticate.
  destruct (truthy (clientId h)), (truthy (clientSecret h)); try discriminate.
  cbn [negb orb].
  destruct (post h (posts w)) as [token|e]; [|discriminate].
  destruct (truthy token) eqn:T; [|discriminate].
  intros H; injection H as <- <-. simpl. auto.
Qed.

(** X19.  A token is requested again only once the clock has reached its
    expiry.  After a successful [authenticate], [ensureValidToken]
    returns the token held without a request while the clock reads less
    than 59 minutes after the reading of the authentication, and makes one
    request as soon as it reads that or more. *)
Theorem token_is_reused_until_expiry (h : authHost) (t t' : tokens) (w w' : authWorld) :
  authenticate h t w = (Ok true, t', w') ->
  (now h (nowReads w) + tokenLife <> 0)%Z ->
  ((now h (nowReads w') < now h (nowReads w) + tokenLife)%Z ->
   ensureValidToken h t' w'
   = (Ok (accessToken t'), t', mkAuthWorld (posts w') (S (nowReads w'))))
  /\ ((now h (nowReads w) + tokenLife <= now h (nowReads w'))%Z ->
      posts (snd (ensureValidToken h t' w')) = S (posts w')).
Proof.
  intros A Z0. apply authenticate_ok in A as (Ci & Cs & Tk & Ex & ->).
  unfold ensureValidToken. rewrite Tk, Ex. cbn [negb orb].
  destruct (Z.eqb_spec (now h (nowReads w) + tokenLife) 0) as [E|_]; [congruence|].
  cbn [nowReads posts]. split; intros L.
  - apply Z.leb_gt in L. now rewrite L.
  - apply Z.leb_le in L. rewrite L.
    unfold authenticate. rewrite Ci, Cs. cbn [negb orb posts nowReads].
    destruct (post h (S (posts w))) as [token|e]; [|reflexivity].
    destruct (truthy token); reflexivity.
Qed.

(** A first authentication at the start of the clock. *)
Lemma token_is_reused_until_expiry_witness :
  ((now tokenService 2 < now tokenService 0 + tokenLife)%Z ->
   ensureValidToken tokenService
     (mkTokens (Some "token") (Some tokenLife)) (mkAuthWorld 1 2)
   = (Ok (Some "token"), mkTokens (Some "token") (Some tokenLife), mkAuthWorld 1 3))
  /\ ((now tokenService 0 + tokenLife <= now tokenService 2)%Z ->
      posts (snd (ensureValidToken tokenService
                    (mkTokens (Some "token") (Some tokenLife)) (mkAuthWorld 1 2)))
      = 2).
Proof.
  apply (token_is_reused_until_expiry tokenService (mkTokens None None)
           (mkTokens (Some "token") (Some tokenLife))
           (mkAuthWorld 0 0) (mkAuthWorld 1 2)).
  - reflexivity.
  - vm_compute. discriminate.
Defined.

End ListingServiceFacts.

(* ================================================================== *)
(** ** Further properties: the route endpoint *)
(* ================================================================== *)

Section EndpointFacts.
Import RouteOptimizer Server.

(** X16.  The route endpoint never fails: it answers every request with
    a plan or with one of four refusals.  A plan is sent only for a
    non-empty office address and one to five stops, and has one step per
    stop between its start and its return, hence three to seven steps. *)
Theorem optimizeRouteHandler_outcome (h : host) (b : body) (w : world) :
  match fst (optimizeRouteHandler h b w) with
  | Ok (Route plan) =>
      exists office stops,
        officeAddress b = Some office /\ office <> ""
        /\ properties b = Some stops /\ 1 <= length stops <= 5
        /\ length (steps plan) = length stops + 2
  | Ok (Refused message) => In message refusals
  | Throw _ => False
  end.
Proof.
  unfold optimizeRouteHandler, refusals.
  destruct (officeAddress b) as [office|]; [|simpl; tauto].
  destruct (nonEmpty office) eqn:N; cbn [negb]; [|simpl; tauto].
  destruct (properties b) as [[|p ps]|]; [simpl; tauto| |simpl; tauto].
  destruct (Nat.ltb_spec 5 (length (p :: ps))) as [L|L]; [simpl; tauto|].
  unfold tryCatch, mbind, ret.
  pose proof (optimizeRoute_outcome h office (p :: ps) w) as O.
  destruct (optimizeRoute h office (p :: ps) w) as [[plan|e] w']; cbn [fst] in *;
    [|simpl; tauto].
  destruct O as (ordered & k & _ & _ & _ & _ & _ & _ & _ & Len).
  exists office, (p :: ps).
  split; [reflexivity|]. split; [now destruct office|].
  split; [reflexivity|]. split; [simpl in *; lia|exact Len].
Qed.

End EndpointFacts.

(* ================================================================== *)
(** ** Further properties: the order of the stops of one city *)
(* ================================================================== *)

Section StreetOrderFacts.
Import RouteOptimizer.

Lemma StronglySorted_weaken {B} (R R' : B -> B -> Prop) (l : list B) :
  (forall x y, R x y -> R' x y) -> StronglySorted R l -> StronglySorted R' l.
Proof.
  intros W. induction 1 as [|x l S IH F]; constructor; [assumption|].
  eapply Forall_impl; [|exact F]. auto.
Qed.

(** Buckets of distinct cities, each in the order of its streets, laid
    out one after the other. *)
Lemma buckets_by_street (h : host) (f : string -> list property) (cities : list string) :
  NoDup cities ->
  (forall c p, In p (f c) -> cityOf p = c) ->
  (forall c, StronglySorted (byStreet h) (f c)) ->
  StronglySorted (byStreet h) (flat_map f cities).
Proof.
  intros N C S. induction N as [|c cities Hc N IH]; simpl; [constructor|].
  apply StronglySorted_app; [apply S|assumption|].
  intros p q Hp Hq E. exfalso. apply Hc.
  apply in_flat_map in Hq as (c' & Hc' & Hq).
  rewrite (C _ _ Hp), (C _ _ Hq) in E. now subst.
Qed.

(** X15.  Within a city the stops follow the order of their streets.  For
    a [localeCompare] that is transitive and total, every two stops of
    the visiting order that lie in the same city stand in the order
    [localeCompare] gives their street names (the text before the first
    comma of the address, trimmed). *)
Theorem stops_of_a_city_follow_street_order (h : host) (properties ordered : list property) :
  (forall a b c, (localeCompare h a b <= 0)%Z -> (localeCompare h b c <= 0)%Z ->
                 (localeCompare h a c <= 0)%Z) ->
  (forall a b, (0 < localeCompare h a b)%Z -> (localeCompare h b a <= 0)%Z) ->
  simulateOptimalOrder h properties = Ok ordered ->
  StronglySorted (byStreet h) ordered.
Proof.
  intros T A. unfold simulateOptimalOrder.
  pose proof (groupAll_grouping properties [] [] grouping_start) as G.
  destruct (groupAll [] properties) as [grouped|e]; simpl in *; [|discriminate].
  assert (P : Permutation (getCityPriority h (objectKeys grouped)) (map fst grouped)).
  { unfold getCityPriority. rewrite sort_Permutation. apply objectKeys_Permutation. }
  rewrite addCities_buckets
    by (intros c Hc; eapply Permutation_in; [exact P|exact Hc]).
  intros H; injection H as <-. simpl.
  apply buckets_by_street.
  - apply (Permutation_NoDup (Permutation_sym P)). apply G.
  - intros c p Hp. apply sort_In in Hp.
    rewrite (grouping_bucket _ _ c G) in Hp.
    apply filter_In in Hp as [_ Hp]. now apply String.eqb_eq in Hp.
  - intros c.
    apply (StronglySorted_weaken
             (fun p q => (localeCompare h (streetOf p) (streetOf q) <= 0)%Z)).
    + intros p q L _. exact L.
    + apply sort_sorted.
      * intros p q r. apply T.
      * intros p q _ _. unfold orders, compareStreets, streetOf. split; [trivial|apply A].
Qed.

(** Comparison by code units is transitive and total. *)
Lemma compare_chars (a b : ascii) :
  CompareSpec (a = b) (N_of_ascii a < N_of_ascii b)%N (N_of_ascii b < N_of_ascii a)%N
    (Ascii.compare a b).
Proof.
  unfold Ascii.compare. destruct (N.compare_spec (N_of_ascii a) (N_of_ascii b)) as [E|L|L];
    constructor; try assumption.
  rewrite <- (ascii_N_embedding a), <- (ascii_N_embedding b). now rewrite E.
Qed.

Lemma compare_strings_trans (a : string) :
  forall b c, String.compare a b <> Gt -> String.compare b c <> Gt ->
              String.compare a c <> Gt.
Proof.
  induction a as [|x a IH]; intros [|y b] [|z c]; simpl; try congruence.
  destruct (compare_chars x y) as [->|Lxy|Lxy]; [|intros _|congruence].
  - destruct (compare_chars y z) as [->|Lyz|Lyz]; [apply IH|congruence|congruence].
  - destruct (compare_chars y z) as [->|Lyz|Lyz]; [|intros _|congruence].
    + destruct (compare_chars x z) as [->|L|L]; [lia|congruence|lia].
    + destruct (compare_chars x z) as [->|L|L]; [lia|congruence|lia].
Qed.

Lemma compareCodeUnits_sign (a b : string) :
  (Demo.compareCodeUnits a b <= 0)%Z <-> String.compare a b <> Gt.
Proof.
  unfold Demo.compareCodeUnits. destruct (String.compare a b); split; try lia; congruence.
Qed.

(** Three stops of which two lie in Toronto, on a host that compares by
    code units. *)
Lemma stops_of_a_city_follow_street_order_witness :
  StronglySorted (byStreet Demo.offline)
    [ mkProperty "5 Main St, Richmond Hill, Ontario" 20 None;
      mkProperty "1 Yonge St, Toronto, Ontario" 30 None;
      mkProperty "9 Bay St, Toronto, Ontario" 15 None ].
Proof.
  apply (stops_of_a_city_follow_street_order Demo.offline
           [ mkProperty "9 Bay St, Toronto, Ontario" 15 None;
             mkProperty "5 Main St, Richmond Hill, Ontario" 20 None;
             mkProperty "1 Yonge St, Toronto, Ontario" 30 None ]).
  - intros a b c. cbn [localeCompare Demo.offline].
    rewrite !compareCodeUnits_sign. apply compare_strings_trans.
  - intros a b. cbn [localeCompare Demo.offline]. rewrite compareCodeUnits_sign.
    unfold Demo.compareCodeUnits. rewrite (String.compare_antisym b a).
    destruct (String.compare a b); simpl; [lia|lia|congruence].
  - vm_compute. reflexivity.
Defined.

End StreetOrderFacts.
